(** * Collaborative screenplay editor: pagination engine, session relay, sync client

    A shallow embedding of the pieces of the repository that carry its
    algorithmic content:

    - the pagination code of the editor component (the inline pagination
      worker, [updatePages], [fallbackUpdatePages] and the two copies of
      [calculateElementHeight]), the timer that schedules the page update
      in [dispatchTransaction], and the search of the document worker
      ([searchInElements]);
    - the socket relay of [pages/api/socket.js] (the four event handlers
      and the two process-wide maps they mutate);
    - the sync client of [lib/ySocketProvider.js]: the outbound throttle
      ([setupYjsListeners]), [joinDocument], [updateAwareness] and
      [generateUserColor].

    Numbers.  JavaScript numbers are IEEE 754 doubles.  Indices, lengths
    and counts are modelled as [nat].  The heights of the pagination code
    are modelled twice: modules [Worker] and [Editor] compute them with
    exact rationals ([Q]), module [Binary64] in double precision, every
    operation being rounded ([Double]).  With the multipliers 1 and 1.5
    the two heights are equal; with 1.2, which is not a double, they
    differ in the last places.  At the page height of the editor, 1122,
    that difference moves no page boundary ([worker_loops_agree],
    [fallback_loops_agree]): there the pages of the exact model are the
    pages of the code.  At another page height they need not be. *)

From Stdlib Require Import QArith Qround Qabs Qpower Lqa Ascii String.
From Stdlib Require Import Floats.SpecFloat.
From stdpp Require Import gmap strings list fin_maps sorting.

(** ** JavaScript built-ins used by the code *)

Module JS.

(** [Math.ceil] and [Math.floor] on a number. *)
Definition Math_ceil (x : Q) : Z := Qceiling x.
Definition Math_floor (x : Q) : Z := Qfloor x.

(** A natural number read as a JavaScript number. *)
Definition num (n : nat) : Q := inject_Z (Z.of_nat n).

(** [a > b] on numbers. *)
Definition gt (a b : Q) : bool := negb (Qle_bool a b).

(** [arr.slice(start, end)] for [0 <= start], [0 <= end]. *)
Definition slice {A} (start end_ : nat) (arr : list A) : list A :=
  take (end_ - start) (drop start arr).

(** [arr.sort(cmp)]: the sort is stable (ECMAScript 2019), so for a
    comparator that orders by a key its result is the one of a stable
    insertion sort: [x] stays in front of [y] when [cmp x y <= 0]. *)
Fixpoint sort_insert {A} (cmp : A → A → Z) (x : A) (sorted : list A) : list A :=
  match sorted with
  | [] => [x]
  | y :: ys => if (cmp x y <=? 0)%Z then x :: y :: ys
               else y :: sort_insert cmp x ys
  end.

Fixpoint sort {A} (cmp : A → A → Z) (arr : list A) : list A :=
  match arr with
  | [] => []
  | x :: xs => sort_insert cmp x (sort cmp xs)
  end.

(** Truthiness of a string and of a possibly undefined string. *)
Definition truthy (s : string) : bool := negb (bool_decide (s = "")).
Definition truthy_opt (s : option string) : bool :=
  match s with Some s => truthy s | None => false end.

End JS.

(** ** Pagination: data *)

(** [node.attrs] of a screenplay node. *)
Record attrs := { type : string; dual : bool }.

(** A document node as the pagination code reads it: [node.type.name]
    (absent on the plain objects [updatePages] builds), [node.attrs] and
    [node.textContent]. *)
Record pmnode := {
  type_name : option string;
  node_attrs : attrs;
  textContent : string
}.

(** What [doc.descendants] passes to its callback, in visiting order. *)
Abbreviation document := (list (pmnode * nat)).

(** The objects [updatePages] extracts: [{ type, content, dual, pos }]. *)
Record element := {
  el_type : string;
  content : string;
  el_dual : bool;
  el_pos : nat
}.

(** An entry of a page of the [pages] state: [{ node, pos }]. *)
Record pageItem := { node : pmnode; pos : nat }.

(** A page as the worker reports it: [{ pageIndex, elements }]. *)
Record workerPage := { pageIndex : nat; elements : list element }.

(** The worker's request and its two replies. *)
Record workerRequest := {
  req_elements : list element;
  req_startIndex : nat;
  req_chunkSize : nat;
  req_pageHeight : Q
}.

Inductive workerReply :=
| ReplySuccess (pages : list workerPage) (startIndex chunkSize : nat)
| ReplyFailure (error : string) (startIndex chunkSize : nat).

(** How a worker of the pool behaves when a chunk is posted to it: it runs
    its [onmessage] code and answers, it never answers (the 10 s timer
    rejects the promise), or it raises [onerror]. *)
Inductive worker := Responsive | Hung | Crashed.

(** The outcome of one chunk promise under [Promise.allSettled]. *)
Inductive settled :=
| Fulfilled (value : list workerPage)
| Rejected (reason : string).

Definition ELEMENTS_PER_PAGE : nat := 15.
Definition PAGE_HEIGHT : Q := 1122%Q.
Definition WORKER_CHUNK_SIZE : nat := 50.

(** ** Pagination: the worker source *)

Module Worker.

Local Open Scope Q_scope.

Definition calculateElementHeight (element : element) : Q :=
  let baseHeight := 24 in
  let contentLength :=
    if JS.truthy (content element) then String.length (content element) else 0%nat in
  let linesNeeded := JS.Math_ceil (JS.num contentLength / 60) in
  let multiplier :=
    if bool_decide (el_type element = "scene_heading") then 1.5
    else if bool_decide (el_type element = "character") then 1.2
    else 1 in
  baseHeight * inject_Z linesNeeded * multiplier + 12.

(** The [for] loop of [onmessage] with its four mutable variables, and
    the flush of the last page after it. *)
Fixpoint loop (pageHeight : Q) (rest : list element)
    (processedPages : list workerPage) (currentPage : list element)
    (currentPageHeight : Q) (pageIndex : nat) : list workerPage :=
  match rest with
  | [] =>
      if (0 <? length currentPage)%nat
      then processedPages ++ [{| pageIndex := pageIndex; elements := currentPage |}]
      else processedPages
  | element :: rest =>
      let elementHeight := calculateElementHeight element in
      if JS.gt (currentPageHeight + elementHeight) pageHeight
         && (0 <? length currentPage)%nat
      then loop pageHeight rest
             (processedPages ++ [{| pageIndex := pageIndex; elements := currentPage |}])
             [element] (0 + elementHeight) (S pageIndex)
      else loop pageHeight rest processedPages
             (currentPage ++ [element]) (currentPageHeight + elementHeight) pageIndex
  end.

(** [self.onmessage].  Nothing in the [try] block can throw on elements
    of the shape above, so the [catch] reply is never produced. *)
Definition onmessage (e : workerRequest) : workerReply :=
  let pageIndex := (req_startIndex e / 15)%nat in
  ReplySuccess (loop (req_pageHeight e) (req_elements e) [] [] 0 pageIndex)
               (req_startIndex e) (req_chunkSize e).

End Worker.

(** ** Pagination: the editor component *)

Module Editor.

Local Open Scope Q_scope.

Definition calculateElementHeight (node : pmnode) : Q :=
  let baseHeight := 24 in
  let contentLength := String.length (textContent node) in
  let linesNeeded := JS.Math_ceil (JS.num contentLength / 60) in
  let multiplier :=
    if bool_decide (type (node_attrs node) = "scene_heading") then 1.5
    else if bool_decide (type (node_attrs node) = "character") then 1.2
    else 1 in
  baseHeight * inject_Z linesNeeded * multiplier + 12.

(** The [doc.descendants] callback of [fallbackUpdatePages], run over the
    visited nodes, and the flush after it. *)
Fixpoint fallbackLoop (rest : document) (newPages : list (list pageItem))
    (currentPage : list pageItem) (currentPageHeight : Q) : list (list pageItem) :=
  match rest with
  | [] =>
      if (0 <? length currentPage)%nat then newPages ++ [currentPage] else newPages
  | (node, pos) :: rest =>
      if bool_decide (type_name node = Some "screenplay_element") then
        let elementHeight := calculateElementHeight node in
        if JS.gt (currentPageHeight + elementHeight) PAGE_HEIGHT
           && (0 <? length currentPage)%nat
        then fallbackLoop rest (newPages ++ [currentPage])
               [{| node := node; pos := pos |}] (0 + elementHeight)
        else fallbackLoop rest newPages
               (currentPage ++ [{| node := node; pos := pos |}])
               (currentPageHeight + elementHeight)
      else fallbackLoop rest newPages currentPage currentPageHeight
  end.

(** [fallbackUpdatePages(view)]: the new value of the [pages] state.
    [view] is [None] when [!view || !view.state]; the state is then left
    as it was. *)
Definition fallbackUpdatePages (view : option document)
    (pages : list (list pageItem)) : list (list pageItem) :=
  match view with
  | None => pages
  | Some doc => fallbackLoop doc [] [] 0
  end.

(** The element extraction at the head of [updatePages]. *)
Definition extractElements (doc : document) : list element :=
  omap (λ '(node, pos),
          if bool_decide (type_name node = Some "screenplay_element")
          then Some {| el_type := type (node_attrs node);
                       content := textContent node;
                       el_dual := dual (node_attrs node);
                       el_pos := pos |}
          else None) doc.

(** One chunk promise: the reply of a responsive worker resolves or
    rejects it, a hung worker lets the timer reject it, a crashed one
    rejects it through [onerror]. *)
Definition chunkPromise (w : worker) (chunk : list element) (startIndex : nat) : settled :=
  match w with
  | Responsive =>
      match Worker.onmessage {| req_elements := chunk;
                                req_startIndex := startIndex;
                                req_chunkSize := length chunk;
                                req_pageHeight := PAGE_HEIGHT |} with
      | ReplySuccess pages _ _ => Fulfilled pages
      | ReplyFailure error _ _ => Rejected error
      end
  | Hung => Rejected "Worker timeout"
  | Crashed => Rejected "error"
  end.

(** The dispatch loop over the pool, [i] being the index of the first
    worker of [workers]. *)
Fixpoint dispatch (allElements : list element) (chunkSize : nat)
    (i : nat) (workers : list worker) : list settled :=
  match workers with
  | [] => []
  | w :: workers =>
      let startIndex := (i * chunkSize)%nat in
      let endIndex := (startIndex + chunkSize) `min` length allElements in
      let chunk := JS.slice startIndex endIndex allElements in
      if (length chunk =? 0)%nat
      then dispatch allElements chunkSize (S i) workers
      else chunkPromise w chunk startIndex
             :: dispatch allElements chunkSize (S i) workers
  end.

(** [results.forEach]: the pages of the fulfilled promises, in the order
    of the promises. *)
Definition combine (results : list settled) : list workerPage :=
  flat_map (λ result, match result with
                      | Fulfilled value => value
                      | Rejected _ => []
                      end) results.

(** The merge: the combined pages, sorted by the [pageIndex] their worker
    gave them. *)
Definition merge (results : list settled) : list workerPage :=
  let allPages := combine results in
  JS.sort (λ a b, (Z.of_nat (pageIndex a) - Z.of_nat (pageIndex b))%Z) allPages.

(** The conversion of a worker page to the format of the [pages] state. *)
Definition convertPage (page : workerPage) : list pageItem :=
  map (λ element,
         {| node := {| type_name := None;
                       node_attrs := {| type := el_type element; dual := el_dual element |};
                       textContent := content element |};
            pos := el_pos element |}) (elements page).

(** [updatePages(view)]: the new value of the [pages] state, for the pool
    [workers] ([paginationWorkersRef.current]).  [Promise.allSettled]
    never rejects, and the sort and the conversion cannot throw on pages
    of the shape above, so the [catch] of the function is not reached
    from them. *)
Definition updatePages (workers : list worker) (view : option document)
    (pages : list (list pageItem)) : list (list pageItem) :=
  match view with
  | None => fallbackUpdatePages view pages
  | Some doc =>
      if (length workers =? 0)%nat then fallbackUpdatePages view pages
      else
        let allElements := extractElements doc in
        if (length allElements =? 0)%nat then []
        else
          let chunkSize :=
            Z.to_nat (JS.Math_ceil (JS.num (length allElements) / JS.num (length workers))) in
          let results := dispatch allElements chunkSize 0 workers in
          let allPages := merge results in
          map convertPage allPages
  end.

End Editor.

(** ** Double precision *)

(** The arithmetic of JavaScript numbers: a number is the rational it
    stands for, and an operation is the exact operation followed by the
    rounding to the nearest double, a tie going to the even significand
    (IEEE 754 binary64, round to nearest even).  The exponent range is
    left out: the numbers of the pagination code lie between 1/60 and the
    height of an element, whose text has fewer than [2^53] characters,
    far from the ends of the range. *)

Module Double.

Local Open Scope Q_scope.

(** The binary exponent of a number other than zero: the integer [m] with
    [2^m <= |x| < 2^(m+1)]. *)
Definition magnitude (x : Q) : Z :=
  let l := (Z.log2 (Z.abs (Qnum x)) - Z.log2 (Zpos (Qden x)))%Z in
  if Qle_bool (2 ^ l) (Qabs x) then l else (l - 1)%Z.

(** The nearest integer, a tie going to the even one. *)
Definition roundHalfEven (y : Q) : Z :=
  let f := Qfloor y in
  match Qcompare (y - inject_Z f) (1 # 2) with
  | Lt => f
  | Gt => (f + 1)%Z
  | Eq => if Z.even f then f else (f + 1)%Z
  end.

(** The nearest number with a significand of 53 bits. *)
Definition round (x : Q) : Q :=
  if Qeq_bool x 0 then 0
  else let e := (magnitude x - 52)%Z in
       Qred (inject_Z (roundHalfEven (x / 2 ^ e)) * 2 ^ e).

(** [a + b], [a * b] and [a / b] on doubles. *)
Definition add (a b : Q) : Q := round (a + b).
Definition mul (a b : Q) : Q := round (a * b).
Definition div (a b : Q) : Q := round (a / b).

(** The unit roundoff, [2^-53]. *)
Definition u : Q := 1 # 9007199254740992.

End Double.

(** ** Pagination in double precision *)

(** The two copies of [calculateElementHeight] and the two pagination
    loops once more, with the arithmetic of the code: the decimal
    literals [1.5] and [1.2] are the doubles nearest to them, and
    [contentLength / 60], the two products, the sum with 12 and the
    running sum [currentPageHeight] are rounded. *)

Module Binary64.

Module Worker.

Local Open Scope Q_scope.

Definition calculateElementHeight (element : element) : Q :=
  let baseHeight := 24 in
  let contentLength :=
    if JS.truthy (content element) then String.length (content element) else 0%nat in
  let linesNeeded := JS.Math_ceil (Double.div (JS.num contentLength) 60) in
  let multiplier :=
    if bool_decide (el_type element = "scene_heading") then Double.round 1.5
    else if bool_decide (el_type element = "character") then Double.round 1.2
    else 1 in
  Double.add (Double.mul (Double.mul baseHeight (inject_Z linesNeeded)) multiplier) 12.

Fixpoint loop (pageHeight : Q) (rest : list element)
    (processedPages : list workerPage) (currentPage : list element)
    (currentPageHeight : Q) (pageIndex : nat) : list workerPage :=
  match rest with
  | [] =>
      if (0 <? length currentPage)%nat
      then processedPages ++ [{| pageIndex := pageIndex; elements := currentPage |}]
      else processedPages
  | element :: rest =>
      let elementHeight := calculateElementHeight element in
      if JS.gt (Double.add currentPageHeight elementHeight) pageHeight
         && (0 <? length currentPage)%nat
      then loop pageHeight rest
             (processedPages ++ [{| pageIndex := pageIndex; elements := currentPage |}])
             [element] (Double.add 0 elementHeight) (S pageIndex)
      else loop pageHeight rest processedPages
             (currentPage ++ [element]) (Double.add currentPageHeight elementHeight) pageIndex
  end.

Definition onmessage (e : workerRequest) : workerReply :=
  let pageIndex := (req_startIndex e / 15)%nat in
  ReplySuccess (loop (req_pageHeight e) (req_elements e) [] [] 0 pageIndex)
               (req_startIndex e) (req_chunkSize e).

End Worker.

Module Editor.

Local Open Scope Q_scope.

Definition calculateElementHeight (node : pmnode) : Q :=
  let baseHeight := 24 in
  let contentLength := String.length (textContent node) in
  let linesNeeded := JS.Math_ceil (Double.div (JS.num contentLength) 60) in
  let multiplier :=
    if bool_decide (type (node_attrs node) = "scene_heading") then Double.round 1.5
    else if bool_decide (type (node_attrs node) = "character") then Double.round 1.2
    else 1 in
  Double.add (Double.mul (Double.mul baseHeight (inject_Z linesNeeded)) multiplier) 12.

Fixpoint fallbackLoop (rest : document) (newPages : list (list pageItem))
    (currentPage : list pageItem) (currentPageHeight : Q) : list (list pageItem) :=
  match rest with
  | [] =>
      if (0 <? length currentPage)%nat then newPages ++ [currentPage] else newPages
  | (node, pos) :: rest =>
      if bool_decide (type_name node = Some "screenplay_element") then
        let elementHeight := calculateElementHeight node in
        if JS.gt (Double.add currentPageHeight elementHeight) PAGE_HEIGHT
           && (0 <? length currentPage)%nat
        then fallbackLoop rest (newPages ++ [currentPage])
               [{| node := node; pos := pos |}] (Double.add 0 elementHeight)
        else fallbackLoop rest newPages
               (currentPage ++ [{| node := node; pos := pos |}])
               (Double.add currentPageHeight elementHeight)
      else fallbackLoop rest newPages currentPage currentPageHeight
  end.

Definition fallbackUpdatePages (view : option document)
    (pages : list (list pageItem)) : list (list pageItem) :=
  match view with
  | None => pages
  | Some doc => fallbackLoop doc [] [] 0
  end.

End Editor.

End Binary64.

(** ** The socket relay ([pages/api/socket.js]) *)

Module Relay.

(** A [userInfo] or awareness object: string-valued properties. *)
Abbreviation jsobject := (gmap string string).

(** The two properties the handlers store on a socket; [None] is
    [undefined]. *)
Record socketProps := {
  sock_documentId : option string;
  sock_userId : option string
}.

(** An entry of the [current-users] reply. *)
Record currentUser := {
  cu_socketId : string;
  cu_userId : option string;
  cu_userInfo : option jsobject
}.

(** The events the relay emits. *)
Inductive serverEvent :=
| user_joined (socketId userId : string) (userInfo : jsobject)
| current_users (users : list currentUser)
| yjs_update (update : list N)
| awareness_update (socketId : string) (awareness : jsobject)
| user_left (socketId : string) (userId : option string).

(** One [emit]: the sockets it is delivered to and the event. *)
Record emission := { recipients : gset string; event : serverEvent }.

(** The state of the relay process: the two maps of the handler, the
    connected sockets with their properties, the rooms of the socket.io
    adapter, and everything emitted so far (oldest first).  A JavaScript
    [Set] iterates in insertion order: a room of [documentRooms] is a
    duplicate-free list. *)
Record relay := {
  documentRooms : gmap string (list string);
  userAwareness : gmap string jsobject;
  sockets : gmap string socketProps;
  adapter : gmap string (gset string);
  outbox : list emission
}.

Definition initial : relay :=
  {| documentRooms := ∅; userAwareness := ∅; sockets := ∅;
     adapter := ∅; outbox := [] |}.

(** [Set.prototype.add] and [Set.prototype.delete]. *)
Definition Set_add (x : string) (s : list string) : list string :=
  if bool_decide (x ∈ s) then s else s ++ [x].
Definition Set_delete (x : string) (s : list string) : list string :=
  filter (λ y, y ≠ x) s.

(** The members of an adapter room. *)
Definition members (σ : relay) (room : string) : gset string :=
  default ∅ (adapter σ !! room).

(** [socket.join(room)]. *)
Definition socket_join (socket room : string) (σ : relay) : relay :=
  {| documentRooms := documentRooms σ; userAwareness := userAwareness σ;
     sockets := sockets σ;
     adapter := <[room := {[socket]} ∪ members σ room]> (adapter σ);
     outbox := outbox σ |}.

(** [socket.to(room).emit(event)]: to the room, except the sender. *)
Definition socket_to_emit (socket room : string) (ev : serverEvent) (σ : relay) : relay :=
  {| documentRooms := documentRooms σ; userAwareness := userAwareness σ;
     sockets := sockets σ; adapter := adapter σ;
     outbox := outbox σ ++ [{| recipients := members σ room ∖ {[socket]}; event := ev |}] |}.

(** [socket.emit(event)]: to the socket itself. *)
Definition socket_emit (socket : string) (ev : serverEvent) (σ : relay) : relay :=
  {| documentRooms := documentRooms σ; userAwareness := userAwareness σ;
     sockets := sockets σ; adapter := adapter σ;
     outbox := outbox σ ++ [{| recipients := {[socket]}; event := ev |}] |}.

(** The [join-document] handler of [socket]. *)
Definition on_join_document (socket documentId userId : string) (userInfo : jsobject)
    (σ : relay) : relay :=
  let σ := socket_join socket documentId σ in
  let props := {| sock_documentId := Some documentId; sock_userId := Some userId |} in
  let room := Set_add socket (default [] (documentRooms σ !! documentId)) in
  let documentRooms' := <[documentId := room]> (documentRooms σ) in
  let userAwareness' := <[socket := userInfo ∪ {["userId" := userId]}]> (userAwareness σ) in
  let σ := {| documentRooms := documentRooms'; userAwareness := userAwareness';
              sockets := <[socket := props]> (sockets σ);
              adapter := adapter σ; outbox := outbox σ |} in
  let σ := socket_to_emit socket documentId (user_joined socket userId userInfo) σ in
  let currentUsers :=
    filter (λ user, JS.truthy_opt (cu_userId user) = true)
      (map (λ id, {| cu_socketId := id;
                     cu_userId := userAwareness' !! id ≫= (λ a, a !! "userId");
                     cu_userInfo := userAwareness' !! id |})
           (filter (λ id, id ≠ socket) room)) in
  socket_emit socket (current_users currentUsers) σ.

(** The [yjs-update] handler. *)
Definition on_yjs_update (socket documentId : string) (update : list N)
    (σ : relay) : relay :=
  socket_to_emit socket documentId (yjs_update update) σ.

(** The [awareness-update] handler. *)
Definition on_awareness_update (socket documentId : string) (awareness : jsobject)
    (σ : relay) : relay :=
  socket_to_emit socket documentId (awareness_update socket awareness) σ.

(** The [disconnect] handler.  socket.io has taken the socket out of
    every adapter room before it runs. *)
Definition on_disconnect (socket : string) (props : socketProps) (σ : relay) : relay :=
  let σ := {| documentRooms := documentRooms σ; userAwareness := userAwareness σ;
              sockets := sockets σ;
              adapter := (λ s, s ∖ {[socket]}) <$> adapter σ;
              outbox := outbox σ |} in
  let σ :=
    if JS.truthy_opt (sock_documentId props) then
      let documentId := default "" (sock_documentId props) in
      let documentRooms' :=
        match documentRooms σ !! documentId with
        | Some room =>
            let room := Set_delete socket room in
            if (length room =? 0)%nat then delete documentId (documentRooms σ)
            else <[documentId := room]> (documentRooms σ)
        | None => documentRooms σ
        end in
      let σ := {| documentRooms := documentRooms'; userAwareness := userAwareness σ;
                  sockets := sockets σ; adapter := adapter σ; outbox := outbox σ |} in
      socket_to_emit socket documentId (user_left socket (sock_userId props)) σ
    else σ in
  {| documentRooms := documentRooms σ;
     userAwareness := delete socket (userAwareness σ);
     sockets := delete socket (sockets σ);
     adapter := adapter σ; outbox := outbox σ |}.

(** What reaches the relay: a new connection, one of the three client
    messages of a socket, or the disconnect of a socket. *)
Inductive clientEvent :=
| connection (socket : string)
| join_document (socket documentId userId : string) (userInfo : jsobject)
| yjs_update_msg (socket documentId : string) (update : list N)
| awareness_update_msg (socket documentId : string) (awareness : jsobject)
| disconnect (socket : string).

(** [io.on('connection', ...)] and the dispatch to the handlers.  Socket
    ids are unique, only a connected socket delivers messages, and
    socket.io puts every new socket into the room named by its own id. *)
Definition handle (ev : clientEvent) (σ : relay) : relay :=
  match ev with
  | connection socket =>
      match sockets σ !! socket with
      | Some _ => σ
      | None =>
          let σ := socket_join socket socket σ in
          {| documentRooms := documentRooms σ; userAwareness := userAwareness σ;
             sockets := <[socket := {| sock_documentId := None; sock_userId := None |}]>
                          (sockets σ);
             adapter := adapter σ; outbox := outbox σ |}
      end
  | join_document socket documentId userId userInfo =>
      match sockets σ !! socket with
      | Some _ => on_join_document socket documentId userId userInfo σ
      | None => σ
      end
  | yjs_update_msg socket documentId update =>
      match sockets σ !! socket with
      | Some _ => on_yjs_update socket documentId update σ
      | None => σ
      end
  | awareness_update_msg socket documentId awareness =>
      match sockets σ !! socket with
      | Some _ => on_awareness_update socket documentId awareness σ
      | None => σ
      end
  | disconnect socket =>
      match sockets σ !! socket with
      | Some props => on_disconnect socket props σ
      | None => σ
      end
  end.

(** The relay after a sequence of events, handled one at a time. *)
Definition run (evs : list clientEvent) (σ : relay) : relay :=
  fold_left (λ σ ev, handle ev σ) evs σ.

(** A connected session is joined to a document when the last
    [join-document] it sent named that document. *)
Definition joined (σ : relay) (socket documentId : string) : Prop :=
  ∃ props, sockets σ !! socket = Some props
           ∧ sock_documentId props = Some documentId.

(** The use of the relay the room invariant needs: every document
    identifier is non-empty, and a session that has joined a document
    joins no other one. *)
Fixpoint disciplined (evs : list clientEvent) (σ : relay) : Prop :=
  match evs with
  | [] => True
  | ev :: evs =>
      match ev with
      | join_document socket documentId _ _ =>
          documentId ≠ ""
          ∧ (∀ props, sockets σ !! socket = Some props →
               sock_documentId props = None
               ∨ sock_documentId props = Some documentId)
      | _ => True
      end
      ∧ disciplined evs (handle ev σ)
  end.

(** The room invariant: a room of [documentRooms] is non-empty and holds
    exactly the sessions joined to its document, and no session is joined
    to the empty identifier. *)
Record room_invariant (σ : relay) : Prop := {
  inv_nonempty : ∀ d room, documentRooms σ !! d = Some room → room ≠ [];
  inv_member : ∀ d room s,
    documentRooms σ !! d = Some room → s ∈ room → joined σ s d;
  inv_joined : ∀ s d,
    joined σ s d → d ≠ "" ∧ ∃ room, documentRooms σ !! d = Some room ∧ s ∈ room
}.

End Relay.

(** ** The sync client's outbound throttle ([lib/ySocketProvider.js]) *)

Module SyncClient.

(** A pending [setTimeout]: when it is due (ms) and the [update] its
    callback closes over. *)
Record timer := { due : nat; captured : list N }.

(** The provider as [setupYjsListeners] sees it: [this.connected] (the
    socket itself exists from the constructor on), the variable
    [updateTimeout], the clock, and the payloads of the [yjs-update]
    messages emitted so far (oldest first). *)
Record provider := {
  connected : bool;
  updateTimeout : option timer;
  clock : nat;
  emitted : list (list N)
}.

(** The provider after its constructor: not connected, no timer. *)
Definition initial : provider :=
  {| connected := false; updateTimeout := None; clock := 0; emitted := [] |}.

(** The socket's [connect] and [disconnect] listeners. *)
Definition on_connect (p : provider) : provider :=
  {| connected := true; updateTimeout := updateTimeout p;
     clock := clock p; emitted := emitted p |}.
Definition on_disconnect (p : provider) : provider :=
  {| connected := false; updateTimeout := updateTimeout p;
     clock := clock p; emitted := emitted p |}.

(** The callback given to [setTimeout]. *)
Definition timer_callback (update : list N) (p : provider) : provider :=
  {| connected := connected p;
     updateTimeout := None;
     clock := clock p;
     emitted := if connected p then emitted p ++ [update] else emitted p |}.

(** Time passes until [t]: a timer that is due by then fires. *)
Definition advance (t : nat) (p : provider) : provider :=
  let p := match updateTimeout p with
           | Some tm => if (due tm <=? t)%nat then timer_callback (captured tm) p else p
           | None => p
           end in
  {| connected := connected p; updateTimeout := updateTimeout p;
     clock := clock p `max` t; emitted := emitted p |}.

(** The [ydoc.on('update', ...)] listener. *)
Definition on_update (update : list N) (p : provider) : provider :=
  match updateTimeout p with
  | Some _ => p
  | None =>
      {| connected := connected p;
         updateTimeout := Some {| due := clock p + 200; captured := update |};
         clock := clock p;
         emitted := emitted p |}
  end.

(** Local deltas, each with the time at which the replica reports it. *)
Definition deltas (evs : list (nat * list N)) (p : provider) : provider :=
  fold_left (λ p '(t, update), on_update update (advance t p)) evs p.

End SyncClient.

(** ** Auxiliary definitions for the statements *)

(** The greedy packing both pagination loops perform, over any kind of
    item: the pages that come out of a run that starts with the page
    [currentPage] under construction. *)
Section Greedy.

Context {A : Type} (height : A → Q) (budget : Q).

Fixpoint greedy (currentPage : list A) (currentPageHeight : Q) (rest : list A)
    : list (list A) :=
  match rest with
  | [] => if (0 <? length currentPage)%nat then [currentPage] else []
  | x :: rest =>
      if JS.gt (currentPageHeight + height x) budget && (0 <? length currentPage)%nat
      then currentPage :: greedy [x] (0 + height x) rest
      else greedy (currentPage ++ [x]) (currentPageHeight + height x) rest
  end.

End Greedy.

(** The page items [fallbackUpdatePages] builds from a document. *)
Definition pageItems (doc : document) : list pageItem :=
  omap (λ '(node, pos),
          if bool_decide (type_name node = Some "screenplay_element")
          then Some {| node := node; pos := pos |} else None) doc.

(** The element [updatePages] extracts from a node, and the plain object
    it puts on a page for an element. *)
Definition toElement (item : pageItem) : element :=
  {| el_type := type (node_attrs (node item));
     content := textContent (node item);
     el_dual := dual (node_attrs (node item));
     el_pos := pos item |}.

Definition plainItem (element : element) : pageItem :=
  {| node := {| type_name := None;
                node_attrs := {| type := el_type element; dual := el_dual element |};
                textContent := content element |};
     pos := el_pos element |}.

(** The multiplier of the layout heuristic as the specification words it. *)
Definition multiplier_spec (ty : string) : Q :=
  if bool_decide (ty = "scene_heading") then 3 # 2
  else if bool_decide (ty = "character") then 6 # 5
  else 1%Q.

(** Sample documents: action blocks of a given text length. *)
Definition text_of_length (n : nat) : string :=
  String.string_of_list_ascii (replicate n "A"%char).

Definition action (n : nat) (pos : nat) : pmnode * nat :=
  ({| type_name := Some "screenplay_element";
      node_attrs := {| type := "action"; dual := false |};
      textContent := text_of_length n |}, pos).

(** Three action blocks of 1400 characters (588 px each: no two fit on a
    page), at positions 1, 2, 3. *)
Definition three_long_actions : document :=
  [action 1400 1; action 1400 2; action 1400 3].

(** Nine such blocks, at positions 1 to 9. *)
Definition nine_long_actions : document :=
  map (action 1400) (seq 1 9).


(** A session of the relay: two peers on one document. *)
Definition sample_session : list Relay.clientEvent :=
  [Relay.connection "a"; Relay.connection "b";
   Relay.join_document "a" "doc1" "alice" ∅;
   Relay.join_document "b" "doc1" "bob" ∅;
   Relay.yjs_update_msg "a" "doc1" [7%N];
   Relay.disconnect "a"].

(** Five deltas within 200 ms. *)
Definition five_rapid_deltas : list (nat * list N) :=
  [(1000, [1%N]); (1010, [2%N]); (1050, [3%N]); (1120, [4%N]); (1199, [5%N])].

(** ** Further definitions: pages *)

(** The height of a page: the heights of its items, added up. *)
Definition page_height {A} (height : A → Q) (page : list A) : Q :=
  foldr (λ x acc, (height x + acc)%Q) 0%Q page.

(** A page as the pagination is meant to build it: not empty, and within
    the budget unless it holds a single item. *)
Definition page_ok {A} (height : A → Q) (budget : Q) (page : list A) : Prop :=
  page ≠ [] ∧ (length page = 1 ∨ (page_height height page <= budget)%Q).

(** The height the editor computes for a page item. *)
Definition itemHeight (item : pageItem) : Q :=
  Editor.calculateElementHeight (node item).

(** The chunks [updatePages] cuts for a pool of [n] workers: chunk [i] is
    [slice(i * chunkSize, min(i * chunkSize + chunkSize, length))], and an
    empty chunk is skipped. *)
Definition chunks {A} (chunkSize n : nat) (l : list A) : list (list A) :=
  filter (λ chunk, chunk ≠ [])
    (map (λ i, JS.slice (i * chunkSize) ((i * chunkSize + chunkSize) `min` length l) l)
         (seq 0 n)).

(** The chunk size [updatePages] computes. *)
Definition chunkSizeOf (elements workers : nat) : nat :=
  Z.to_nat (JS.Math_ceil (JS.num elements / JS.num workers)).

(** A document of two short action blocks, and one without any
    screenplay element. *)
Definition two_short_actions : document := [action 10 1; action 10 12].

Definition title_page : document :=
  [({| type_name := Some "title_page";
       node_attrs := {| type := ""; dual := false |};
       textContent := "UNTITLED" |}, 0)].

(** The page a responsive worker reports for chunk [j] of a document that
    fits on one page. *)
Definition chunkPage (allElements : list element) (c j : nat) : option workerPage :=
  let chunk := take c (drop (j * c) allElements) in
  if (length chunk =? 0)%nat then None
  else Some {| pageIndex := j * c / 15; elements := chunk |}.

(** ** Further definitions: the relay *)

(** The socket an event comes from. *)
Definition sender (ev : Relay.clientEvent) : string :=
  match ev with
  | Relay.connection socket
  | Relay.join_document socket _ _ _
  | Relay.yjs_update_msg socket _ _
  | Relay.awareness_update_msg socket _ _
  | Relay.disconnect socket => socket
  end.

(** The emissions an event adds to the outbox. *)
Definition emitted_by (ev : Relay.clientEvent) (σ : Relay.relay) : list Relay.emission :=
  drop (length (Relay.outbox σ)) (Relay.outbox (Relay.handle ev σ)).

(** The properties every reachable state of the relay has, however the
    clients behave: adapter rooms hold connected sockets only; a session
    joined to a document is in the adapter room of that name; the
    presence table has an entry exactly for the connected sessions that
    have joined; a room holds no session twice. *)
Record relay_invariant (σ : Relay.relay) : Prop := {
  inv_adapter : ∀ room s, s ∈ Relay.members σ room → is_Some (Relay.sockets σ !! s);
  inv_delivery : ∀ s d, Relay.joined σ s d → s ∈ Relay.members σ d;
  inv_presence : ∀ s,
    is_Some (Relay.userAwareness σ !! s)
    ↔ ∃ props, Relay.sockets σ !! s = Some props
               ∧ is_Some (Relay.sock_documentId props);
  inv_nodup : ∀ d room, Relay.documentRooms σ !! d = Some room → NoDup room
}.

(** ** The rest of the sync client ([lib/ySocketProvider.js]) *)

Module Provider.

(** [ToInt32]: the signed 32-bit integer a bitwise operator reads its
    operand as, and [a << n]. *)
Definition ToInt32 (z : Z) : Z := ((z + 2 ^ 31) `mod` 2 ^ 32 - 2 ^ 31)%Z.
Definition shl (a n : Z) : Z := ToInt32 (Z.shiftl (ToInt32 a) n).

(** [userId.charCodeAt(i)] for [i] from 0 on. *)
Definition charCodes (s : string) : list Z :=
  map (λ c, Z.of_nat (nat_of_ascii c)) (list_ascii_of_string s).

Definition colors : list string :=
  ["#FF6B6B"; "#4ECDC4"; "#45B7D1"; "#96CEB4"; "#FFEAA7";
   "#DDA0DD"; "#98D8C8"; "#AED6F1"; "#F7DC6F"; "#BB8FCE"].

(** The hash loop of [generateUserColor].  Only the shift wraps to 32
    bits; the subtraction and the addition are on numbers. *)
Definition hashOf (userId : string) : Z :=
  fold_left (λ hash code, (code + (shl hash 5 - hash))%Z) (charCodes userId) 0%Z.

(** [generateUserColor(userId)]; [None] is [undefined]. *)
Definition generateUserColor (userId : string) : option string :=
  colors !! Z.to_nat (Z.abs (hashOf userId) `mod` Z.of_nat (length colors)).

(** The payload of a [join-document] message. *)
Record joinPayload := {
  jp_documentId : string;
  jp_userId : string;
  jp_userInfo : Relay.jsobject
}.

(** [joinDocument(userId, userInfo)] of a provider for [documentId]: the
    message it emits, if any.  A property whose value is [undefined] is
    not sent. *)
Definition joinDocument (p : SyncClient.provider) (documentId userId : string)
    (userInfo : Relay.jsobject) : option joinPayload :=
  if SyncClient.connected p then
    Some {| jp_documentId := documentId;
            jp_userId := userId;
            jp_userInfo :=
              userInfo ∪ <["name" := userId]>
                           (match generateUserColor userId with
                            | Some color => {["color" := color]}
                            | None => ∅
                            end) |}
  else None.

(** [updateAwareness(awareness)]: the [awareness-update] payload it
    emits, if any. *)
Definition updateAwareness (p : SyncClient.provider) (documentId : string)
    (awareness : Relay.jsobject) : option (string * Relay.jsobject) :=
  if SyncClient.connected p then Some (documentId, awareness) else None.

(** What is still to be sent: the delta the pending timer holds. *)
Definition pending (p : SyncClient.provider) : list (list N) :=
  match SyncClient.updateTimeout p with
  | Some tm => [SyncClient.captured tm]
  | None => []
  end.

End Provider.

(** ** The page update of the editor view (the [dispatchTransaction] of
    the editor component) *)

Module PageUpdate.

(** The timer variable of the editor effect: the due time of the timer
    that is still to fire (clearing a timer that has fired does nothing),
    the clock, and the times at which [updatePages(view)] was called. *)
Record scheduler := {
  updateTimeout : option nat;
  clock : nat;
  runs : list nat
}.

(** Time passes until [t]: a timer that is due by then calls
    [updatePages]. *)
Definition advance (t : nat) (s : scheduler) : scheduler :=
  match updateTimeout s with
  | Some due =>
      if (due <=? t)%nat
      then {| updateTimeout := None; clock := clock s `max` t; runs := runs s ++ [due] |}
      else {| updateTimeout := Some due; clock := clock s `max` t; runs := runs s |}
  | None => {| updateTimeout := None; clock := clock s `max` t; runs := runs s |}
  end.

(** [dispatchTransaction] on a ready view: the pending timer is cleared
    and a new one is set, 150 ms from now. *)
Definition dispatchTransaction (s : scheduler) : scheduler :=
  {| updateTimeout := Some (clock s + 150); clock := clock s; runs := runs s |}.

(** Transactions, each at its time. *)
Definition transactions (ts : list nat) (s : scheduler) : scheduler :=
  fold_left (λ s t, dispatchTransaction (advance t s)) ts s.

End PageUpdate.

(** ** The document worker of the editor component *)

Module DocumentWorker.

(** An element as [getDocumentElements] builds it: [{ type, content, dual }]. *)
Record docElement := { de_type : string; de_content : string; de_dual : bool }.

(** A search result: [{ ...element, elementIndex }]. *)
Record searchResult := { sr_element : docElement; elementIndex : nat }.

(** [s.includes(sub)]. *)
Fixpoint includes (s sub : string) : bool :=
  String.prefix sub s
  || match s with
     | EmptyString => false
     | String _ s' => includes s' sub
     end.

Section Search.

(** [String.prototype.toLowerCase]. *)
Variable toLowerCase : string → string.

(** The test of the filter: [element.content && ...includes(...)]. *)
Definition matches (query : string) (element : docElement) : bool :=
  JS.truthy (de_content element)
  && includes (toLowerCase (de_content element)) (toLowerCase query).

Definition searchInElements (elements : list docElement) (query : string)
    : list searchResult :=
  imap (λ index element, {| sr_element := element; elementIndex := index |})
       (filter (λ element, matches query element = true) elements).

End Search.

End DocumentWorker.

(** A burst of transactions after one at time [t]: each comes later than
    the one before it, by less than 150 ms. *)
Fixpoint burst (t : nat) (ts : list nat) : Prop :=
  match ts with
  | [] => True
  | t' :: ts => t ≤ t' < t + 150 ∧ burst t' ts
  end.

(** A lower-casing of the letters A to Z, for sample searches. *)
Definition lower_ascii (s : string) : string :=
  string_of_list_ascii
    (map (λ c, let n := nat_of_ascii c in
               if (65 <=? n) && (n <=? 90) then ascii_of_nat (n + 32) else c)
         (list_ascii_of_string s)).

(** A sample for the search: the second element does not mention Mary. *)
Definition sample_script : list DocumentWorker.docElement :=
  [{| DocumentWorker.de_type := "action"; DocumentWorker.de_content := "A door opens.";
      DocumentWorker.de_dual := false |};
   {| DocumentWorker.de_type := "character"; DocumentWorker.de_content := "JOHN";
      DocumentWorker.de_dual := false |};
   {| DocumentWorker.de_type := "dialogue"; DocumentWorker.de_content := "Hello, Mary here.";
      DocumentWorker.de_dual := false |}].

(** ** Further definitions: double precision *)

(** The value of [currentPageHeight] once the elements of a page have
    been added to it, in the order and the arithmetic of the worker's
    loop. *)
Definition accumulated_height (page : list element) : Q :=
  foldl (λ currentPageHeight element,
           Double.add currentPageHeight (Binary64.Worker.calculateElementHeight element))
        0%Q page.

(** The pages of the worker's loop in double precision, without their
    indices. *)
Fixpoint greedy64 (budget : Q) (currentPage : list element) (currentPageHeight : Q)
    (rest : list element) : list (list element) :=
  match rest with
  | [] => if (0 <? length currentPage)%nat then [currentPage] else []
  | x :: rest =>
      let elementHeight := Binary64.Worker.calculateElementHeight x in
      if JS.gt (Double.add currentPageHeight elementHeight) budget
         && (0 <? length currentPage)%nat
      then currentPage :: greedy64 budget [x] (Double.add 0 elementHeight) rest
      else greedy64 budget (currentPage ++ [x])
             (Double.add currentPageHeight elementHeight) rest
  end.

(** An exact height and the double computed for it: the exact height is
    a multiple of 2.4 and at least 12, and the double is within the
    relative error [2^-51] of it. *)
Definition height_pair (exact double : Q) : Prop :=
  ∃ k : Z, (5 ≤ k)%Z ∧ (exact == (12 # 5) * inject_Z k)%Q
           ∧ (Qabs (double - exact) <= exact * (1 # 2251799813685248))%Q.

(** How the exact and the double running height of a page of [j]
    elements are related when the budget is [PAGE_HEIGHT]: no element
    yet; a page within the budget, where the double is within
    [j * 2^-40] of the exact sum; or a page over the budget in both. *)
Definition heights_agree (j : nat) (exact double : Q) : Prop :=
  (j = 0%nat ∧ (exact == 0)%Q ∧ (double == 0)%Q)
  ∨ ((0 < j)%nat ∧ (∃ K : Z, (exact == (12 # 5) * inject_Z K)%Q)
     ∧ (exact <= 1122)%Q ∧ (12 * inject_Z (Z.of_nat j) <= exact)%Q
     ∧ (Qabs (double - exact) <= inject_Z (Z.of_nat j) * (1 # 1099511627776))%Q)
  ∨ ((0 < j)%nat ∧ (1122 < exact)%Q ∧ (1122 < double)%Q).

(** Character cues of a given text length.  One of three lines has the
    exact height 98.4, which is not a double. *)
Definition character (n : nat) (pos : nat) : element :=
  {| el_type := "character"; content := text_of_length n; el_dual := false; el_pos := pos |}.

Definition sample_character : element := character 180 5.

Definition sample_heading_node : pmnode :=
  {| type_name := Some "screenplay_element";
     node_attrs := {| type := "scene_heading"; dual := false |};
     textContent := "INT. HOUSE" |}.

(** Five cues of 1, 5, 1, 2 and 1 lines.  Their exact heights add up to
    348; added up in double precision the first four and the fifth come
    to a little more. *)
Definition five_cues : list element :=
  [character 10 1; character 290 2; character 10 3; character 100 4; character 10 5].

(** The value of a finite number of the Standard Library's specification
    of IEEE 754 arithmetic, and the double that holds an integer. *)
Definition SF2Q (f : spec_float) : Q :=
  match f with
  | S754_finite s m e => ((if s then -1 else 1) * inject_Z (Z.pos m) * 2 ^ e)%Q
  | _ => 0%Q
  end.

Definition Z2SF (z : Z) : spec_float := binary_normalize 53 1024 z 0 false.

(** The operations of the layout heuristic on a content length [n] and on
    [n] lines, computed by [Double] and by the Standard Library. *)
Definition same_as_SpecFloat (n : nat) : bool :=
  let z := Z.of_nat n in
  let by_SpecFloat (multiplier : spec_float) :=
    SFadd 53 1024 (SFmul 53 1024 (SFmul 53 1024 (Z2SF 24) (Z2SF z)) multiplier) (Z2SF 12) in
  let by_Double (multiplier : Q) :=
    Double.add (Double.mul (Double.mul 24 (inject_Z z)) multiplier) 12 in
  Qeq_bool (SF2Q (SFdiv 53 1024 (Z2SF z) (Z2SF 60))) (Double.div (inject_Z z) 60)
  && Qeq_bool (SF2Q (by_SpecFloat (S754_finite false 6755399441055744 (-52))))
       (by_Double (Double.round 1.5))
  && Qeq_bool (SF2Q (by_SpecFloat (S754_finite false 5404319552844595 (-52))))
       (by_Double (Double.round 1.2))
  && Qeq_bool (SF2Q (by_SpecFloat (Z2SF 1))) (by_Double 1%Q).

(** ** Facts about the JavaScript built-ins *)

Lemma gt_spec (a b : Q) : JS.gt a b = true ↔ (b < a)%Q.
Proof.
  unfold JS.gt. rewrite negb_true_iff.
  destruct (Qle_bool a b) eqn:E.
  - apply Qle_bool_iff in E. split; [discriminate | intros H; exfalso; lra].
  - split; [intros _ | done].
    apply Qnot_le_lt. intros H. apply Qle_bool_iff in H. congruence.
Qed.

Lemma gt_Qeq (a a' b : Q) : (a == a')%Q → JS.gt a b = JS.gt a' b.
Proof. intros H. unfold JS.gt. by rewrite H. Qed.

Lemma Math_ceil_nonneg (x : Q) : (0 <= x)%Q → (0 ≤ JS.Math_ceil x)%Z.
Proof.
  intros H. unfold JS.Math_ceil.
  pose proof (Qle_ceiling x) as Hc.
  assert (Hq : (inject_Z 0 <= inject_Z (Qceiling x))%Q) by (change (inject_Z 0) with 0%Q; lra).
  by rewrite Zle_Qle.
Qed.

Lemma num_nonneg (n : nat) : (0 <= JS.num n)%Q.
Proof.
  unfold JS.num. change 0%Q with (inject_Z 0). rewrite <- Zle_Qle. lia.
Qed.

(** [Math.ceil(n / 60)] is the least integer [k] with [n <= 60 k]. *)
Lemma Math_ceil_div60 (n : nat) :
  let k := JS.Math_ceil (JS.num n / 60) in
  (Z.of_nat n ≤ 60 * k ∧ 60 * (k - 1) < Z.of_nat n)%Z.
Proof.
  cbn zeta. unfold JS.Math_ceil, JS.num.
  set (x := (inject_Z (Z.of_nat n) / 60)%Q).
  pose proof (Qle_ceiling x) as Hle. pose proof (Qceiling_lt x) as Hlt.
  assert (Hx : (inject_Z (Z.of_nat n) == 60 * x)%Q) by (unfold x; field).
  split.
  - rewrite Zle_Qle, inject_Z_mult. change (inject_Z 60) with 60%Q. lra.
  - rewrite Zlt_Qlt, inject_Z_mult. change (inject_Z 60) with 60%Q.
    unfold Z.sub in *. rewrite inject_Z_plus in *. change (inject_Z (-1)) with (-1)%Q in *. lra.
Qed.

(** A list whose keys do not decrease is left as it is by the sort. *)
Lemma sort_insert_head {A} (key : A → nat) (x : A) (l : list A) :
  Forall (λ y, key x ≤ key y) l →
  JS.sort_insert (λ a b, (Z.of_nat (key a) - Z.of_nat (key b))%Z) x l = x :: l.
Proof.
  destruct l as [|y l]; [done|]. intros H. apply Forall_cons in H as [H _].
  simpl. destruct (Z.leb_spec (Z.of_nat (key x) - Z.of_nat (key y)) 0); [done | lia].
Qed.

Lemma sort_consecutive {A} (key : A → nat) (l : list A) (i : nat) :
  map key l = seq i (length l) →
  JS.sort (λ a b, (Z.of_nat (key a) - Z.of_nat (key b))%Z) l = l.
Proof.
  revert i. induction l as [|x l IH]; intros i Hk; [done|].
  simpl in Hk. injection Hk as Hx Hl.
  simpl. rewrite (IH (S i) Hl). apply sort_insert_head.
  apply Forall_forall. intros y Hy.
  assert (Hky : key y ∈ map key l) by (apply list_elem_of_fmap; eauto).
  rewrite Hl in Hky. apply elem_of_seq in Hky. lia.
Qed.

(** ** Facts about double precision *)

Section DoubleFacts.

Import Double.
Local Open Scope Q_scope.

Lemma pow2_pos (e : Z) : 0 < 2 ^ e.
Proof. apply Qpower_0_lt. reflexivity. Qed.

Lemma pow2_Z (n : Z) : (0 ≤ n)%Z → inject_Z (2 ^ n) == 2 ^ n.
Proof. intros Hn. by rewrite Zpower_Qpower. Qed.

Lemma pow2_minus (n m : Z) : 2 ^ (n - m) == 2 ^ n / 2 ^ m.
Proof. apply Qpower_minus. discriminate. Qed.

Lemma Qdiv_lt_div (a b c d : Q) : 0 < b → 0 < d → a * d < c * b → a / b < c / d.
Proof.
  intros Hb Hd H. apply Qlt_shift_div_l; [done|].
  assert (E : a / b * d == a * d / b) by (field; lra). rewrite E.
  by apply Qlt_shift_div_r.
Qed.

Lemma Qdiv_le_div (a b c d : Q) : 0 < b → 0 < d → a * d <= c * b → a / b <= c / d.
Proof.
  intros Hb Hd H. apply Qle_shift_div_l; [done|].
  assert (E : a / b * d == a * d / b) by (field; lra). rewrite E.
  by apply Qle_shift_div_r.
Qed.

Lemma magnitude_spec (x : Q) :
  ¬ x == 0 → 2 ^ magnitude x <= Qabs x ∧ Qabs x < 2 ^ (magnitude x + 1).
Proof.
  intros Hx. destruct x as [n d]. unfold magnitude. cbn [Qnum Qden].
  assert (Hn : (0 < Z.abs n)%Z).
  { destruct (Z.eq_dec n 0%Z) as [->|]; [exfalso; apply Hx; reflexivity | lia]. }
  set (a := Z.log2 (Z.abs n)). set (b := Z.log2 (Z.pos d)).
  assert (Ha0 : (0 ≤ a)%Z) by apply Z.log2_nonneg.
  assert (Hb0 : (0 ≤ b)%Z) by apply Z.log2_nonneg.
  destruct (Z.log2_spec (Z.abs n) Hn) as [Ha1 Ha2]. fold a in Ha1, Ha2.
  destruct (Z.log2_spec (Z.pos d)) as [Hb1 Hb2]; [lia|]. fold b in Hb1, Hb2.
  assert (Habs : Qabs (n # d) == inject_Z (Z.abs n) / inject_Z (Z.pos d)).
  { unfold Qabs. apply Qmake_Qdiv. }
  assert (Hd : 0 < inject_Z (Z.pos d)) by reflexivity.
  assert (HA : 0 < 2 ^ a) by apply pow2_pos.
  assert (HB : 0 < 2 ^ b) by apply pow2_pos.
  destruct (Qle_bool (2 ^ (a - b)) (Qabs (n # d))) eqn:Ht.
  - apply Qle_bool_iff in Ht. split; [done|].
    replace (a - b + 1)%Z with (Z.succ a - b)%Z by lia.
    rewrite pow2_minus, Habs.
    apply Qdiv_lt_div; [done..|].
    rewrite <- !pow2_Z by lia. rewrite <- !inject_Z_mult, <- Zlt_Qlt. nia.
  - assert (Hlt : Qabs (n # d) < 2 ^ (a - b)).
    { apply Qnot_le_lt. intros H. apply Qle_bool_iff in H. congruence. }
    split.
    + replace (a - b - 1)%Z with (a - Z.succ b)%Z by lia.
      rewrite pow2_minus, Habs.
      assert (HB' : 0 < 2 ^ Z.succ b) by apply pow2_pos.
      apply Qdiv_le_div; [done..|].
      rewrite <- !pow2_Z by lia. rewrite <- !inject_Z_mult, <- Zle_Qle. nia.
    + by replace (a - b - 1 + 1)%Z with (a - b)%Z by lia.
Qed.

Lemma roundHalfEven_bounds (y : Q) :
  let f := Qfloor y in
  inject_Z f <= y ∧ y < inject_Z f + 1
  ∧ (roundHalfEven y = f ∧ y - inject_Z f <= 1 # 2
     ∨ roundHalfEven y = (f + 1)%Z ∧ 1 # 2 <= y - inject_Z f).
Proof.
  cbn zeta. pose proof (Qfloor_le y) as H1. pose proof (Qlt_floor y) as H2.
  rewrite inject_Z_plus in H2. change (inject_Z 1) with 1 in H2.
  split; [done|]. split; [done|].
  unfold roundHalfEven.
  destruct (Qcompare_spec (y - inject_Z (Qfloor y)) (1 # 2)) as [E|E|E].
  - destruct (Z.even (Qfloor y)); [left | right]; split; try done; rewrite E; apply Qle_refl.
  - left. split; [done | lra].
  - right. split; [done | lra].
Qed.

Lemma roundHalfEven_error (y : Q) : Qabs (inject_Z (roundHalfEven y) - y) <= 1 # 2.
Proof.
  destruct (roundHalfEven_bounds y) as (H1 & H2 & [[-> H3]|[-> H3]]);
    apply Qabs_Qle_condition; rewrite ?inject_Z_plus; change (inject_Z 1) with 1; split; lra.
Qed.

Lemma roundHalfEven_Z (k : Z) : roundHalfEven (inject_Z k) = k.
Proof.
  unfold roundHalfEven. rewrite Qfloor_Z.
  destruct (Qcompare_spec (inject_Z k - inject_Z k) (1 # 2)) as [E|E|E]; [lra | done | lra].
Qed.

Lemma roundHalfEven_le (y : Q) (k : Z) : y <= inject_Z k → (roundHalfEven y ≤ k)%Z.
Proof.
  intros Hy. destruct (roundHalfEven_bounds y) as (H1 & H2 & [[-> H3]|[-> H3]]).
  - rewrite Zle_Qle. lra.
  - assert (H : inject_Z (Qfloor y) < inject_Z k) by lra.
    rewrite <- Zlt_Qlt in H. lia.
Qed.

Lemma roundHalfEven_ge (y : Q) (k : Z) : inject_Z k <= y → (k ≤ roundHalfEven y)%Z.
Proof.
  intros Hy. destruct (roundHalfEven_bounds y) as (H1 & H2 & H3).
  assert (H : inject_Z k < inject_Z (Qfloor y + 1)).
  { rewrite inject_Z_plus. change (inject_Z 1) with 1. lra. }
  rewrite <- Zlt_Qlt in H.
  destruct H3 as [[-> _]|[-> _]]; lia.
Qed.

#[global] Instance roundHalfEven_comp : Proper (Qeq ==> eq) roundHalfEven.
Proof.
  intros x y E. unfold roundHalfEven.
  rewrite (Qfloor_comp x y E).
  assert (Hc : Qcompare (x - inject_Z (Qfloor y)) (1 # 2)
               = Qcompare (y - inject_Z (Qfloor y)) (1 # 2)).
  { apply Qcompare_comp; [|reflexivity]. apply Qplus_comp; [done | reflexivity]. }
  by rewrite Hc.
Qed.

(** [round] unfolded. *)
Lemma round_spec (x : Q) :
  ¬ x == 0 →
  round x == inject_Z (roundHalfEven (x / 2 ^ (magnitude x - 52))) * 2 ^ (magnitude x - 52).
Proof.
  intros Hx. unfold round.
  destruct (Qeq_bool x 0) eqn:E; [apply Qeq_bool_iff in E; done|].
  apply Qred_correct.
Qed.

Lemma round_0 (x : Q) : x == 0 → round x = 0.
Proof. intros Hx. unfold round. apply Qeq_bool_iff in Hx. by rewrite Hx. Qed.

(** The rounding error is at most half a unit in the last place. *)
Lemma round_error (x : Q) : Qabs (round x - x) <= Qabs x * u.
Proof.
  destruct (Qeq_dec x 0) as [Hx|Hx].
  - rewrite (round_0 x Hx), Hx. discriminate.
  - rewrite (round_spec x Hx).
    destruct (magnitude_spec x Hx) as [Hm _].
    set (e := (magnitude x - 52)%Z) in *.
    pose proof (pow2_pos e) as He.
    pose proof (roundHalfEven_error (x / 2 ^ e)) as Hr.
    set (m := inject_Z (roundHalfEven (x / 2 ^ e))) in *.
    assert (E : m * 2 ^ e - x == (m - x / 2 ^ e) * 2 ^ e) by (field; lra).
    rewrite E, Qabs_Qmult, (Qabs_pos (2 ^ e)) by lra.
    assert (He' : 2 ^ e == 2 ^ magnitude x * (1 # 4503599627370496)).
    { unfold e. rewrite pow2_minus. field. }
    assert (Hle : 2 ^ e <= Qabs x * (1 # 4503599627370496)) by (rewrite He'; nra).
    pose proof (Qabs_nonneg (m - x / 2 ^ e)) as Hn. unfold u.
    nra.
Qed.

Lemma round_error_nonneg (x : Q) : 0 <= x → x - x * u <= round x ∧ round x <= x + x * u.
Proof.
  intros Hx. pose proof (round_error x) as H. rewrite (Qabs_pos x Hx) in H.
  apply Qabs_Qle_condition in H. split; lra.
Qed.

(** A number below [2^53] has a binary exponent of at most 52. *)
Lemma magnitude_small (x : Q) :
  ¬ x == 0 → Qabs x < 9007199254740992 → (magnitude x - 52 ≤ 0)%Z.
Proof.
  intros Hx Hlt. destruct (magnitude_spec x Hx) as [Hm _].
  assert (H : 2 ^ magnitude x < 2 ^ 53) by (change (2 ^ 53) with 9007199254740992; lra).
  apply Qpower_lt_compat_l_inv in H; [lia | reflexivity].
Qed.

(** Dividing by a power of two with an exponent that is not positive is
    multiplying by an integer. *)
Lemma div_pow2_nonpos (x : Q) (e : Z) :
  (e ≤ 0)%Z → x / 2 ^ e == x * inject_Z (2 ^ (- e)) ∧ inject_Z (2 ^ (- e)) * 2 ^ e == 1.
Proof.
  intros He. rewrite pow2_Z by lia. rewrite Qpower_opp.
  pose proof (pow2_pos e). split; field; lra.
Qed.

(** An integer below [2^53] is a double. *)
Lemma round_Z (k : Z) : (Z.abs k < 2 ^ 53)%Z → round (inject_Z k) == inject_Z k.
Proof.
  intros Hk. destruct (Qeq_dec (inject_Z k) 0) as [Hx|Hx].
  { by rewrite (round_0 _ Hx), Hx. }
  rewrite (round_spec _ Hx).
  assert (He : (magnitude (inject_Z k) - 52 ≤ 0)%Z).
  { apply magnitude_small; [done|]. change (Qabs (inject_Z k)) with (inject_Z (Z.abs k)).
    change 9007199254740992 with (inject_Z (2 ^ 53)). by rewrite <- Zlt_Qlt. }
  set (e := (magnitude (inject_Z k) - 52)%Z) in *.
  destruct (div_pow2_nonpos (inject_Z k) e He) as [E1 E2].
  rewrite E1, <- inject_Z_mult, roundHalfEven_Z, inject_Z_mult, <- Qmult_assoc, E2.
  ring.
Qed.

(** Rounding does not cross an integer below [2^53]. *)
Lemma round_le_Z (x : Q) (k : Z) :
  0 < x → x <= inject_Z k → (k < 2 ^ 53)%Z → round x <= inject_Z k.
Proof.
  intros H0 Hle Hk.
  assert (Hx : ¬ x == 0) by (intros E; rewrite E in H0; discriminate).
  rewrite (round_spec _ Hx).
  assert (He : (magnitude x - 52 ≤ 0)%Z).
  { apply magnitude_small; [done|]. rewrite Qabs_pos by lra.
    assert (inject_Z k < inject_Z (2 ^ 53)) by (by rewrite <- Zlt_Qlt).
    change (inject_Z (2 ^ 53)) with 9007199254740992 in *. lra. }
  set (e := (magnitude x - 52)%Z) in *.
  destruct (div_pow2_nonpos x e He) as [E1 _].
  destruct (div_pow2_nonpos (inject_Z k) e He) as [E3 E4].
  pose proof (pow2_pos e) as Hp.
  assert (Hr : (roundHalfEven (x / 2 ^ e) ≤ k * 2 ^ (- e))%Z).
  { apply roundHalfEven_le. rewrite E1, inject_Z_mult.
    assert (0 <= inject_Z (2 ^ (- e))).
    { rewrite pow2_Z by lia. apply Qlt_le_weak, pow2_pos. }
    nra. }
  rewrite Zle_Qle, inject_Z_mult in Hr.
  assert (Hk' : inject_Z k == inject_Z k * inject_Z (2 ^ (- e)) * 2 ^ e).
  { rewrite <- Qmult_assoc, E4. ring. }
  rewrite Hk'. nra.
Qed.

Lemma magnitude_unique (x : Q) (m : Z) :
  2 ^ m <= Qabs x → Qabs x < 2 ^ (m + 1) → magnitude x = m.
Proof.
  intros H1 H2.
  assert (Hx : ¬ x == 0).
  { intros E. rewrite E in H1. pose proof (pow2_pos m). change (Qabs 0) with 0 in H1. lra. }
  destruct (magnitude_spec x Hx) as [H3 H4].
  assert (Ha : 2 ^ m < 2 ^ (magnitude x + 1)) by lra.
  assert (Hb : 2 ^ magnitude x < 2 ^ (m + 1)) by lra.
  apply Qpower_lt_compat_l_inv in Ha; [|reflexivity].
  apply Qpower_lt_compat_l_inv in Hb; [|reflexivity]. lia.
Qed.

#[global] Instance Double_round_comp : Proper (Qeq ==> Qeq) round.
Proof.
  intros x y E. destruct (Qeq_dec x 0) as [Hx|Hx].
  - rewrite (round_0 x Hx), (round_0 y); [reflexivity | by rewrite <- E].
  - assert (Hy : ¬ y == 0) by (by rewrite <- E).
    assert (Hm : magnitude y = magnitude x).
    { destruct (magnitude_spec x Hx) as [H1 H2].
      apply magnitude_unique; by rewrite <- E. }
    rewrite (round_spec x Hx), (round_spec y Hy), Hm.
    assert (Hq : y / 2 ^ (magnitude x - 52) == x / 2 ^ (magnitude x - 52))
      by (apply Qdiv_comp; [by symmetry | reflexivity]).
    by rewrite (roundHalfEven_comp _ _ Hq).
Qed.

#[global] Instance Double_add_comp : Proper (Qeq ==> Qeq ==> Qeq) add.
Proof. intros a a' Ea b b' Eb. unfold add. by rewrite Ea, Eb. Qed.

#[global] Instance Double_mul_comp : Proper (Qeq ==> Qeq ==> Qeq) mul.
Proof. intros a a' Ea b b' Eb. unfold mul. by rewrite Ea, Eb. Qed.

End DoubleFacts.

(** [Double] against the specification of IEEE 754 arithmetic of the
    Standard Library, on the operations of the layout heuristic for the
    first 600 lengths and line counts. *)
Lemma Double_same_as_SpecFloat : forallb same_as_SpecFloat (seq 0 600) = true.
Proof. vm_compute. reflexivity. Qed.

(** ** Facts about the greedy packing *)

Section GreedyFacts.

Context {A : Type} (height : A → Q) (budget : Q).

Lemma greedy_Qeq (cur : list A) (h h' : Q) (l : list A) :
  (h == h')%Q → greedy height budget cur h l = greedy height budget cur h' l.
Proof.
  revert cur h h'. induction l as [|x l IH]; intros cur h h' Hh; [done|].
  simpl. rewrite (gt_Qeq (h + height x) (h' + height x)) by (by rewrite Hh).
  destruct (_ && _); [done|]. apply IH. by rewrite Hh.
Qed.

(** Every item lands on exactly one page, in order. *)
Lemma greedy_concat (cur : list A) (h : Q) (l : list A) :
  concat (greedy height budget cur h l) = cur ++ l.
Proof.
  revert cur h. induction l as [|x l IH]; intros cur h; simpl.
  - destruct cur; simpl; [done|]. by rewrite app_nil_r.
  - destruct (_ && _); simpl; rewrite IH; [done|]. by rewrite <- app_assoc.
Qed.

Hypothesis height_pos : ∀ x, (0 < height x)%Q.



End GreedyFacts.

(** Packing commutes with a change of representation that keeps heights. *)
Lemma greedy_map {A B} (f : A → B) (hA : A → Q) (hB : B → Q) (budget : Q)
    (cur : list A) (h : Q) (l : list A) :
  (∀ x, hB (f x) = hA x) →
  greedy hB budget (map f cur) h (map f l) = map (map f) (greedy hA budget cur h l).
Proof.
  intros Hf. revert cur h. induction l as [|x l IH]; intros cur h; simpl.
  - rewrite length_map. by destruct (0 <? length cur)%nat.
  - rewrite length_map, Hf. destruct (_ && _); simpl.
    + f_equal. apply (IH [x]).
    + rewrite <- IH. by rewrite map_app.
Qed.

(** ** Facts about the two pagination loops *)

Lemma worker_height_pos (e : element) : (0 < Worker.calculateElementHeight e)%Q.
Proof.
  unfold Worker.calculateElementHeight.
  set (n := if JS.truthy (content e) then _ else _).
  pose proof (Math_ceil_nonneg (JS.num n / 60)) as Hc.
  assert (Hn : (0 <= JS.num n / 60)%Q).
  { pose proof (num_nonneg n). apply Qle_shift_div_l; lra. }
  specialize (Hc Hn).
  assert (Hq : (0 <= inject_Z (JS.Math_ceil (JS.num n / 60)))%Q).
  { change 0%Q with (inject_Z 0). by rewrite <- Zle_Qle. }
  repeat case_bool_decide; nra.
Qed.

Lemma editor_height_pos (n : pmnode) : (0 < Editor.calculateElementHeight n)%Q.
Proof.
  unfold Editor.calculateElementHeight.
  set (len := String.length _).
  pose proof (Math_ceil_nonneg (JS.num len / 60)) as Hc.
  assert (Hn : (0 <= JS.num len / 60)%Q).
  { pose proof (num_nonneg len). apply Qle_shift_div_l; lra. }
  specialize (Hc Hn).
  assert (Hq : (0 <= inject_Z (JS.Math_ceil (JS.num len / 60)))%Q).
  { change 0%Q with (inject_Z 0). by rewrite <- Zle_Qle. }
  repeat case_bool_decide; nra.
Qed.

(** The worker reads the length of the content, also of an empty one. *)
Lemma worker_contentLength (s : string) :
  (if JS.truthy s then String.length s else 0%nat) = String.length s.
Proof. unfold JS.truthy. case_bool_decide; by subst. Qed.

Lemma worker_height_toElement (item : pageItem) :
  Worker.calculateElementHeight (toElement item)
  = Editor.calculateElementHeight (node item).
Proof.
  unfold Worker.calculateElementHeight, Editor.calculateElementHeight, toElement.
  simpl. by rewrite worker_contentLength.
Qed.

Lemma extractElements_pageItems (doc : document) :
  Editor.extractElements doc = map toElement (pageItems doc).
Proof.
  unfold Editor.extractElements, pageItems.
  induction doc as [|[n p] doc IH]; [done|]. csimpl.
  case_bool_decide; csimpl; by rewrite IH.
Qed.

Lemma worker_loop_elements (budget : Q) (l : list element) (acc : list workerPage)
    (cur : list element) (h : Q) (i : nat) :
  map elements (Worker.loop budget l acc cur h i)
  = map elements acc ++ greedy Worker.calculateElementHeight budget cur h l.
Proof.
  revert acc cur h i. induction l as [|x l IH]; intros acc cur h i; simpl.
  - destruct (0 <? length cur)%nat; [|by rewrite app_nil_r].
    by rewrite map_app.
  - destruct (_ && _); rewrite IH; [|done].
    by rewrite map_app, <- app_assoc.
Qed.

Lemma worker_loop_pageIndex (budget : Q) (l : list element) (acc : list workerPage)
    (cur : list element) (h : Q) (i : nat) :
  map pageIndex (Worker.loop budget l acc cur h i)
  = map pageIndex acc
    ++ seq i (length (greedy Worker.calculateElementHeight budget cur h l)).
Proof.
  revert acc cur h i. induction l as [|x l IH]; intros acc cur h i; simpl.
  - destruct (0 <? length cur)%nat; [|by rewrite app_nil_r].
    by rewrite map_app.
  - destruct (_ && _); rewrite IH; [|done].
    by rewrite map_app, <- app_assoc.
Qed.

Lemma fallbackLoop_greedy (doc : document) (acc : list (list pageItem))
    (cur : list pageItem) (h : Q) :
  Editor.fallbackLoop doc acc cur h
  = acc ++ greedy (λ item, Editor.calculateElementHeight (node item)) PAGE_HEIGHT
             cur h (pageItems doc).
Proof.
  revert acc cur h. induction doc as [|[n p] doc IH]; intros acc cur h.
  - simpl. destruct (0 <? length cur)%nat; [done | by rewrite app_nil_r].
  - unfold pageItems in *. csimpl. case_bool_decide; csimpl; [|apply IH].
    destruct (_ && _); rewrite IH; [|done].
    by rewrite <- app_assoc.
Qed.


Lemma plainItem_convertPage (page : workerPage) :
  Editor.convertPage page = map plainItem (elements page).
Proof. done. Qed.

Lemma fallbackUpdatePages_greedy (doc : document) (pages0 : list (list pageItem)) :
  Editor.fallbackUpdatePages (Some doc) pages0
  = greedy (λ item, Editor.calculateElementHeight (node item)) PAGE_HEIGHT
      [] 0 (pageItems doc).
Proof. unfold Editor.fallbackUpdatePages. by rewrite fallbackLoop_greedy. Qed.

(** The pages of a worker run are, after conversion, the pages of the
    fallback loop on the same document. *)
Lemma worker_pages_fallback (doc : document) (startIndex : nat)
    (pages0 : list (list pageItem)) :
  map Editor.convertPage
    (Worker.loop PAGE_HEIGHT (Editor.extractElements doc) [] [] 0 startIndex)
  = map (map (λ item, plainItem (toElement item)))
      (Editor.fallbackUpdatePages (Some doc) pages0).
Proof.
  rewrite fallbackUpdatePages_greedy.
  transitivity (map (map plainItem)
    (map elements (Worker.loop PAGE_HEIGHT (Editor.extractElements doc) [] [] 0 startIndex))).
  { rewrite map_map. apply map_ext. intros page. apply plainItem_convertPage. }
  rewrite worker_loop_elements, extractElements_pageItems. simpl.
  change (@nil element) with (map toElement []).
  rewrite (greedy_map toElement (λ item, Editor.calculateElementHeight (node item)))
    by apply worker_height_toElement.
  rewrite map_map. apply map_ext. intros page. by rewrite map_map.
Qed.

Lemma worker_loop_sorted (budget : Q) (l : list element) (i : nat) :
  let pages := Worker.loop budget l [] [] 0 i in
  map pageIndex pages = seq i (length pages).
Proof.
  cbn zeta. rewrite worker_loop_pageIndex. simpl. f_equal.
  rewrite <- (length_map elements), worker_loop_elements. done.
Qed.

Lemma chunkSize_one_worker (n : nat) :
  Z.to_nat (JS.Math_ceil (JS.num n / JS.num 1)) = n.
Proof.
  unfold JS.Math_ceil. rewrite (Qceiling_comp _ (JS.num n)).
  - unfold JS.num. rewrite Qceiling_Z. lia.
  - unfold JS.num. simpl. field.
Qed.

Lemma slice_all {A} (l : list A) : JS.slice 0 ((0 + length l) `min` length l) l = l.
Proof.
  unfold JS.slice. rewrite drop_0. apply take_ge. lia.
Qed.

(** No worker answers: nothing is combined. *)
Lemma dispatch_none_responsive (allElements : list element) (chunkSize i : nat)
    (workers : list worker) :
  Forall (λ w, w ≠ Responsive) workers →
  Editor.combine (Editor.dispatch allElements chunkSize i workers) = [].
Proof.
  intros H. revert i. induction H as [|w workers Hw _ IH]; intros i; [done|].
  simpl. destruct (length _ =? 0)%nat; [apply IH|].
  unfold Editor.combine in *. simpl. rewrite IH.
  by destruct w.
Qed.

(** No worker answers: [updatePages] sets the empty page list. *)
Lemma updatePages_none_responsive (workers : list worker) (doc : document)
    (pages0 : list (list pageItem)) :
  workers ≠ [] → Forall (λ w, w ≠ Responsive) workers →
  Editor.updatePages workers (Some doc) pages0 = [].
Proof.
  intros Hne Hall. unfold Editor.updatePages.
  destruct workers as [|w workers]; [done|].
  change (length (w :: workers) =? 0)%nat with false. cbv iota.
  destruct (length (Editor.extractElements doc) =? 0)%nat; [done|].
  unfold Editor.merge. by rewrite dispatch_none_responsive.
Qed.

(** ** Facts about the heights in double precision *)

Section HeightFacts.

Local Open Scope Q_scope.

(** The quotient [contentLength / 60] is rounded, but not across an
    integer: its ceiling is the ceiling of the exact quotient. *)
Lemma Math_ceil_double_div60 (n : nat) :
  (Z.of_nat n < 2 ^ 53)%Z →
  JS.Math_ceil (Double.div (JS.num n) 60) = JS.Math_ceil (JS.num n / 60).
Proof.
  intros Hn. unfold Double.div, JS.Math_ceil.
  destruct (Math_ceil_div60 n) as [H1 H2]. cbn zeta in H1, H2.
  unfold JS.Math_ceil in H1, H2.
  set (x := JS.num n / 60) in *. set (k := Qceiling x) in *.
  assert (Hx : inject_Z (Z.of_nat n) == 60 * x) by (unfold x, JS.num; field).
  destruct (Z.eq_dec (Z.of_nat n) 0%Z) as [E0|E0].
  { assert (E : x == 0) by (rewrite E0 in Hx; change (inject_Z 0) with 0 in Hx; lra).
    rewrite (round_0 x E). unfold k. by rewrite E. }
  assert (Hpos : 0 < x).
  { assert (inject_Z 0 < inject_Z (Z.of_nat n)) by (rewrite <- Zlt_Qlt; lia).
    change (inject_Z 0) with 0 in *. lra. }
  assert (Hxk : x <= inject_Z k) by apply Qle_ceiling.
  assert (Hk : (k < 2 ^ 53)%Z) by lia.
  pose proof (round_le_Z x k Hpos Hxk Hk) as Hup.
  destruct (round_error_nonneg x) as [Hlo _]; [lra|].
  assert (Hgap : (60 * k ≤ Z.of_nat n + 59)%Z) by lia.
  rewrite Zle_Qle, inject_Z_plus, inject_Z_mult in Hgap.
  change (inject_Z 60) with 60 in Hgap. change (inject_Z 59) with 59 in Hgap.
  assert (Hbig : inject_Z (Z.of_nat n) < inject_Z (2 ^ 53)) by (by rewrite <- Zlt_Qlt).
  change (inject_Z (2 ^ 53)) with 9007199254740992 in Hbig.
  assert (Hlow : inject_Z k - 1 < Double.round x) by (unfold Double.u in Hlo; lra).
  apply Z.le_antisymm.
  - rewrite <- (Qceiling_Z k). by apply Qceiling_resp_le.
  - pose proof (Qle_ceiling (Double.round x)) as Hc.
    assert (H : inject_Z k < inject_Z (Qceiling (Double.round x) + 1)).
    { rewrite inject_Z_plus. change (inject_Z 1) with 1. lra. }
    rewrite <- Zlt_Qlt in H. lia.
Qed.


Lemma round_Z_eq (x : Q) (k : Z) :
  x == inject_Z k → (Z.abs k < 2 ^ 53)%Z → Double.round x == inject_Z k.
Proof. intros E Hk. rewrite E. by apply round_Z. Qed.

(** The expression [baseHeight * linesNeeded * multiplier + 12] in double
    precision, against its exact value: the two are equal when the
    multiplier is 1 or 1.5, and differ by at most the relative error
    [2^-51] when it is 1.2. *)
Lemma double_height (n : nat) (ty : string) :
  (Z.of_nat n < 2 ^ 53)%Z →
  let lines := inject_Z (JS.Math_ceil (JS.num n / 60)) in
  let h :=
    Double.add
      (Double.mul (Double.mul 24 lines)
         (if bool_decide (ty = "scene_heading") then Double.round 1.5
          else if bool_decide (ty = "character") then Double.round 1.2
          else 1)) 12 in
  let exact := 24 * lines * multiplier_spec ty + 12 in
  h == Double.add (Double.mul (24 * lines) (Double.round (multiplier_spec ty))) 12
  ∧ (ty ≠ "character" → h == exact)
  ∧ Qabs (h - exact) <= exact * (1 # 2251799813685248).
Proof.
  intros Hn. cbn zeta.
  destruct (Math_ceil_div60 n) as [H1 H2]. cbn zeta in H1, H2.
  set (k := JS.Math_ceil (JS.num n / 60)) in *.
  assert (Hk0 : (0 ≤ k)%Z).
  { apply Math_ceil_nonneg. pose proof (num_nonneg n). apply Qle_shift_div_l; lra. }
  assert (HkQ : 0 <= inject_Z k) by (change 0 with (inject_Z 0); by rewrite <- Zle_Qle).
  assert (E1 : Double.mul 24 (inject_Z k) == inject_Z (24 * k)).
  { apply round_Z_eq; [by rewrite inject_Z_mult | lia]. }
  unfold multiplier_spec.
  case_bool_decide as Hs; [|case_bool_decide as Hc].
  - assert (E2 : Double.mul (Double.mul 24 (inject_Z k)) (Double.round 1.5) == inject_Z (36 * k)).
    { apply round_Z_eq; [|lia]. rewrite E1.
      change (Double.round 1.5) with (3 # 2). rewrite !inject_Z_mult.
      change (inject_Z 24) with 24. change (inject_Z 36) with 36. field. }
    assert (E3 : Double.add (Double.mul (Double.mul 24 (inject_Z k)) (Double.round 1.5)) 12
                 == 24 * inject_Z k * (3 # 2) + 12).
    { transitivity (inject_Z (36 * k + 12)).
      - apply round_Z_eq; [|lia]. rewrite E2, inject_Z_plus. reflexivity.
      - rewrite inject_Z_plus, inject_Z_mult.
        change (inject_Z 36) with 36. change (inject_Z 12) with 12. field. }
    split; [|split; [done|apply Qabs_Qle_condition; split; lra]].
    apply Double_add_comp; [|reflexivity]. apply Double_mul_comp; [|reflexivity].
    by rewrite E1, inject_Z_mult.
  - split; [|split; [done|]].
    { apply Double_add_comp; [|reflexivity]. apply Double_mul_comp; [|reflexivity].
      by rewrite E1, inject_Z_mult. }
    set (c := Double.round 1.2).
    assert (Hc1 : c = 5404319552844595 # 4503599627370496) by reflexivity.
    set (a := Double.mul 24 (inject_Z k)) in *.
    assert (Ea : a == 24 * inject_Z k) by (by rewrite E1, inject_Z_mult).
    assert (H0 : 0 <= a * c) by (rewrite Ea, Hc1; nra).
    destruct (round_error_nonneg _ H0) as [Hp1 Hp2].
    change (Double.round (a * c)) with (Double.mul a c) in Hp1, Hp2.
    set (p := Double.mul a c) in *.
    rewrite Ea, Hc1 in Hp1, Hp2, H0. unfold Double.u in Hp1, Hp2.
    assert (Hp3 : 0 <= p + 12) by lra.
    destruct (round_error_nonneg _ Hp3) as [Hd1 Hd2]. unfold Double.u in Hd1, Hd2.
    change (Double.round (p + 12)) with (Double.add p 12) in Hd1, Hd2.
    apply Qabs_Qle_condition. split; lra.
  - assert (E2 : Double.mul (Double.mul 24 (inject_Z k)) 1 == inject_Z (24 * k)).
    { apply round_Z_eq; [|lia]. rewrite E1. ring. }
    assert (E3 : Double.add (Double.mul (Double.mul 24 (inject_Z k)) 1) 12
                 == 24 * inject_Z k * 1 + 12).
    { transitivity (inject_Z (24 * k + 12)).
      - apply round_Z_eq; [|lia]. rewrite E2, inject_Z_plus. reflexivity.
      - rewrite inject_Z_plus, inject_Z_mult.
        change (inject_Z 24) with 24. change (inject_Z 12) with 12. ring. }
    split; [|split; [done|apply Qabs_Qle_condition; split; lra]].
    apply Double_add_comp; [|reflexivity]. apply Double_mul_comp; [|reflexivity].
    by rewrite E1, inject_Z_mult.
Qed.


End HeightFacts.

(** ** The claims *)

(** C8.  The layout heuristic, in the worker and in the editor alike,
    computes 24 x lines x multiplier + 12 in double precision, where lines
    is the least integer with length <= 60 x lines (the ceiling of
    length / 60) for the length of the element's text, and the multiplier
    is 1.5 for a scene heading, 1.2 for a character and 1 otherwise.  With
    the multipliers 1.5 and 1 the result is the exact value of the
    expression; with 1.2, which is not a double, it is within the
    relative error 2^-51 of it.  The length of a JavaScript string is
    below 2^53. *)
Theorem C8_layout_heuristic (e : element) (n : pmnode) :
  (Z.of_nat (String.length (content e)) < 2 ^ 53)%Z →
  (Z.of_nat (String.length (textContent n)) < 2 ^ 53)%Z →
  (∃ lines : Z,
      (Z.of_nat (String.length (content e)) ≤ 60 * lines
       ∧ 60 * (lines - 1) < Z.of_nat (String.length (content e)))%Z
      ∧ let h := Binary64.Worker.calculateElementHeight e in
        let exact := (24 * inject_Z lines * multiplier_spec (el_type e) + 12)%Q in
        (h == Double.add (Double.mul (24 * inject_Z lines)
                            (Double.round (multiplier_spec (el_type e)))) 12)%Q
        ∧ (el_type e ≠ "character" → (h == exact)%Q)
        ∧ (Qabs (h - exact) <= exact * (1 # 2251799813685248))%Q)
  ∧ (∃ lines : Z,
      (Z.of_nat (String.length (textContent n)) ≤ 60 * lines
       ∧ 60 * (lines - 1) < Z.of_nat (String.length (textContent n)))%Z
      ∧ let h := Binary64.Editor.calculateElementHeight n in
        let exact := (24 * inject_Z lines * multiplier_spec (type (node_attrs n)) + 12)%Q in
        (h == Double.add (Double.mul (24 * inject_Z lines)
                            (Double.round (multiplier_spec (type (node_attrs n))))) 12)%Q
        ∧ (type (node_attrs n) ≠ "character" → (h == exact)%Q)
        ∧ (Qabs (h - exact) <= exact * (1 # 2251799813685248))%Q).
Proof.
  intros He Hn. split.
  - exists (JS.Math_ceil (JS.num (String.length (content e)) / 60)).
    split; [apply Math_ceil_div60|].
    unfold Binary64.Worker.calculateElementHeight.
    rewrite worker_contentLength, Math_ceil_double_div60 by done.
    by apply double_height.
  - exists (JS.Math_ceil (JS.num (String.length (textContent n)) / 60)).
    split; [apply Math_ceil_div60|].
    unfold Binary64.Editor.calculateElementHeight.
    rewrite Math_ceil_double_div60 by done.
    by apply double_height.
Qed.

Lemma C8_layout_heuristic_witness :
  (∃ lines : Z,
      (Z.of_nat (String.length (content sample_character)) ≤ 60 * lines
       ∧ 60 * (lines - 1) < Z.of_nat (String.length (content sample_character)))%Z
      ∧ let h := Binary64.Worker.calculateElementHeight sample_character in
        let exact := (24 * inject_Z lines * multiplier_spec (el_type sample_character) + 12)%Q in
        (h == Double.add (Double.mul (24 * inject_Z lines)
                            (Double.round (multiplier_spec (el_type sample_character)))) 12)%Q
        ∧ (el_type sample_character ≠ "character" → (h == exact)%Q)
        ∧ (Qabs (h - exact) <= exact * (1 # 2251799813685248))%Q)
  ∧ (∃ lines : Z,
      (Z.of_nat (String.length (textContent sample_heading_node)) ≤ 60 * lines
       ∧ 60 * (lines - 1) < Z.of_nat (String.length (textContent sample_heading_node)))%Z
      ∧ let h := Binary64.Editor.calculateElementHeight sample_heading_node in
        let exact :=
          (24 * inject_Z lines * multiplier_spec (type (node_attrs sample_heading_node)) + 12)%Q in
        (h == Double.add (Double.mul (24 * inject_Z lines)
                            (Double.round (multiplier_spec (type (node_attrs sample_heading_node))))) 12)%Q
        ∧ (type (node_attrs sample_heading_node) ≠ "character" → (h == exact)%Q)
        ∧ (Qabs (h - exact) <= exact * (1 # 2251799813685248))%Q).
Proof.
  apply (C8_layout_heuristic sample_character sample_heading_node).
  - vm_compute. reflexivity.
  - vm_compute. reflexivity.
Defined.


(** C7.  A single responsive worker given the whole document from index 0
    with the editor's page height reports the pages of the fallback path,
    and so does [updatePages] with a pool of one worker: same pages, same
    elements on each, the page items being the plain objects built from
    the elements. *)
Theorem C7_single_chunk_is_fallback (doc : document) (pages0 : list (list pageItem)) :
  (∃ pages,
      Worker.onmessage {| req_elements := Editor.extractElements doc;
                          req_startIndex := 0;
                          req_chunkSize := length (Editor.extractElements doc);
                          req_pageHeight := PAGE_HEIGHT |}
      = ReplySuccess pages 0 (length (Editor.extractElements doc))
      ∧ map Editor.convertPage pages
        = map (map (λ item, plainItem (toElement item)))
            (Editor.fallbackUpdatePages (Some doc) pages0))
  ∧ Editor.updatePages [Responsive] (Some doc) pages0
    = map (map (λ item, plainItem (toElement item)))
        (Editor.fallbackUpdatePages (Some doc) pages0).
Proof.
  split.
  - eexists. split; [reflexivity|]. apply (worker_pages_fallback doc 0 pages0).
  - unfold Editor.updatePages. simpl length at 1. cbv iota beta.
    change (1 =? 0)%nat with false. cbv iota.
    destruct (length (Editor.extractElements doc) =? 0)%nat eqn:Hlen.
    + apply Nat.eqb_eq in Hlen.
      rewrite fallbackUpdatePages_greedy.
      rewrite extractElements_pageItems, length_map in Hlen.
      apply nil_length_inv in Hlen. by rewrite Hlen.
    + cbn zeta. rewrite chunkSize_one_worker.
      unfold Editor.dispatch. rewrite Nat.mul_0_l, slice_all, Hlen.
      unfold Editor.chunkPromise, Worker.onmessage, Editor.merge, Editor.combine.
      simpl. rewrite app_nil_r.
      rewrite (sort_consecutive pageIndex _ 0) by apply worker_loop_sorted.
      apply (worker_pages_fallback doc _ pages0).
Qed.

(** ** What the parallel path does keep: every element, once *)

Lemma sort_insert_Permutation {A} (cmp : A → A → Z) (x : A) (l : list A) :
  JS.sort_insert cmp x l ≡ₚ x :: l.
Proof.
  induction l as [|y l IH]; [done|]. simpl.
  destruct (cmp x y <=? 0)%Z; [done|].
  rewrite IH. apply Permutation_swap.
Qed.

Lemma sort_Permutation {A} (cmp : A → A → Z) (l : list A) : JS.sort cmp l ≡ₚ l.
Proof.
  induction l as [|x l IH]; [done|]. simpl.
  by rewrite sort_insert_Permutation, IH.
Qed.

Lemma concat_Permutation {A} (l k : list (list A)) : l ≡ₚ k → concat l ≡ₚ concat k.
Proof.
  induction 1 as [|x l k _ IH|x y l|l k m _ IH1 _ IH2]; simpl.
  - done.
  - by rewrite IH.
  - rewrite !app_assoc. f_equiv. apply Permutation_app_comm.
  - by rewrite IH1.
Qed.

(** The chunk of worker [i]. *)
Lemma chunk_slice {A} (l : list A) (c i : nat) :
  JS.slice (i * c) ((i * c + c) `min` length l) l = take c (drop (i * c) l).
Proof.
  unfold JS.slice.
  destruct (Nat.le_gt_cases (i * c) (length l)) as [Hle|Hgt].
  - replace ((i * c + c) `min` length l - i * c) with (c `min` (length l - i * c)) by lia.
    rewrite <- (length_drop l (i * c)), <- take_take. by rewrite (take_ge (drop _ _) (length _)).
  - rewrite (drop_ge l (i * c)) by lia. by rewrite !take_nil.
Qed.

Lemma dispatch_elements (allElements : list element) (c i : nat) (workers : list worker) :
  Forall (λ w, w = Responsive) workers →
  concat (map elements (Editor.combine (Editor.dispatch allElements c i workers)))
  = take (length workers * c) (drop (i * c) allElements).
Proof.
  intros H. revert i. induction H as [|w workers -> _ IH]; intros i; [done|].
  cbn [Editor.dispatch]. cbv zeta. rewrite chunk_slice.
  assert (Hrest : take (length (Responsive :: workers) * c) (drop (i * c) allElements)
                  = take c (drop (i * c) allElements)
                    ++ take (length workers * c) (drop (S i * c) allElements)).
  { replace (drop (S i * c) allElements) with (drop c (drop (i * c) allElements))
      by (rewrite drop_drop; f_equal; lia).
    rewrite take_take_drop. f_equal. }
  rewrite Hrest, <- IH.
  destruct (length (take c (drop (i * c) allElements)) =? 0)%nat eqn:Hlen.
  - apply Nat.eqb_eq, nil_length_inv in Hlen. by rewrite Hlen.
  - unfold Editor.combine. cbn [flat_map Editor.chunkPromise Worker.onmessage].
    cbn [req_pageHeight req_elements req_startIndex].
    rewrite map_app, concat_app. f_equal.
    rewrite worker_loop_elements. simpl. by rewrite greedy_concat.
Qed.

Lemma chunkSize_covers (n w : nat) :
  0 < w → n ≤ w * Z.to_nat (JS.Math_ceil (JS.num n / JS.num w)).
Proof.
  intros Hw. unfold JS.Math_ceil.
  pose proof (Qle_ceiling (JS.num n / JS.num w)) as Hc.
  set (k := Qceiling _) in *.
  assert (Hwq : (0 < JS.num w)%Q).
  { unfold JS.num. change 0%Q with (inject_Z 0). rewrite <- Zlt_Qlt. lia. }
  assert (Hn : (JS.num n <= JS.num w * inject_Z k)%Q).
  { assert (Hx : (JS.num n == JS.num n / JS.num w * JS.num w)%Q) by (field; lra).
    rewrite Hx. rewrite (Qmult_comm (JS.num w)).
    apply Qmult_le_compat_r; [exact Hc | lra]. }
  unfold JS.num in Hn. rewrite <- inject_Z_mult, <- Zle_Qle in Hn. nia.
Qed.

(** When every worker answers, the pages of [updatePages] hold the
    extracted elements, each once (their order is another matter). *)
Lemma updatePages_keeps_elements (workers : list worker) (doc : document)
    (pages0 : list (list pageItem)) :
  workers ≠ [] → Forall (λ w, w = Responsive) workers →
  concat (Editor.updatePages workers (Some doc) pages0)
  ≡ₚ map plainItem (Editor.extractElements doc).
Proof.
  intros Hne Hall. unfold Editor.updatePages.
  destruct (length workers =? 0)%nat eqn:Hw.
  { apply Nat.eqb_eq, nil_length_inv in Hw. done. }
  apply Nat.eqb_neq in Hw.
  destruct (length (Editor.extractElements doc) =? 0)%nat eqn:Hlen.
  { apply Nat.eqb_eq, nil_length_inv in Hlen. by rewrite Hlen. }
  cbv zeta. unfold Editor.merge.
  set (c := Z.to_nat _).
  set (results := Editor.dispatch _ _ _ _).
  transitivity (concat (map Editor.convertPage (Editor.combine results))).
  { apply concat_Permutation, Permutation_map, sort_Permutation. }
  assert (Hflat : ∀ pages, concat (map Editor.convertPage pages)
                           = map plainItem (concat (map elements pages))).
  { induction pages as [|pg pages IH]; [done|].
    simpl. by rewrite IH, map_app. }
  rewrite Hflat. unfold results. rewrite dispatch_elements by done.
  rewrite drop_0, take_ge; [done|].
  unfold c. apply chunkSize_covers. lia.
Qed.



(** C1.  Three action blocks of 1400 characters and a pool of two
    responsive workers: every chunk succeeds, yet the page list puts the
    element at position 3 before the one at position 2; the fallback path
    keeps the document order.  The same happens with nine blocks and a
    pool of eight workers. *)
Theorem C1_parallel_path_reorders :
  map pos (concat (Editor.updatePages [Responsive; Responsive]
                     (Some three_long_actions) []))
  = [1; 3; 2]
  ∧ map pos (concat (Editor.fallbackUpdatePages (Some three_long_actions) []))
    = [1; 2; 3]
  ∧ map pos (concat (Editor.updatePages (replicate 8 Responsive)
                       (Some nine_long_actions) []))
    = [1; 3; 5; 7; 9; 2; 4; 6; 8].
Proof. vm_compute. done. Qed.

(** C2.  The merge on the same input: the chunk that starts at index 0
    reports the pages 0 and 1, the chunk that starts at index 2 reports
    page 0, and the merged list is ordered by these reported indices: the
    page of the second chunk stands before the second page of the first
    chunk. *)
Theorem C2_merge_sorts_by_reported_pageIndex :
  let allElements := Editor.extractElements three_long_actions in
  let results := Editor.dispatch allElements 2 0 [Responsive; Responsive] in
  map (λ page, (pageIndex page, map el_pos (elements page))) (Editor.combine results)
  = [(0, [1]); (1, [2]); (0, [3])]
  ∧ map (λ page, (pageIndex page, map el_pos (elements page))) (Editor.merge results)
    = [(0, [1]); (0, [3]); (1, [2])].
Proof. vm_compute. done. Qed.

(** C3.  A pool whose two workers both fail (one hangs, one crashes):
    [updatePages] sets the empty page list, while the fallback path on the
    same document gives three pages. *)
Theorem C3_all_chunks_fail_no_fallback :
  Editor.updatePages [Hung; Crashed] (Some three_long_actions) [] = []
  ∧ map (map pos) (Editor.fallbackUpdatePages (Some three_long_actions) [])
    = [[1]; [2]; [3]].
Proof. vm_compute. done. Qed.

(** ** The relay *)

Section RelayFacts.

Import Relay.

(** C10.  A connected session that sends [yjs-update] or
    [awareness-update] causes exactly one broadcast, to the members of the
    room its payload names, the sender excepted; whether the sender has
    joined that room, another room or none is not looked at, and the
    registry is left as it was. *)
Theorem C10_delta_broadcast_unchecked (σ : relay) (socket documentId : string)
    (update : list N) (awareness : jsobject) :
  is_Some (sockets σ !! socket) →
  (let σ' := handle (yjs_update_msg socket documentId update) σ in
   outbox σ' = outbox σ ++ [{| recipients := members σ documentId ∖ {[socket]};
                               event := yjs_update update |}]
   ∧ documentRooms σ' = documentRooms σ ∧ userAwareness σ' = userAwareness σ
   ∧ sockets σ' = sockets σ ∧ adapter σ' = adapter σ)
  ∧ (let σ' := handle (awareness_update_msg socket documentId awareness) σ in
     outbox σ' = outbox σ ++ [{| recipients := members σ documentId ∖ {[socket]};
                                 event := awareness_update socket awareness |}]
     ∧ documentRooms σ' = documentRooms σ ∧ userAwareness σ' = userAwareness σ
     ∧ sockets σ' = sockets σ ∧ adapter σ' = adapter σ).
Proof.
  intros [props Hs]. unfold handle. rewrite Hs. done.
Qed.

(** Session b never joined anything; its update for "doc1" reaches the
    session a that did join "doc1". *)
Lemma C10_delta_broadcast_unchecked_witness :
  let σ := run [connection "a"; connection "b";
                join_document "a" "doc1" "alice" ∅] initial in
  sockets σ !! "b" = Some {| sock_documentId := None; sock_userId := None |}
  ∧ outbox (handle (yjs_update_msg "b" "doc1" [1%N; 2%N]) σ)
    = outbox σ ++ [{| recipients := {["a"]}; event := yjs_update [1%N; 2%N] |}].
Proof.
  cbv zeta. split; [vm_compute; reflexivity|].
  destruct (C10_delta_broadcast_unchecked
              (run [connection "a"; connection "b";
                    join_document "a" "doc1" "alice" ∅] initial)
              "b" "doc1" [1%N; 2%N] ∅) as [[H _] _].
  - vm_compute. eauto.
  - rewrite H. vm_compute. reflexivity.
Defined.

Lemma others_after_join (socket : string) (room : gset string) :
  ({[socket]} ∪ room) ∖ {[socket]} = room ∖ {[socket]}.
Proof.
  apply set_eq. intros x.
  rewrite !elem_of_difference, elem_of_union, elem_of_singleton. tauto.
Qed.

Lemma elem_of_Set_add (x y : string) (s : list string) :
  y ∈ Set_add x s ↔ y = x ∨ y ∈ s.
Proof.
  unfold Set_add. case_bool_decide.
  - split; [auto | intros [->|]; done].
  - rewrite elem_of_app, list_elem_of_singleton. tauto.
Qed.

Lemma elem_of_Set_delete (x y : string) (s : list string) :
  y ∈ Set_delete x s ↔ y ≠ x ∧ y ∈ s.
Proof. unfold Set_delete. by rewrite list_elem_of_filter. Qed.

(** C5 (as the code has it).  The relay does not validate a
    [join-document]: whatever the identifiers, empty ones included, the
    join of a connected session puts the session into the room set of the
    document identifier and into the adapter room of that name, stores
    its properties and its presence, broadcasts [user-joined] to the
    other members of the room and answers [current-users]. *)
Theorem C5_join_not_validated (σ : relay) (socket documentId userId : string)
    (userInfo : jsobject) :
  is_Some (sockets σ !! socket) →
  let σ' := handle (join_document socket documentId userId userInfo) σ in
  (∃ room, documentRooms σ' !! documentId = Some room ∧ socket ∈ room)
  ∧ socket ∈ members σ' documentId
  ∧ sockets σ' !! socket
    = Some {| sock_documentId := Some documentId; sock_userId := Some userId |}
  ∧ userAwareness σ' !! socket = Some (userInfo ∪ {["userId" := userId]})
  ∧ ∃ users,
      outbox σ'
      = outbox σ ++ [{| recipients := members σ documentId ∖ {[socket]};
                        event := user_joined socket userId userInfo |};
                     {| recipients := {[socket]}; event := current_users users |}].
Proof.
  intros [props Hs]. cbv zeta. unfold handle. rewrite Hs.
  unfold on_join_document. cbn -[filter].
  repeat split.
  - eexists. rewrite lookup_insert_eq. split; [done|].
    apply elem_of_Set_add. by left.
  - unfold members. cbn. rewrite lookup_insert_eq. set_solver.
  - by rewrite lookup_insert_eq.
  - by rewrite lookup_insert_eq.
  - eexists. rewrite <- app_assoc. unfold members at 1. cbn -[filter].
    rewrite lookup_insert_eq. cbn -[filter].
    by rewrite others_after_join.
Qed.

Lemma C5_join_not_validated_witness :
  let σ' := handle (join_document "s1" "" "" ∅) (run [connection "s1"] initial) in
  (∃ room, documentRooms σ' !! "" = Some room ∧ "s1" ∈ room)
  ∧ "s1" ∈ members σ' "".
Proof.
  destruct (C5_join_not_validated (run [connection "s1"] initial) "s1" "" "" ∅)
    as (H1 & H2 & _).
  - vm_compute. eauto.
  - exact (conj H1 H2).
Defined.

(** A join with empty identifiers is not ignored: it creates the room
    [""], joins the adapter room, and emits the broadcast and the reply. *)
Lemma C5_counterexample :
  let σ := run [connection "s1"] initial in
  let σ' := handle (join_document "s1" "" "" ∅) σ in
  documentRooms σ !! "" = None
  ∧ documentRooms σ' !! "" = Some ["s1"]
  ∧ members σ' "" = {["s1"]}
  ∧ outbox σ = []
  ∧ outbox σ'
    = [{| recipients := ∅; event := user_joined "s1" "" ∅ |};
       {| recipients := {["s1"]}; event := current_users [] |}].
Proof. vm_compute. done. Qed.


Lemma room_invariant_ext (σ σ' : relay) :
  documentRooms σ' = documentRooms σ → sockets σ' = sockets σ →
  room_invariant σ → room_invariant σ'.
Proof.
  intros Hr Hs [H1 H2 H3]. unfold joined in *.
  split; unfold joined; rewrite ?Hr, ?Hs; eauto.
Qed.

Lemma room_invariant_initial : room_invariant initial.
Proof.
  split; unfold joined; simpl.
  - intros d room H. by rewrite lookup_empty in H.
  - intros d room s H. by rewrite lookup_empty in H.
  - intros s d (props & H & _). by rewrite lookup_empty in H.
Qed.

Lemma room_invariant_connection (σ : relay) (socket : string) :
  room_invariant σ → room_invariant (handle (connection socket) σ).
Proof.
  intros [H1 H2 H3]. simpl.
  destruct (sockets σ !! socket) as [props|] eqn:Hs; [by split|].
  split; unfold joined in *; simpl.
  - exact H1.
  - intros d room s Hd Hin. destruct (H2 d room s Hd Hin) as (props & Hp & Hdoc).
    exists props. split; [|done].
    rewrite lookup_insert_ne; [done|]. intros ->. congruence.
  - intros s d (props & Hp & Hdoc).
    destruct (decide (socket = s)) as [->|Hne].
    + rewrite lookup_insert_eq in Hp. by simplify_eq.
    + rewrite lookup_insert_ne in Hp by done. eauto.
Qed.

Lemma room_invariant_join (σ : relay) (socket documentId userId : string)
    (userInfo : jsobject) :
  room_invariant σ →
  documentId ≠ "" →
  (∀ props, sockets σ !! socket = Some props →
     sock_documentId props = None ∨ sock_documentId props = Some documentId) →
  room_invariant (handle (join_document socket documentId userId userInfo) σ).
Proof.
  intros [H1 H2 H3] Hd Hdisc. simpl.
  destruct (sockets σ !! socket) as [props0|] eqn:Hs; [|by split].
  specialize (Hdisc props0 eq_refl).
  apply (room_invariant_ext
    {| documentRooms :=
         <[documentId := Set_add socket (default [] (documentRooms σ !! documentId))]>
           (documentRooms σ);
       userAwareness := userAwareness σ;
       sockets := <[socket := {| sock_documentId := Some documentId;
                                 sock_userId := Some userId |}]> (sockets σ);
       adapter := adapter σ; outbox := outbox σ |}); [done | done |].
  split; unfold joined in *; simpl.
  - intros d room Hroom. destruct (decide (documentId = d)) as [->|Hne].
    + rewrite lookup_insert_eq in Hroom. simplify_eq.
      intros Hnil. assert (Hin : socket ∈ Set_add socket (default [] (documentRooms σ !! d)))
        by (apply elem_of_Set_add; by left).
      rewrite Hnil in Hin. by apply not_elem_of_nil in Hin.
    + rewrite lookup_insert_ne in Hroom by done. eauto.
  - intros d room s Hroom Hin. destruct (decide (socket = s)) as [->|Hs'].
    + rewrite lookup_insert_eq. eexists. split; [done|]. simpl.
      destruct (decide (documentId = d)) as [->|Hne]; [done|].
      rewrite lookup_insert_ne in Hroom by done.
      destruct (H2 d room s Hroom Hin) as (props & Hp & Hdoc).
      rewrite Hs in Hp. simplify_eq. destruct Hdisc; congruence.
    + rewrite lookup_insert_ne by done.
      destruct (decide (documentId = d)) as [->|Hne].
      * rewrite lookup_insert_eq in Hroom. simplify_eq.
        apply elem_of_Set_add in Hin as [->|Hin]; [done|].
        destruct (documentRooms σ !! d) as [room|] eqn:Hr; simpl in Hin.
        -- eauto.
        -- by apply not_elem_of_nil in Hin.
      * rewrite lookup_insert_ne in Hroom by done. eauto.
  - intros s d (props & Hp & Hdoc). destruct (decide (socket = s)) as [->|Hs'].
    + rewrite lookup_insert_eq in Hp. simplify_eq. simpl in *. simplify_eq.
      split; [done|]. eexists. rewrite lookup_insert_eq. split; [done|].
      apply elem_of_Set_add. by left.
    + rewrite lookup_insert_ne in Hp by done.
      destruct (H3 s d) as (Hne & room & Hroom & Hin); [eauto|].
      split; [done|]. destruct (decide (documentId = d)) as [->|Hdd].
      * eexists. rewrite lookup_insert_eq. split; [done|].
        apply elem_of_Set_add. right. by rewrite Hroom.
      * exists room. by rewrite lookup_insert_ne.
Qed.

Lemma truthy_opt_Some (d : string) : d ≠ "" → JS.truthy_opt (Some d) = true.
Proof. intros H. unfold JS.truthy_opt, JS.truthy. by rewrite bool_decide_false. Qed.

Lemma length_eqb_0_nil {A} (l : list A) : (length l =? 0)%nat = true ↔ l = [].
Proof. rewrite Nat.eqb_eq. split; [apply nil_length_inv | by intros ->]. Qed.

Lemma Set_delete_singleton (s : string) : Set_delete s [s] = [].
Proof.
  unfold Set_delete. rewrite filter_cons_False by (intros H; by apply H). done.
Qed.

Lemma room_invariant_disconnect (σ : relay) (socket : string) :
  room_invariant σ → room_invariant (handle (disconnect socket) σ).
Proof.
  intros [H1 H2 H3]. simpl.
  destruct (sockets σ !! socket) as [props|] eqn:Hs; [|by split].
  unfold on_disconnect.
  destruct (sock_documentId props) as [d|] eqn:Hdoc.
  - destruct (H3 socket d) as (Hd & room & Hroom & Hin); [unfold joined; eauto|].
    rewrite (truthy_opt_Some d Hd). cbn. rewrite Hroom.
    set (rooms' := if (length (Set_delete socket room) =? 0)%nat
                   then delete d (documentRooms σ)
                   else <[d := Set_delete socket room]> (documentRooms σ)).
    apply (room_invariant_ext
      {| documentRooms := rooms'; userAwareness := userAwareness σ;
         sockets := delete socket (sockets σ);
         adapter := adapter σ; outbox := outbox σ |}); [done | done |].
    assert (Hlook : ∀ d' r', rooms' !! d' = Some r' →
              (d' = d ∧ r' = Set_delete socket room ∧ r' ≠ [])
              ∨ (d' ≠ d ∧ documentRooms σ !! d' = Some r')).
    { intros d' r'. unfold rooms'.
      destruct (length (Set_delete socket room) =? 0)%nat eqn:Hlen.
      - destruct (decide (d = d')) as [->|Hne].
        + by rewrite lookup_delete_eq.
        + rewrite lookup_delete_ne by done. eauto.
      - destruct (decide (d = d')) as [->|Hne].
        + rewrite lookup_insert_eq. intros ?; simplify_eq. left.
          repeat split. intros Hnil. apply length_eqb_0_nil in Hnil. congruence.
        + rewrite lookup_insert_ne by done. eauto. }
    split; unfold joined in *; simpl.
    + intros d' r' Hr'. destruct (Hlook d' r' Hr') as [(_ & _ & ?)|[_ ?]]; eauto.
    + intros d' r' s Hr' Hs'.
      destruct (Hlook d' r' Hr') as [(-> & -> & _)|[Hne Hr]].
      * apply elem_of_Set_delete in Hs' as [Hne Hs'].
        destruct (H2 d room s Hroom Hs') as (p & Hp & Hpd).
        exists p. by rewrite lookup_delete_ne.
      * destruct (H2 d' r' s Hr Hs') as (p & Hp & Hpd).
        exists p. split; [|done]. rewrite lookup_delete_ne; [done|].
        intros ->. congruence.
    + intros s d' (p & Hp & Hpd).
      destruct (decide (socket = s)) as [->|Hne];
        [by rewrite lookup_delete_eq in Hp|].
      rewrite lookup_delete_ne in Hp by done.
      destruct (H3 s d') as (Hd' & r' & Hr' & Hs'); [eauto|].
      split; [done|]. unfold rooms'.
      destruct (decide (d = d')) as [->|Hdd].
      * assert (r' = room) by congruence. subst r'.
        assert (Hin' : s ∈ Set_delete socket room)
          by (apply elem_of_Set_delete; split; [congruence | done]).
        destruct (length (Set_delete socket room) =? 0)%nat eqn:Hlen.
        -- apply length_eqb_0_nil in Hlen. rewrite Hlen in Hin'.
           by apply not_elem_of_nil in Hin'.
        -- eexists. by rewrite lookup_insert_eq.
      * exists r'. split; [|done].
        destruct (length (Set_delete socket room) =? 0)%nat.
        -- by rewrite lookup_delete_ne.
        -- by rewrite lookup_insert_ne.
  - cbn.
    apply (room_invariant_ext
      {| documentRooms := documentRooms σ; userAwareness := userAwareness σ;
         sockets := delete socket (sockets σ);
         adapter := adapter σ; outbox := outbox σ |}); [done | done |].
    split; unfold joined in *; simpl.
    + exact H1.
    + intros d room s Hroom Hin.
      destruct (H2 d room s Hroom Hin) as (p & Hp & Hpd).
      exists p. split; [|done]. rewrite lookup_delete_ne; [done|].
      intros ->. congruence.
    + intros s d (p & Hp & Hpd).
      destruct (decide (socket = s)) as [->|Hne];
        [by rewrite lookup_delete_eq in Hp|].
      rewrite lookup_delete_ne in Hp by done. eauto.
Qed.

Lemma room_invariant_run (evs : list clientEvent) (σ : relay) :
  room_invariant σ → disciplined evs σ → room_invariant (run evs σ).
Proof.
  revert σ. induction evs as [|ev evs IH]; intros σ Hinv Hd; [done|].
  destruct Hd as [Hev Hd]. apply IH; [|done].
  destruct ev as [s|s d u info|s d upd|s d aw|s].
  - by apply room_invariant_connection.
  - destruct Hev. by apply room_invariant_join.
  - simpl. destruct (sockets σ !! s); [|done].
    by apply (room_invariant_ext σ).
  - simpl. destruct (sockets σ !! s); [|done].
    by apply (room_invariant_ext σ).
  - by apply room_invariant_disconnect.
Qed.

(** C9 (as the code has it).  When every document identifier is non-empty
    and no session joins a second, different document, then after every
    sequence of events the room map has an entry for a document
    identifier exactly when some connected session is joined to that
    document, and the disconnect of the only session of a room deletes
    the entry of the room. *)
Theorem C9_room_iff_joined (evs : list clientEvent) :
  disciplined evs initial →
  let σ := run evs initial in
  (∀ d, is_Some (documentRooms σ !! d) ↔ ∃ s, joined σ s d)
  ∧ (∀ d s, documentRooms σ !! d = Some [s] →
       documentRooms (handle (disconnect s) σ) !! d = None).
Proof.
  intros Hd σ.
  assert (Hinv : room_invariant σ)
    by (apply room_invariant_run; [apply room_invariant_initial | done]).
  destruct Hinv as [H1 H2 H3]. split.
  - intros d. split.
    + intros [room Hroom]. pose proof (H1 d room Hroom) as Hne.
      destruct room as [|s room]; [done|]. exists s.
      apply (H2 d (s :: room)); [done | by left].
    + intros [s Hj]. destruct (H3 s d Hj) as (_ & room & Hroom & _). eauto.
  - intros d s Hroom.
    destruct (H2 d [s] s Hroom) as (props & Hp & Hpd); [by left|].
    destruct (H3 s d) as (Hne & _); [unfold joined; eauto|].
    simpl. rewrite Hp. unfold on_disconnect. rewrite Hpd, (truthy_opt_Some d Hne).
    cbn. rewrite Hroom, Set_delete_singleton. simpl.
    by rewrite lookup_delete_eq.
Qed.


Lemma C9_room_iff_joined_witness :
  let σ := run sample_session initial in
  (∀ d, is_Some (documentRooms σ !! d) ↔ ∃ s, joined σ s d)
  ∧ (∀ d s, documentRooms σ !! d = Some [s] →
       documentRooms (handle (disconnect s) σ) !! d = None).
Proof.
  apply (C9_room_iff_joined sample_session).
  simpl. repeat split; try done.
  all: intros props Hp; vm_compute in Hp; simplify_eq; simpl; auto.
Defined.

(** A join with the empty document identifier, then the disconnect of
    that session: the room [""] stays in the map with the session in it,
    although no session is connected any more.  And a session that joins
    "a" then "b" and disconnects leaves the room "a" behind. *)
Lemma C9_counterexample :
  let σ := run [connection "s1"; join_document "s1" "" "alice" ∅;
                disconnect "s1"] initial in
  let σ2 := run [connection "s1"; join_document "s1" "a" "alice" ∅;
                 join_document "s1" "b" "alice" ∅; disconnect "s1"] initial in
  documentRooms σ !! "" = Some ["s1"] ∧ sockets σ = ∅
  ∧ documentRooms σ2 !! "a" = Some ["s1"] ∧ sockets σ2 = ∅.
Proof. vm_compute. done. Qed.

End RelayFacts.

(** ** The outbound throttle *)

Section ThrottleFacts.

Import SyncClient.

(** A delta that arrives while the timer is pending and not yet due
    changes nothing but the clock. *)
Lemma delta_in_window (p : provider) (tm : timer) (t : nat) (u : list N) :
  updateTimeout p = Some tm → t < due tm →
  on_update u (advance t p)
  = {| connected := connected p; updateTimeout := Some tm;
       clock := clock p `max` t; emitted := emitted p |}.
Proof.
  intros Htm Ht. unfold advance. rewrite Htm.
  destruct (Nat.leb_spec (due tm) t); [lia|].
  unfold on_update. simpl. by rewrite Htm.
Qed.

Lemma deltas_in_window (p : provider) (tm : timer) (evs : list (nat * list N)) :
  updateTimeout p = Some tm →
  Forall (λ ev, ev.1 < due tm) evs →
  let p' := deltas evs p in
  connected p' = connected p ∧ updateTimeout p' = Some tm
  ∧ emitted p' = emitted p
  ∧ clock p ≤ clock p' ∧ (clock p < due tm → clock p' < due tm).
Proof.
  intros Htm Hevs. revert p Htm.
  induction Hevs as [|[t u] evs Ht _ IH]; intros p Htm; cbv zeta.
  - cbn. repeat split; by eauto.
  - change (deltas ((t, u) :: evs) p) with (deltas evs (on_update u (advance t p))).
    rewrite (delta_in_window p tm t u Htm Ht).
    set (q := {| connected := connected p; updateTimeout := Some tm;
                 clock := clock p `max` t; emitted := emitted p |}).
    destruct (IH q eq_refl) as (Hc & Hu & He & Hle & Hlt).
    rewrite Hc, Hu, He. simpl in *. repeat split; lia.
Qed.

Lemma deltas_app (evs1 evs2 : list (nat * list N)) (p : provider) :
  deltas (evs1 ++ evs2) p = deltas evs2 (deltas evs1 p).
Proof. apply fold_left_app. Qed.

(** C4 (as the code has it).  On a connected provider with no timer
    pending, the first delta of a window starts a timer of 200 ms; the
    deltas that arrive before it fires are dropped: they start no timer
    and send nothing; at expiry exactly one message is sent and its
    payload is the first delta of the window; a delta after the window
    has closed opens the next window and gives the second message. *)
Theorem C4_throttle_sends_first_delta (p : provider) (t1 : nat) (u1 : list N)
    (rest : list (nat * list N)) (t6 : nat) (u6 : list N) :
  connected p = true → updateTimeout p = None → clock p ≤ t1 →
  Forall (λ ev, ev.1 < t1 + 200) rest →
  t1 + 200 ≤ t6 →
  let window := (t1, u1) :: rest in
  updateTimeout (deltas window p) = Some {| due := t1 + 200; captured := u1 |}
  ∧ emitted (deltas window p) = emitted p
  ∧ emitted (advance (t1 + 200) (deltas window p)) = emitted p ++ [u1]
  ∧ updateTimeout (advance (t1 + 200) (deltas window p)) = None
  ∧ emitted (advance (t6 + 200) (deltas (window ++ [(t6, u6)]) p))
    = emitted p ++ [u1; u6].
Proof.
  intros Hc Hu Hclock Hrest Ht6 window.
  set (p1 := on_update u1 (advance t1 p)).
  assert (Hp1 : p1 = {| connected := true;
                        updateTimeout := Some {| due := t1 + 200; captured := u1 |};
                        clock := t1; emitted := emitted p |}).
  { unfold p1, advance, on_update. rewrite Hu. simpl. rewrite Hu, Hc.
    by rewrite Nat.max_r. }
  assert (Happ : deltas (window ++ [(t6, u6)]) p
                 = on_update u6 (advance t6 (deltas rest p1))).
  { unfold window. by rewrite deltas_app. }
  rewrite Happ. change (deltas window p) with (deltas rest p1).
  assert (Hc1 : connected p1 = true) by (by rewrite Hp1).
  assert (He1 : emitted p1 = emitted p) by (by rewrite Hp1).
  assert (Hk1 : clock p1 = t1) by (by rewrite Hp1).
  destruct (deltas_in_window p1 {| due := t1 + 200; captured := u1 |} rest)
    as (Hc' & Hu' & He' & Hle & Hlt); [by rewrite Hp1 | done |].
  rewrite Hc1 in Hc'. rewrite He1 in He'. rewrite Hk1 in Hle, Hlt.
  simpl in Hlt. specialize (Hlt ltac:(lia)). clearbody p1.
  assert (Hfire : ∀ t, t1 + 200 ≤ t →
            advance t (deltas rest p1)
            = {| connected := true; updateTimeout := None;
                 clock := clock (deltas rest p1) `max` t;
                 emitted := emitted p ++ [u1] |}).
  { intros t Ht. unfold advance. rewrite Hu'. simpl.
    destruct (Nat.leb_spec (t1 + 200) t); [|lia].
    unfold timer_callback. simpl. by rewrite Hc', He'. }
  repeat split.
  - done.
  - done.
  - by rewrite Hfire.
  - by rewrite Hfire.
  - rewrite (Hfire t6 Ht6). unfold on_update, advance. simpl.
    destruct (Nat.leb_spec (clock (deltas rest p1) `max` t6 + 200) (t6 + 200)); [|lia].
    simpl. by rewrite <- app_assoc.
Qed.


(** Five deltas in 200 ms give one message, a sixth delta after the
    window gives the second one. *)
Lemma C4_throttle_sends_first_delta_witness :
  let p := on_connect initial in
  emitted (advance 1200 (deltas five_rapid_deltas p)) = [[1%N]]
  ∧ emitted (advance 1500 (deltas (five_rapid_deltas ++ [(1300, [6%N])]) p))
    = [[1%N]; [6%N]].
Proof.
  destruct (C4_throttle_sends_first_delta (on_connect initial) 1000 [1%N]
              [(1010, [2%N]); (1050, [3%N]); (1120, [4%N]); (1199, [5%N])]
              1300 [6%N]) as (_ & _ & H1 & _ & H2).
  - reflexivity.
  - reflexivity.
  - simpl. lia.
  - repeat constructor; simpl; lia.
  - lia.
  - exact (conj H1 H2).
Defined.

(** Two deltas in one window: the message sent at expiry carries the
    first one, not the latest one. *)
Lemma C4_counterexample :
  let p := deltas [(0, [1%N]); (50, [2%N])] (on_connect initial) in
  emitted (advance 200 p) = [[1%N]] ∧ emitted (advance 200 p) ≠ [[2%N]].
Proof. vm_compute. split; [done | discriminate]. Qed.

End ThrottleFacts.

(** * Further properties of the code *)

(** ** More about the greedy packing *)

Section GreedyPages.

Context {A : Type} (height : A → Q) (budget : Q).

Lemma page_height_snoc (page : list A) (x : A) :
  (page_height height (page ++ [x]) == page_height height page + height x)%Q.
Proof.
  induction page as [|y page IH]; simpl; [ring|]. rewrite IH. ring.
Qed.

Lemma page_height_app (l1 l2 : list A) :
  (page_height height (l1 ++ l2) == page_height height l1 + page_height height l2)%Q.
Proof.
  induction l1 as [|y l1 IH]; simpl; [ring|]. rewrite IH. ring.
Qed.

Lemma page_height_nonneg (Hpos : ∀ x, (0 < height x)%Q) (l : list A) :
  (0 <= page_height height l)%Q.
Proof.
  induction l as [|y l IH]; simpl; [lra|]. pose proof (Hpos y). lra.
Qed.

(** Every page the packing closes is a good page, when the page under
    construction is one. *)
Lemma greedy_pages_ok (cur : list A) (h : Q) (l : list A) :
  (h == page_height height cur)%Q →
  cur = [] ∨ length cur = 1 ∨ (h <= budget)%Q →
  Forall (page_ok height budget) (greedy height budget cur h l).
Proof.
  revert cur h. induction l as [|x l IH]; intros cur h Hh Hcur; simpl.
  - destruct cur as [|c cur]; simpl; [constructor|].
    constructor; [|constructor]. split; [done|].
    destruct Hcur as [?|[?|Hle]]; [done | by left | right]. by rewrite <- Hh.
  - destruct (JS.gt (h + height x) budget && (0 <? length cur)%nat) eqn:Hc.
    + apply andb_true_iff in Hc as [_ Hlen]. apply Nat.ltb_lt in Hlen.
      constructor.
      * split; [intros ->; simpl in Hlen; lia|].
        destruct Hcur as [->|[?|Hle]]; [simpl in Hlen; lia | by left | right].
        by rewrite <- Hh.
      * apply IH; [unfold page_height; cbn [foldr]; ring | auto].
    + apply IH; [by rewrite page_height_snoc, Hh|].
      apply andb_false_iff in Hc as [Hgt|Hlen].
      * right. right. apply Qnot_lt_le. intros Hlt. apply gt_spec in Hlt. congruence.
      * apply Nat.ltb_ge in Hlen. destruct cur; [|simpl in Hlen; lia]. by right; left.
Qed.

(** The first page of a run starts with the page under construction. *)
Lemma greedy_head (cur : list A) (h : Q) (l : list A) :
  cur ≠ [] → ∃ tl rest, greedy height budget cur h l = (cur ++ tl) :: rest.
Proof.
  revert cur h. induction l as [|x l IH]; intros cur h Hcur; simpl.
  - destruct cur; [done|]. exists [], []. by rewrite app_nil_r.
  - destruct cur as [|c cur]; [done|]. simpl.
    destruct (JS.gt (h + height x) budget); simpl.
    + eexists [], _. by rewrite app_nil_r.
    + destruct (IH (c :: cur ++ [x]) (h + height x)%Q) as (tl & rest & ->); [done|].
      exists (x :: tl), rest. simpl. by rewrite <- app_assoc.
Qed.

(** A page is closed only when the next item does not fit on it. *)
Lemma greedy_maximal (cur : list A) (h : Q) (l : list A)
    (ps1 : list (list A)) (p : list A) (x : A) (q : list A) (ps2 : list (list A)) :
  (h == page_height height cur)%Q →
  greedy height budget cur h l = ps1 ++ p :: (x :: q) :: ps2 →
  (budget < page_height height p + height x)%Q.
Proof.
  revert cur h ps1. induction l as [|y l IH]; intros cur h ps1 Hh Heq; simpl in Heq.
  - destruct (0 <? length cur)%nat; destruct ps1 as [|? [|? ?]]; discriminate.
  - destruct (JS.gt (h + height y) budget && (0 <? length cur)%nat) eqn:Hc.
    + apply andb_true_iff in Hc as [Hgt Hlen]. apply gt_spec in Hgt.
      destruct ps1 as [|p0 ps1]; simpl in Heq.
      * injection Heq as <- Hrest.
        destruct (greedy_head [y] (0 + height y)%Q l) as (tl & rest & Hg); [done|].
        rewrite Hg in Hrest. injection Hrest as <- _ _. by rewrite <- Hh.
      * injection Heq as _ Hrest. apply (IH [y] (0 + height y)%Q ps1); [unfold page_height; cbn [foldr]; ring | done].
    + apply (IH (cur ++ [y]) (h + height y)%Q ps1); [|done].
      by rewrite page_height_snoc, Hh.
Qed.

(** Items that fit together on the page under construction end up on one
    page. *)
Lemma greedy_one_page (cur : list A) (h : Q) (l : list A) :
  (h == page_height height cur)%Q →
  (∀ x, (0 < height x)%Q) →
  (page_height height (cur ++ l) <= budget)%Q →
  cur ++ l ≠ [] →
  greedy height budget cur h l = [cur ++ l].
Proof.
  intros Hh Hpos. revert cur h Hh. induction l as [|x l IH]; intros cur h Hh Hfit Hne; simpl.
  - rewrite app_nil_r in *. by destruct cur.
  - assert (Hle : (page_height height (cur ++ [x]) <= page_height height (cur ++ x :: l))%Q).
    { rewrite (cons_middle x cur l), app_assoc, (page_height_app (cur ++ [x]) l).
      pose proof (page_height_nonneg Hpos l). lra. }
    assert (Hgt : JS.gt (h + height x) budget = false).
    { apply not_true_is_false. intros Hgt. apply gt_spec in Hgt.
      rewrite page_height_snoc, <- Hh in Hle. lra. }
    rewrite Hgt. simpl.
    rewrite (IH (cur ++ [x])); rewrite <- ?app_assoc; simpl; try done.
    by rewrite page_height_snoc, Hh.
Qed.

End GreedyPages.

(** ** More about the two pagination loops *)

(** *** The worker's loop in double precision *)

Section Binary64Pages.

Lemma worker64_loop_elements (pageHeight : Q) (rest : list element)
    (processed : list workerPage) (cur : list element) (h : Q) (idx : nat) :
  map elements (Binary64.Worker.loop pageHeight rest processed cur h idx)
  = map elements processed ++ greedy64 pageHeight cur h rest.
Proof.
  revert processed cur h idx.
  induction rest as [|x rest IH]; intros processed cur h idx;
    cbn [Binary64.Worker.loop greedy64]; cbv zeta.
  - destruct (0 <? length cur)%nat; [|by rewrite app_nil_r].
    by rewrite map_app.
  - destruct (_ && _).
    + rewrite IH, map_app. cbn [map elements]. by rewrite <- app_assoc.
    + by rewrite IH.
Qed.

Lemma accumulated_height_snoc (page : list element) (x : element) :
  accumulated_height (page ++ [x])
  = Double.add (accumulated_height page) (Binary64.Worker.calculateElementHeight x).
Proof. unfold accumulated_height. by rewrite foldl_app. Qed.

Lemma accumulated_height_single (x : element) :
  accumulated_height [x] = Double.add 0 (Binary64.Worker.calculateElementHeight x).
Proof. unfold accumulated_height. cbn [foldl]. reflexivity. Qed.

Lemma greedy64_pages_ok (budget : Q) (cur : list element) (h : Q) (l : list element) :
  h = accumulated_height cur →
  cur = [] ∨ length cur = 1 ∨ (h <= budget)%Q →
  Forall (λ page, page ≠ [] ∧ (length page = 1 ∨ (accumulated_height page <= budget)%Q))
    (greedy64 budget cur h l).
Proof.
  revert cur h. induction l as [|x l IH]; intros cur h Hh Hcur; cbn [greedy64]; cbv zeta.
  - destruct cur as [|c cur]; cbn [length Nat.ltb Nat.leb]; [constructor|].
    constructor; [|constructor]. split; [done|].
    destruct Hcur as [?|[?|Hle]]; [done | by left | right]. by rewrite <- Hh.
  - destruct (JS.gt _ budget && (0 <? length cur)%nat) eqn:Hc.
    + apply andb_true_iff in Hc as [_ Hlen]. apply Nat.ltb_lt in Hlen.
      constructor.
      * split; [intros ->; cbn [length] in Hlen; lia|].
        destruct Hcur as [->|[?|Hle]]; [cbn [length] in Hlen; lia | by left | right].
        by rewrite <- Hh.
      * apply IH; [by rewrite accumulated_height_single | by right; left].
    + apply IH; [by rewrite accumulated_height_snoc, <- Hh|].
      apply andb_false_iff in Hc as [Hgt|Hlen].
      * right. right. apply Qnot_lt_le. intros Hlt. apply gt_spec in Hlt. congruence.
      * apply Nat.ltb_ge in Hlen. destruct cur; [|cbn [length] in Hlen; lia]. by right; left.
Qed.

Lemma greedy64_head (budget : Q) (cur : list element) (h : Q) (l : list element) :
  cur ≠ [] → ∃ tl rest, greedy64 budget cur h l = (cur ++ tl) :: rest.
Proof.
  revert cur h. induction l as [|x l IH]; intros cur h Hcur; cbn [greedy64]; cbv zeta.
  - destruct cur; [done|]. exists [], []. by rewrite app_nil_r.
  - assert (Hlen : (0 <? length cur)%nat = true) by (by destruct cur).
    rewrite Hlen, andb_true_r. destruct (JS.gt _ budget).
    + eexists [], _. by rewrite app_nil_r.
    + destruct (IH (cur ++ [x])
                  (Double.add h (Binary64.Worker.calculateElementHeight x)))
        as (tl & rest & ->); [by destruct cur|].
      exists (x :: tl), rest. by rewrite <- app_assoc.
Qed.

Lemma greedy64_maximal (budget : Q) (cur : list element) (h : Q) (l : list element)
    (ps1 : list (list element)) (p : list element) (x : element) (q : list element)
    (ps2 : list (list element)) :
  h = accumulated_height cur →
  greedy64 budget cur h l = ps1 ++ p :: (x :: q) :: ps2 →
  (budget < Double.add (accumulated_height p) (Binary64.Worker.calculateElementHeight x))%Q.
Proof.
  revert cur h ps1. induction l as [|y l IH]; intros cur h ps1 Hh Heq;
    cbn [greedy64] in Heq; cbv zeta in Heq.
  - destruct (0 <? length cur)%nat; destruct ps1 as [|? [|? ?]]; discriminate.
  - destruct (JS.gt _ budget && (0 <? length cur)%nat) eqn:Hc.
    + apply andb_true_iff in Hc as [Hgt Hlen]. apply gt_spec in Hgt.
      destruct ps1 as [|p0 ps1]; cbn [app] in Heq.
      * injection Heq as <- Hrest.
        destruct (greedy64_head budget [y]
                    (Double.add 0 (Binary64.Worker.calculateElementHeight y)) l)
          as (tl & rest & Hg); [done|].
        rewrite Hg in Hrest. injection Hrest as <- _ _. rewrite <- Hh. exact Hgt.
      * injection Heq as _ Hrest.
        apply (IH [y] (Double.add 0 (Binary64.Worker.calculateElementHeight y)) ps1);
          [by rewrite accumulated_height_single | exact Hrest].
    + apply (IH (cur ++ [y]) (Double.add h (Binary64.Worker.calculateElementHeight y)) ps1);
        [|done].
      by rewrite accumulated_height_snoc, <- Hh.
Qed.

End Binary64Pages.

(** The worker never reports an empty page, and on a page it reports
    with two elements or more the running height, as the loop adds it up
    in double precision, is within the page height it was given. *)
Theorem worker_pages_within_budget (e : workerRequest) :
  ∃ pages,
    Binary64.Worker.onmessage e = ReplySuccess pages (req_startIndex e) (req_chunkSize e)
    ∧ Forall (λ page, elements page ≠ []
                      ∧ (length (elements page) = 1
                         ∨ (accumulated_height (elements page) <= req_pageHeight e)%Q))
        pages.
Proof.
  eexists. split; [reflexivity|].
  apply (Forall_fmap elements
           (λ page, page ≠ [] ∧ (length page = 1
                                 ∨ (accumulated_height page <= req_pageHeight e)%Q))).
  change (fmap elements) with (map elements). rewrite worker64_loop_elements.
  cbn [map app]. apply greedy64_pages_ok; [reflexivity | by left].
Qed.

(** So does the fallback path, with the page height of the editor. *)
Theorem fallback_pages_within_budget (doc : document) (pages0 : list (list pageItem)) :
  Forall (page_ok itemHeight PAGE_HEIGHT)
    (Editor.fallbackUpdatePages (Some doc) pages0).
Proof.
  rewrite fallbackUpdatePages_greedy.
  apply (greedy_pages_ok itemHeight); [reflexivity | by left].
Qed.

(** The worker closes a page only when it has to: the running height of
    the page before, with the height of the first element of a page
    added in double precision, is over the page height. *)
Theorem worker_page_closed_when_full (e : workerRequest) (pages : list workerPage)
    (ps1 : list (list element)) (p : list element) (x : element)
    (q : list element) (ps2 : list (list element)) :
  Binary64.Worker.onmessage e = ReplySuccess pages (req_startIndex e) (req_chunkSize e) →
  map elements pages = ps1 ++ p :: (x :: q) :: ps2 →
  (req_pageHeight e
   < Double.add (accumulated_height p) (Binary64.Worker.calculateElementHeight x))%Q.
Proof.
  intros Hrun Hpages. injection Hrun as <-.
  rewrite worker64_loop_elements in Hpages. cbn [map app] in Hpages.
  by apply (greedy64_maximal _ [] 0%Q (req_elements e) ps1 p x q ps2).
Qed.

Lemma worker_page_closed_when_full_witness :
  (348 < Double.add (accumulated_height (take 4 five_cues))
           (Binary64.Worker.calculateElementHeight (character 10 5)))%Q.
Proof.
  apply (worker_page_closed_when_full
           {| req_elements := five_cues;
              req_startIndex := 0; req_chunkSize := 5; req_pageHeight := 348 |}
           [{| pageIndex := 0; elements := take 4 five_cues |};
            {| pageIndex := 1; elements := [character 10 5] |}]
           [] (take 4 five_cues) (character 10 5) [] []).
  - vm_compute. reflexivity.
  - reflexivity.
Defined.

(** The fallback path closes a page only when it has to. *)
Theorem fallback_page_closed_when_full (doc : document) (pages0 : list (list pageItem))
    (ps1 : list (list pageItem)) (p : list pageItem) (x : pageItem)
    (q : list pageItem) (ps2 : list (list pageItem)) :
  Editor.fallbackUpdatePages (Some doc) pages0 = ps1 ++ p :: (x :: q) :: ps2 →
  (PAGE_HEIGHT < page_height itemHeight p + itemHeight x)%Q.
Proof.
  rewrite fallbackUpdatePages_greedy. intros Hpages.
  by apply (greedy_maximal itemHeight _ [] 0%Q (pageItems doc) ps1 p x q ps2).
Qed.

Lemma fallback_page_closed_when_full_witness :
  (PAGE_HEIGHT
   < page_height itemHeight [{| node := (action 1400 1).1; pos := 1 |}]
     + itemHeight {| node := (action 1400 2).1; pos := 2 |})%Q.
Proof.
  apply (fallback_page_closed_when_full three_long_actions []
           [] [{| node := (action 1400 1).1; pos := 1 |}]
           {| node := (action 1400 2).1; pos := 2 |} []
           [[{| node := (action 1400 3).1; pos := 3 |}]]).
  vm_compute. reflexivity.
Defined.

(** The page indices the worker reports count up from
    [floor(startIndex / 15)], one per page, whatever the pages hold. *)
Theorem worker_pageIndex_consecutive (e : workerRequest) :
  ∃ pages,
    Worker.onmessage e = ReplySuccess pages (req_startIndex e) (req_chunkSize e)
    ∧ ∀ k page, pages !! k = Some page → pageIndex page = req_startIndex e / 15 + k.
Proof.
  eexists. split; [reflexivity|]. intros k page Hk.
  pose proof (worker_loop_sorted (req_pageHeight e) (req_elements e)
                (req_startIndex e / 15)) as Hs. cbv zeta in Hs.
  assert (Hi : map pageIndex
                 (Worker.loop (req_pageHeight e) (req_elements e) [] [] 0
                    (req_startIndex e / 15)) !! k = Some (pageIndex page))
    by (by rewrite list_lookup_fmap, Hk).
  rewrite Hs in Hi. apply lookup_seq in Hi. lia.
Qed.

(** One run of either loop puts every element on exactly one page, in
    the order of the input. *)
Theorem sequential_pagination_complete (e : workerRequest) (doc : document)
    (pages0 : list (list pageItem)) :
  (∃ pages,
      Worker.onmessage e = ReplySuccess pages (req_startIndex e) (req_chunkSize e)
      ∧ concat (map elements pages) = req_elements e)
  ∧ concat (Editor.fallbackUpdatePages (Some doc) pages0) = pageItems doc.
Proof.
  split.
  - eexists. split; [reflexivity|].
    rewrite worker_loop_elements. simpl. apply greedy_concat.
  - rewrite fallbackUpdatePages_greedy. apply greedy_concat.
Qed.

(** A document without screenplay elements has no pages, on either path
    and for every pool. *)
Theorem no_elements_no_pages (workers : list worker) (doc : document)
    (pages0 : list (list pageItem)) :
  Editor.extractElements doc = [] →
  Editor.updatePages workers (Some doc) pages0 = []
  ∧ Editor.fallbackUpdatePages (Some doc) pages0 = [].
Proof.
  intros Hnone.
  assert (Hfb : Editor.fallbackUpdatePages (Some doc) pages0 = []).
  { rewrite fallbackUpdatePages_greedy.
    rewrite extractElements_pageItems in Hnone.
    apply fmap_nil_inv in Hnone. by rewrite Hnone. }
  split; [|done]. unfold Editor.updatePages.
  destruct (length workers =? 0)%nat; [done|]. by rewrite Hnone.
Qed.

Lemma no_elements_no_pages_witness :
  Editor.updatePages [Responsive; Hung] (Some title_page) [] = []
  ∧ Editor.fallbackUpdatePages (Some title_page) [] = [].
Proof.
  apply (no_elements_no_pages [Responsive; Hung] title_page []).
  reflexivity.
Defined.

(** ** More about the parallel path *)

(** Whatever the workers do, the combined pages hold elements of the
    chunks only. *)
Lemma dispatch_elements_submseteq (allElements : list element) (c i : nat)
    (workers : list worker) :
  concat (map elements (Editor.combine (Editor.dispatch allElements c i workers)))
  ⊆+ take (length workers * c) (drop (i * c) allElements).
Proof.
  revert i. induction workers as [|w workers IH]; intros i; [done|].
  cbn [Editor.dispatch]. cbv zeta. rewrite chunk_slice.
  assert (Hrest : take (length (w :: workers) * c) (drop (i * c) allElements)
                  = take c (drop (i * c) allElements)
                    ++ take (length workers * c) (drop (S i * c) allElements)).
  { replace (drop (S i * c) allElements) with (drop c (drop (i * c) allElements))
      by (rewrite drop_drop; f_equal; lia).
    rewrite take_take_drop. f_equal. }
  rewrite Hrest.
  destruct (length (take c (drop (i * c) allElements)) =? 0)%nat eqn:Hlen.
  - apply Nat.eqb_eq, nil_length_inv in Hlen. rewrite Hlen. apply IH.
  - unfold Editor.combine. cbn [flat_map]. rewrite map_app, concat_app.
    apply submseteq_app; [|apply IH].
    destruct w; cbn; [|apply submseteq_nil_l..].
    rewrite worker_loop_elements. simpl. by rewrite greedy_concat.
Qed.

(** Whatever the workers do, [updatePages] neither invents nor repeats an
    element: its pages hold a part of the extracted elements. *)
Theorem parallel_path_no_foreign_element (workers : list worker) (doc : document)
    (pages0 : list (list pageItem)) :
  workers ≠ [] →
  concat (Editor.updatePages workers (Some doc) pages0)
  ⊆+ map plainItem (Editor.extractElements doc).
Proof.
  intros Hne. unfold Editor.updatePages.
  destruct (length workers =? 0)%nat eqn:Hw.
  { apply Nat.eqb_eq, nil_length_inv in Hw. done. }
  destruct (length (Editor.extractElements doc) =? 0)%nat eqn:Hlen.
  { apply submseteq_nil_l. }
  cbv zeta. unfold Editor.merge.
  set (results := Editor.dispatch _ _ _ _).
  assert (Hflat : ∀ pages, concat (map Editor.convertPage pages)
                           = map plainItem (concat (map elements pages))).
  { induction pages as [|pg pages IH]; [done|].
    simpl. by rewrite IH, map_app. }
  rewrite (concat_Permutation _ (map Editor.convertPage (Editor.combine results)))
    by apply Permutation_map, sort_Permutation.
  rewrite Hflat. apply fmap_submseteq.
  etransitivity; [apply dispatch_elements_submseteq|].
  rewrite drop_0. apply sublist_submseteq, sublist_take.
Qed.

Lemma parallel_path_no_foreign_element_witness :
  concat (Editor.updatePages [Responsive; Hung] (Some three_long_actions) [])
  ⊆+ map plainItem (Editor.extractElements three_long_actions).
Proof.
  apply (parallel_path_no_foreign_element [Responsive; Hung] three_long_actions []).
  discriminate.
Defined.

Lemma combine_cons (result : settled) (results : list settled) :
  Editor.combine (result :: results)
  = match result with Fulfilled value => value | Rejected _ => [] end
    ++ Editor.combine results.
Proof. done. Qed.

Lemma dispatch_length_lost (allElements : list element) (c i : nat)
    (workers : list worker) (j : nat) (w : worker) :
  workers !! j = Some w → w ≠ Responsive →
  (i + j) * c < length allElements → 0 < c →
  length (concat (map elements
            (Editor.combine (Editor.dispatch allElements c i workers))))
  < length (take (length workers * c) (drop (i * c) allElements)).
Proof.
  intros Hj Hw. revert i j Hj.
  induction workers as [|w0 workers IH]; intros i j Hj Hlt Hc; [done|].
  cbn [Editor.dispatch]. cbv zeta. rewrite chunk_slice.
  assert (Hrest : take (length (w0 :: workers) * c) (drop (i * c) allElements)
                  = take c (drop (i * c) allElements)
                    ++ take (length workers * c) (drop (S i * c) allElements)).
  { replace (drop (S i * c) allElements) with (drop c (drop (i * c) allElements))
      by (rewrite drop_drop; f_equal; lia).
    rewrite take_take_drop. f_equal. }
  rewrite Hrest, length_app.
  pose proof (submseteq_length _ _
                (dispatch_elements_submseteq allElements c (S i) workers)) as Hle.
  destruct j as [|j]; simpl in Hj.
  - injection Hj as ->.
    assert (Hchunk : 0 < length (take c (drop (i * c) allElements))).
    { rewrite Nat.add_0_r in Hlt. rewrite length_take, length_drop. lia. }
    destruct (length (take c (drop (i * c) allElements)) =? 0)%nat eqn:Hlen;
      [apply Nat.eqb_eq in Hlen; lia|].
    rewrite combine_cons, map_app, concat_app, length_app.
    destruct w; [done|cbn [Editor.chunkPromise map concat length]; lia..].
  - assert (Hlt' : (S i + j) * c < length allElements)
      by (replace (S i + j) with (i + S j) by lia; done).
    specialize (IH (S i) j Hj Hlt' Hc).
    destruct (length (take c (drop (i * c) allElements)) =? 0)%nat eqn:Hlen; [lia|].
    rewrite combine_cons, map_app, concat_app, length_app.
    assert (length (concat (map elements
              match Editor.chunkPromise w0 (take c (drop (i * c) allElements)) (i * c) with
              | Fulfilled value => value
              | Rejected _ => []
              end)) ≤ length (take c (drop (i * c) allElements))); [|lia].
    destruct w0; cbn; [|lia..].
    rewrite worker_loop_elements. simpl. by rewrite greedy_concat.
Qed.

(** The elements of a chunk whose worker hangs or crashes are missing
    from the pages: the result has fewer elements than the document. *)
Theorem failed_chunk_is_lost (workers : list worker) (doc : document)
    (pages0 : list (list pageItem)) (i : nat) (w : worker) :
  let n := length (Editor.extractElements doc) in
  workers !! i = Some w → w ≠ Responsive →
  i * chunkSizeOf n (length workers) < n →
  length (concat (Editor.updatePages workers (Some doc) pages0)) < n.
Proof.
  intros n Hi Hw Hchunk. unfold Editor.updatePages.
  destruct (length workers =? 0)%nat eqn:Hlw.
  { apply Nat.eqb_eq, nil_length_inv in Hlw. by subst. }
  apply Nat.eqb_neq in Hlw.
  destruct (length (Editor.extractElements doc) =? 0)%nat eqn:Hlen.
  { apply Nat.eqb_eq in Hlen. unfold n in Hchunk. lia. }
  cbv zeta. unfold Editor.merge.
  fold (chunkSizeOf (length (Editor.extractElements doc)) (length workers)).
  fold n. set (c := chunkSizeOf n (length workers)) in *.
  set (results := Editor.dispatch _ _ _ _).
  assert (Hflat : ∀ pages, length (concat (map Editor.convertPage pages))
                           = length (concat (map elements pages))).
  { induction pages as [|pg pages IH]; [done|].
    simpl. rewrite !length_app, IH. unfold Editor.convertPage. by rewrite length_map. }
  rewrite (concat_Permutation _ (map Editor.convertPage (Editor.combine results)))
    by apply Permutation_map, sort_Permutation.
  rewrite Hflat.
  assert (Hc : 0 < c).
  { pose proof (chunkSize_covers n (length workers) ltac:(lia)) as Hcov.
    fold (chunkSizeOf n (length workers)) in Hcov. fold c in Hcov.
    destruct c; [lia|lia]. }
  pose proof (dispatch_length_lost (Editor.extractElements doc) c 0 workers i w
                Hi Hw Hchunk Hc) as Hlost.
  fold results in Hlost. rewrite length_take in Hlost. rewrite length_drop in Hlost.
  unfold n. lia.
Qed.

Lemma failed_chunk_is_lost_witness :
  length (concat (Editor.updatePages [Responsive; Hung] (Some three_long_actions) []))
  < length (Editor.extractElements three_long_actions).
Proof.
  apply (failed_chunk_is_lost [Responsive; Hung] three_long_actions [] 1 Hung).
  - reflexivity.
  - discriminate.
  - vm_compute. lia.
Defined.

(** ** A document that fits on one page *)

(** The sort leaves a list alone whose keys never decrease. *)
Lemma sort_StronglySorted {A} (key : A → nat) (l : list A) :
  StronglySorted (λ a b, key a ≤ key b) l →
  JS.sort (λ a b, (Z.of_nat (key a) - Z.of_nat (key b))%Z) l = l.
Proof.
  induction 1 as [|x l _ IH Hx]; [done|].
  simpl. rewrite IH. by apply sort_insert_head.
Qed.

Lemma page_height_take_drop {A} (height : A → Q) (l : list A) (c k : nat) :
  (∀ x, (0 < height x)%Q) →
  (page_height height (take c (drop k l)) <= page_height height l)%Q.
Proof.
  intros Hpos.
  rewrite <- (take_drop k l) at 2. rewrite page_height_app.
  rewrite <- (take_drop c (drop k l)) at 2. rewrite page_height_app.
  pose proof (page_height_nonneg height Hpos (take k l)).
  pose proof (page_height_nonneg height Hpos (drop c (drop k l))). lra.
Qed.

Lemma dispatch_one_page_each (allElements : list element) (c i : nat)
    (workers : list worker) :
  Forall (λ w, w = Responsive) workers →
  (page_height Worker.calculateElementHeight allElements <= PAGE_HEIGHT)%Q →
  Editor.combine (Editor.dispatch allElements c i workers)
  = omap (chunkPage allElements c) (seq i (length workers)).
Proof.
  intros Hall Hfit. revert i.
  induction Hall as [|w workers -> _ IH]; intros i; [done|].
  cbn [Editor.dispatch length seq]. cbv zeta. rewrite chunk_slice. csimpl.
  unfold chunkPage at 1.
  destruct (length (take c (drop (i * c) allElements)) =? 0)%nat eqn:Hlen; [apply IH|].
  rewrite combine_cons, IH. cbn [Editor.chunkPromise Worker.onmessage].
  cbn [req_pageHeight req_elements req_startIndex].
  set (chunk := take c (drop (i * c) allElements)) in *.
  assert (Hpages : greedy Worker.calculateElementHeight PAGE_HEIGHT [] 0 chunk = [chunk]).
  { apply (greedy_one_page Worker.calculateElementHeight PAGE_HEIGHT [] 0%Q chunk).
    - reflexivity.
    - apply worker_height_pos.
    - simpl. eapply Qle_trans; [|exact Hfit].
      apply page_height_take_drop, worker_height_pos.
    - simpl. intros Hnil. apply Nat.eqb_neq in Hlen. apply Hlen. by rewrite Hnil. }
  pose proof (worker_loop_elements PAGE_HEIGHT chunk [] [] 0 (i * c / 15)) as He.
  pose proof (worker_loop_pageIndex PAGE_HEIGHT chunk [] [] 0 (i * c / 15)) as Hi.
  rewrite Hpages in He, Hi.
  change ((Nat.divmod (i * c) 14 0 14).1) with (i * c / 15).
  set (pages := Worker.loop PAGE_HEIGHT chunk [] [] 0 (i * c / 15)) in *.
  change (map elements pages = [chunk]) in He.
  change (map pageIndex pages = [i * c / 15]) in Hi.
  destruct pages as [|[idx els] [|? ?]]; [done| |done].
  injection He as ->. injection Hi as ->. done.
Qed.

Lemma omap_seq_S {B} (f : nat → option B) (i n : nat) :
  omap f (seq i (S n))
  = match f i with
    | Some y => y :: omap f (seq (S i) n)
    | None => omap f (seq (S i) n)
    end.
Proof. done. Qed.

Lemma chunkPage_sorted (allElements : list element) (c i n : nat) :
  StronglySorted (λ a b, pageIndex a ≤ pageIndex b)
    (omap (chunkPage allElements c) (seq i n))
  ∧ Forall (λ page, i * c / 15 ≤ pageIndex page)
      (omap (chunkPage allElements c) (seq i n)).
Proof.
  revert i. induction n as [|n IH]; intros i; [split; constructor|].
  destruct (IH (S i)) as [Hs Hf]. rewrite omap_seq_S.
  assert (Hmono : i * c / 15 ≤ S i * c / 15) by (apply Nat.Div0.div_le_mono; lia).
  assert (Hf' : Forall (λ page, i * c / 15 ≤ pageIndex page)
                  (omap (chunkPage allElements c) (seq (S i) n))).
  { eapply Forall_impl; [exact Hf|]. intros page Hp.
    exact (Nat.le_trans _ _ _ Hmono Hp). }
  destruct (chunkPage allElements c i) as [page|] eqn:Hpage; [|done].
  assert (Hidx : pageIndex page = i * c / 15).
  { unfold chunkPage in Hpage. destruct (length _ =? 0)%nat; [done|].
    by injection Hpage as <-. }
  split; constructor; rewrite ?Hidx; done.
Qed.

Lemma chunkPage_elements (allElements : list element) (c i n : nat) :
  map elements (omap (chunkPage allElements c) (seq i n))
  = filter (λ chunk, chunk ≠ [])
      (map (λ j, JS.slice (j * c) ((j * c + c) `min` length allElements) allElements)
           (seq i n)).
Proof.
  revert i. induction n as [|n IH]; intros i; [done|].
  rewrite omap_seq_S. cbn [seq map]. rewrite chunk_slice. unfold chunkPage at 1.
  cbv zeta.
  destruct (length (take c (drop (i * c) allElements)) =? 0)%nat eqn:Hlen.
  - apply Nat.eqb_eq, nil_length_inv in Hlen. rewrite Hlen.
    rewrite filter_cons_False by (intros H; by apply H). apply IH.
  - rewrite filter_cons_True by (intros Hnil; by rewrite Hnil in Hlen).
    cbn [map elements]. by rewrite IH.
Qed.

(** A document whose elements fit on one page together: the fallback
    path builds that one page, while the parallel path with responsive
    workers builds one page per non-empty chunk, in document order. *)
Theorem one_page_document_is_split (workers : list worker) (doc : document)
    (pages0 : list (list pageItem)) :
  let allElements := Editor.extractElements doc in
  Forall (λ w, w = Responsive) workers → workers ≠ [] → allElements ≠ [] →
  (page_height Worker.calculateElementHeight allElements <= PAGE_HEIGHT)%Q →
  Editor.fallbackUpdatePages (Some doc) pages0 = [pageItems doc]
  ∧ Editor.updatePages workers (Some doc) pages0
    = map (map plainItem)
        (chunks (chunkSizeOf (length allElements) (length workers))
                (length workers) allElements).
Proof.
  intros allElements Hall Hne Hdoc Hfit. split.
  - rewrite fallbackUpdatePages_greedy.
    apply (greedy_one_page itemHeight PAGE_HEIGHT [] 0%Q (pageItems doc)).
    + reflexivity.
    + intros x. apply editor_height_pos.
    + simpl. unfold allElements in Hfit. rewrite extractElements_pageItems in Hfit.
      clear -Hfit. eapply Qle_trans; [|exact Hfit]. clear Hfit.
      induction (pageItems doc) as [|it l IH]; simpl; [lra|].
      unfold itemHeight at 1. rewrite <- worker_height_toElement. lra.
    + simpl. intros Hnil. apply Hdoc. unfold allElements.
      by rewrite extractElements_pageItems, Hnil.
  - unfold Editor.updatePages.
    destruct (length workers =? 0)%nat eqn:Hw.
    { apply Nat.eqb_eq, nil_length_inv in Hw. done. }
    fold allElements.
    destruct (length allElements =? 0)%nat eqn:Hlen.
    { apply Nat.eqb_eq, nil_length_inv in Hlen. done. }
    cbv zeta. unfold Editor.merge.
    fold (chunkSizeOf (length allElements) (length workers)).
    rewrite dispatch_one_page_each by done.
    rewrite sort_StronglySorted by apply chunkPage_sorted.
    unfold chunks. rewrite <- chunkPage_elements, map_map. done.
Qed.

Lemma one_page_document_is_split_witness :
  Editor.fallbackUpdatePages (Some two_short_actions) [] = [pageItems two_short_actions]
  ∧ Editor.updatePages [Responsive; Responsive] (Some two_short_actions) []
    = map (map plainItem)
        (chunks (chunkSizeOf 2 2) 2 (Editor.extractElements two_short_actions)).
Proof.
  apply (one_page_document_is_split [Responsive; Responsive] two_short_actions []).
  - repeat constructor.
  - discriminate.
  - discriminate.
  - vm_compute. discriminate.
Defined.

(** ** Witnesses for the two facts about the pool *)

Lemma updatePages_keeps_elements_witness :
  concat (Editor.updatePages [Responsive; Responsive] (Some three_long_actions) [])
  ≡ₚ map plainItem (Editor.extractElements three_long_actions).
Proof.
  apply (updatePages_keeps_elements [Responsive; Responsive] three_long_actions []).
  - discriminate.
  - repeat constructor.
Defined.

Lemma updatePages_none_responsive_witness :
  Editor.updatePages [Hung; Crashed] (Some three_long_actions) [] = [].
Proof.
  apply (updatePages_none_responsive [Hung; Crashed] three_long_actions []).
  - discriminate.
  - repeat constructor; discriminate.
Defined.

(** ** Double precision and exact arithmetic at the page height of the editor *)

Section Agreement.

Local Open Scope Q_scope.

(** A multiple of 2.4 is not within 1.2 of 1122. *)
Lemma step_below (M : Z) : (12 # 5) * inject_Z M <= 1122 → (12 # 5) * inject_Z M <= 5604 # 5.
Proof.
  intros H. assert (Hz : (M ≤ 467)%Z).
  { assert (H' : inject_Z M < inject_Z 468) by (change (inject_Z 468) with 468; lra).
    rewrite <- Zlt_Qlt in H'. lia. }
  rewrite Zle_Qle in Hz. change (inject_Z 467) with 467 in Hz. lra.
Qed.

Lemma step_above (M : Z) : 1122 < (12 # 5) * inject_Z M → 5616 # 5 <= (12 # 5) * inject_Z M.
Proof.
  intros H. assert (Hz : (468 ≤ M)%Z).
  { assert (H' : inject_Z 467 < inject_Z M) by (change (inject_Z 467) with 467; lra).
    rewrite <- Zlt_Qlt in H'. lia. }
  rewrite Zle_Qle in Hz. change (inject_Z 468) with 468 in Hz. lra.
Qed.

Lemma gt_false (a b : Q) : a <= b → JS.gt a b = false.
Proof.
  intros H. destruct (JS.gt a b) eqn:E; [|done]. apply gt_spec in E. lra.
Qed.

Lemma gt_true (a b : Q) : b < a → JS.gt a b = true.
Proof. apply gt_spec. Qed.

Lemma height_pair_bounds (hq hd : Q) :
  height_pair hq hd →
  12 <= hq ∧ (hq <= 1122 → hq <= 5604 # 5) ∧ (1122 < hq → 5616 # 5 <= hq)
  ∧ hq - hq * (1 # 2251799813685248) <= hd ∧ hd <= hq + hq * (1 # 2251799813685248)
  ∧ ∃ k : Z, hq == (12 # 5) * inject_Z k.
Proof.
  intros (k & Hk & E & Herr). apply Qabs_Qle_condition in Herr.
  rewrite Zle_Qle in Hk. change (inject_Z 5) with 5 in Hk.
  split; [lra|]. split; [|split].
  - intros H. rewrite E in *. by apply step_below.
  - intros H. rewrite E in *. by apply step_above.
  - split; [lra|]. split; [lra|]. by exists k.
Qed.

(** The first element of a page. *)
Lemma heights_agree_first (cq cd hq hd : Q) :
  cq == 0 → cd == 0 → height_pair hq hd →
  heights_agree 1 (cq + hq) (Double.add cd hd).
Proof.
  intros Eq Ed Hp.
  destruct (height_pair_bounds hq hd Hp) as (H12 & Hb & Ha & Hlo & Hhi & k & Ek).
  assert (H0 : 0 <= cd + hd) by lra.
  destruct (round_error_nonneg _ H0) as [Hr1 Hr2]. unfold Double.u in Hr1, Hr2.
  change (Double.round (cd + hd)) with (Double.add cd hd) in Hr1, Hr2.
  destruct (Qlt_le_dec 1122 hq) as [Hbig|Hsmall].
  - right. right. specialize (Ha Hbig). split; [lia|]. split; lra.
  - right. left. specialize (Hb Hsmall). split; [lia|]. split; [|split; [|split]].
    + exists k. rewrite Eq, <- Ek. ring.
    + lra.
    + change (inject_Z (Z.of_nat 1)) with 1. lra.
    + change (inject_Z (Z.of_nat 1)) with 1. apply Qabs_Qle_condition. split; lra.
Qed.

(** One step of the loop: the two tests agree, and so do the running
    heights afterwards. *)
Lemma heights_agree_step (j : nat) (cq cd hq hd : Q) :
  heights_agree j cq cd → height_pair hq hd →
  JS.gt (Double.add cd hd) 1122 && (0 <? j)%nat = JS.gt (cq + hq) 1122 && (0 <? j)%nat
  ∧ (JS.gt (cq + hq) 1122 && (0 <? j)%nat = false →
     heights_agree (S j) (cq + hq) (Double.add cd hd)).
Proof.
  intros Hinv Hp.
  destruct (height_pair_bounds hq hd Hp) as (H12 & Hb & Ha & Hlo & Hhi & k & Ek).
  destruct Hinv as [(-> & Eq & Ed)|[(Hj & (K & EK) & Hle & Hcount & Herr)|(Hj & Hq & Hd)]].
  - split; [by rewrite !andb_false_r|]. intros _. by apply heights_agree_first.
  - assert (Hj' : (0 <? j)%nat = true) by (by apply Nat.ltb_lt). rewrite Hj', !andb_true_r.
    apply Qabs_Qle_condition in Herr.
    set (J := inject_Z (Z.of_nat j)) in *.
    assert (HJ : 1 <= J).
    { unfold J. change 1 with (inject_Z 1). rewrite <- Zle_Qle. lia. }
    assert (H0 : 0 <= cd + hd) by lra.
    destruct (round_error_nonneg _ H0) as [Hr1 Hr2]. unfold Double.u in Hr1, Hr2.
    change (Double.round (cd + hd)) with (Double.add cd hd) in Hr1, Hr2.
    assert (Es : cq + hq == (12 # 5) * inject_Z (K + k)).
    { rewrite inject_Z_plus, EK, Ek. ring. }
    destruct (Qlt_le_dec 1122 (cq + hq)) as [Hbig|Hsmall].
    + assert (Hs : 5616 # 5 <= cq + hq) by (rewrite Es in *; by apply step_above).
      rewrite (gt_true (cq + hq)) by done.
      split; [|done]. apply gt_true. lra.
    + assert (Hs : cq + hq <= 5604 # 5) by (rewrite Es in *; by apply step_below).
      rewrite (gt_false (cq + hq)) by done.
      split; [apply gt_false; lra|]. intros _.
      right. left. split; [lia|]. split; [by exists (K + k)%Z|]. split; [done|].
      rewrite Nat2Z.inj_succ. unfold Z.succ. rewrite inject_Z_plus. fold J.
      change (inject_Z 1) with 1.
      split; [lra|]. apply Qabs_Qle_condition. split; lra.
  - assert (Hj' : (0 <? j)%nat = true) by (by apply Nat.ltb_lt). rewrite Hj', !andb_true_r.
    assert (H0 : 0 <= cd + hd) by lra.
    destruct (round_error_nonneg _ H0) as [Hr1 Hr2]. unfold Double.u in Hr1, Hr2.
    change (Double.round (cd + hd)) with (Double.add cd hd) in Hr1, Hr2.
    rewrite (gt_true (cq + hq)) by lra.
    split; [|done]. apply gt_true. lra.
Qed.

End Agreement.

Section LoopsAgree.

Local Open Scope Q_scope.

Lemma heights_pair (n : nat) (ty : string) :
  (Z.of_nat n < 2 ^ 53)%Z →
  height_pair
    (24 * inject_Z (JS.Math_ceil (JS.num n / 60))
     * (if bool_decide (ty = "scene_heading") then 1.5
        else if bool_decide (ty = "character") then 1.2 else 1) + 12)
    (Double.add
       (Double.mul (Double.mul 24 (inject_Z (JS.Math_ceil (Double.div (JS.num n) 60))))
          (if bool_decide (ty = "scene_heading") then Double.round 1.5
           else if bool_decide (ty = "character") then Double.round 1.2 else 1)) 12).
Proof.
  intros Hn.
  destruct (double_height n ty Hn) as (_ & _ & Herr). cbn zeta in Herr.
  assert (Hk0 : (0 ≤ JS.Math_ceil (JS.num n / 60))%Z).
  { apply Math_ceil_nonneg. pose proof (num_nonneg n). apply Qle_shift_div_l; lra. }
  rewrite Math_ceil_double_div60 by done.
  set (k := JS.Math_ceil (JS.num n / 60)) in *.
  unfold multiplier_spec in Herr.
  repeat case_bool_decide.
  - exists (15 * k + 5)%Z. split; [lia|]. split.
    + rewrite inject_Z_plus, inject_Z_mult. change (inject_Z 15) with 15.
      change (inject_Z 5) with 5. field.
    + assert (E : 24 * inject_Z k * 1.5 + 12 == 24 * inject_Z k * (3 # 2) + 12) by field.
      by rewrite E.
  - exists (12 * k + 5)%Z. split; [lia|]. split.
    + rewrite inject_Z_plus, inject_Z_mult. change (inject_Z 12) with 12.
      change (inject_Z 5) with 5. field.
    + assert (E : 24 * inject_Z k * 1.2 + 12 == 24 * inject_Z k * (6 # 5) + 12) by field.
      by rewrite E.
  - exists (10 * k + 5)%Z. split; [lia|]. split.
    + rewrite inject_Z_plus, inject_Z_mult. change (inject_Z 10) with 10.
      change (inject_Z 5) with 5. field.
    + done.
Qed.

Lemma worker_height_pair (e : element) :
  (Z.of_nat (String.length (content e)) < 2 ^ 53)%Z →
  height_pair (Worker.calculateElementHeight e) (Binary64.Worker.calculateElementHeight e).
Proof.
  intros Hn.
  unfold Worker.calculateElementHeight, Binary64.Worker.calculateElementHeight.
  rewrite !worker_contentLength. by apply heights_pair.
Qed.

Lemma editor_height_pair (n : pmnode) :
  (Z.of_nat (String.length (textContent n)) < 2 ^ 53)%Z →
  height_pair (Editor.calculateElementHeight n) (Binary64.Editor.calculateElementHeight n).
Proof.
  intros Hn.
  unfold Editor.calculateElementHeight, Binary64.Editor.calculateElementHeight.
  by apply heights_pair.
Qed.

Lemma worker_loops_agree (rest : list element) (processed : list workerPage)
    (cur : list element) (cq cd : Q) (idx : nat) :
  heights_agree (length cur) cq cd →
  Forall (λ e, (Z.of_nat (String.length (content e)) < 2 ^ 53)%Z) rest →
  Binary64.Worker.loop PAGE_HEIGHT rest processed cur cd idx
  = Worker.loop PAGE_HEIGHT rest processed cur cq idx.
Proof.
  revert processed cur cq cd idx.
  induction rest as [|x rest IH]; intros processed cur cq cd idx Hinv Hall; [done|].
  apply Forall_cons in Hall as [Hx Hall].
  pose proof (worker_height_pair x Hx) as Hp.
  destruct (heights_agree_step _ _ _ _ _ Hinv Hp) as [Htest Hnext].
  cbn [Binary64.Worker.loop Worker.loop]. cbv zeta.
  change PAGE_HEIGHT with 1122. rewrite Htest.
  destruct (JS.gt (cq + Worker.calculateElementHeight x) 1122 && (0 <? length cur)%nat) eqn:Hc.
  - apply IH; [|done]. by apply heights_agree_first.
  - apply IH; [|done]. rewrite length_app, Nat.add_1_r. by apply Hnext.
Qed.

Lemma fallback_loops_agree (rest : document) (newPages : list (list pageItem))
    (cur : list pageItem) (cq cd : Q) :
  heights_agree (length cur) cq cd →
  Forall (λ '(n, _), (Z.of_nat (String.length (textContent n)) < 2 ^ 53)%Z) rest →
  Binary64.Editor.fallbackLoop rest newPages cur cd
  = Editor.fallbackLoop rest newPages cur cq.
Proof.
  revert newPages cur cq cd.
  induction rest as [|[n p] rest IH]; intros newPages cur cq cd Hinv Hall; [done|].
  apply Forall_cons in Hall as [Hx Hall].
  cbn [Binary64.Editor.fallbackLoop Editor.fallbackLoop]. cbv zeta.
  case_bool_decide; [|by apply IH].
  pose proof (editor_height_pair n Hx) as Hp.
  destruct (heights_agree_step _ _ _ _ _ Hinv Hp) as [Htest Hnext].
  change PAGE_HEIGHT with 1122. rewrite Htest.
  destruct (JS.gt (cq + Editor.calculateElementHeight n) 1122 && (0 <? length cur)%nat) eqn:Hc.
  - apply IH; [|done]. by apply heights_agree_first.
  - apply IH; [|done]. rewrite length_app, Nat.add_1_r. by apply Hnext.
Qed.

Lemma heights_agree_start : heights_agree 0 0 0.
Proof. left. done. Qed.

End LoopsAgree.

(** At the page height of the editor the rounding of double precision
    moves no page boundary. *)
Theorem rounding_moves_no_page_boundary
    (elements : list element) (startIndex chunkSize : nat)
    (doc : document) (pages0 : list (list pageItem)) :
  Forall (λ e, (Z.of_nat (String.length (content e)) < 2 ^ 53)%Z) elements →
  Forall (λ '(n, _), (Z.of_nat (String.length (textContent n)) < 2 ^ 53)%Z) doc →
  Binary64.Worker.onmessage
    {| req_elements := elements; req_startIndex := startIndex;
       req_chunkSize := chunkSize; req_pageHeight := PAGE_HEIGHT |}
  = Worker.onmessage
      {| req_elements := elements; req_startIndex := startIndex;
         req_chunkSize := chunkSize; req_pageHeight := PAGE_HEIGHT |}
  ∧ Binary64.Editor.fallbackUpdatePages (Some doc) pages0
    = Editor.fallbackUpdatePages (Some doc) pages0.
Proof.
  intros Hels Hdoc. split.
  - unfold Binary64.Worker.onmessage, Worker.onmessage. simpl. f_equal.
    apply worker_loops_agree; [apply heights_agree_start | done].
  - simpl. apply fallback_loops_agree; [apply heights_agree_start | done].
Qed.

Lemma rounding_moves_no_page_boundary_witness :
  Binary64.Worker.onmessage
    {| req_elements := five_cues; req_startIndex := 0;
       req_chunkSize := 5; req_pageHeight := PAGE_HEIGHT |}
  = Worker.onmessage
      {| req_elements := five_cues; req_startIndex := 0;
         req_chunkSize := 5; req_pageHeight := PAGE_HEIGHT |}
  ∧ Binary64.Editor.fallbackUpdatePages (Some three_long_actions) []
    = Editor.fallbackUpdatePages (Some three_long_actions) [].
Proof.
  apply (rounding_moves_no_page_boundary five_cues 0 5 three_long_actions []).
  - repeat (constructor; [vm_compute; reflexivity|]). constructor.
  - repeat (constructor; [vm_compute; reflexivity|]). constructor.
Defined.

(** ** More about the relay *)

Section RelayMore.

Import Relay.

Lemma members_socket_join (σ : relay) (socket room room' : string) :
  members (socket_join socket room σ) room'
  = if decide (room = room') then {[socket]} ∪ members σ room' else members σ room'.
Proof.
  unfold members at 1. simpl. case_decide as Hr.
  - subst. by rewrite lookup_insert_eq.
  - by rewrite lookup_insert_ne.
Qed.

Lemma members_leave_all (σ : relay) (socket room : string) :
  default ∅ (((λ s : gset string, s ∖ {[socket]}) <$> adapter σ) !! room)
  = members σ room ∖ {[socket]}.
Proof.
  unfold members. rewrite lookup_fmap.
  destruct (adapter σ !! room); simpl; [done|]. set_solver.
Qed.

Lemma NoDup_Set_add (x : string) (s : list string) : NoDup s → NoDup (Set_add x s).
Proof.
  intros H. unfold Set_add. case_bool_decide; [done|].
  apply NoDup_app. repeat split; [done | | apply NoDup_singleton].
  intros y Hy Hx. apply list_elem_of_singleton in Hx. by subst.
Qed.

Lemma NoDup_Set_delete (x : string) (s : list string) : NoDup s → NoDup (Set_delete x s).
Proof. apply NoDup_filter. Qed.

Lemma relay_invariant_initial : relay_invariant initial.
Proof.
  split; unfold joined, members; simpl.
  - intros room s. rewrite lookup_empty. simpl. set_solver.
  - intros s d (props & H & _). by rewrite lookup_empty in H.
  - intros s. rewrite !lookup_empty. split; [by intros [? ?]|].
    intros (props & H & _). done.
  - intros d room. by rewrite lookup_empty.
Qed.

Lemma relay_invariant_handle (ev : clientEvent) (σ : relay) :
  relay_invariant σ → relay_invariant (handle ev σ).
Proof.
  intros [Ha Hd Hp Hn].
  destruct ev as [s|s d u info|s d upd|s d aw|s]; simpl;
    destruct (sockets σ !! s) as [props|] eqn:Hs; try (by split).
  - (* connection *)
    split; unfold joined; simpl.
    + intros room r. rewrite lookup_insert_is_Some.
      change (r ∈ members (socket_join s s σ) room → s = r ∨ s ≠ r ∧ is_Some (sockets σ !! r)).
      rewrite members_socket_join. destruct (decide (s = r)) as [->|Hne]; [by left|].
      intros Hr. right. split; [done|]. apply (Ha room).
      case_decide; set_solver.
    + intros r d0 (props & Hr & Hdoc).
      change (r ∈ members (socket_join s s σ) d0). rewrite members_socket_join.
      destruct (decide (s = r)) as [->|Hne].
      * rewrite lookup_insert_eq in Hr. by simplify_eq.
      * rewrite lookup_insert_ne in Hr by done.
        assert (r ∈ members σ d0) by (apply Hd; unfold joined; eauto).
        case_decide; set_solver.
    + intros r. rewrite Hp. destruct (decide (s = r)) as [->|Hne].
      * rewrite lookup_insert_eq, Hs. split.
        -- intros (? & ? & _). done.
        -- intros (? & ? & Hdoc). simplify_eq. simpl in Hdoc. by destruct Hdoc.
      * by rewrite lookup_insert_ne.
    + exact Hn.
  - (* join-document *)
    unfold on_join_document. split; unfold joined; cbn -[filter].
    + intros room r. rewrite lookup_insert_is_Some.
      change (r ∈ members (socket_join s d σ) room → s = r ∨ s ≠ r ∧ is_Some (sockets σ !! r)).
      rewrite members_socket_join. destruct (decide (s = r)) as [->|Hne]; [by left|].
      intros Hr. right. split; [done|]. apply (Ha room).
      case_decide; set_solver.
    + intros r d0 (props0 & Hr & Hdoc).
      change (r ∈ members (socket_join s d σ) d0). rewrite members_socket_join.
      destruct (decide (s = r)) as [->|Hne].
      * rewrite lookup_insert_eq in Hr. simplify_eq. simpl in Hdoc. simplify_eq.
        rewrite decide_True by done. set_solver.
      * rewrite lookup_insert_ne in Hr by done.
        assert (r ∈ members σ d0) by (apply Hd; unfold joined; eauto).
        case_decide; set_solver.
    + intros r. destruct (decide (s = r)) as [->|Hne].
      * rewrite !lookup_insert_eq. split; [|by eauto].
        intros _. eexists. split; [done|]. simpl. eauto.
      * rewrite !lookup_insert_ne by done. apply Hp.
    + intros d0 room. destruct (decide (d = d0)) as [->|Hne].
      * rewrite lookup_insert_eq. intros ?; simplify_eq.
        apply NoDup_Set_add. destruct (documentRooms σ !! d0) eqn:Hr; simpl.
        -- by apply (Hn d0).
        -- constructor.
      * rewrite lookup_insert_ne by done. apply Hn.
  - (* disconnect *)
    unfold on_disconnect.
    set (σ1 := {| documentRooms := documentRooms σ; userAwareness := userAwareness σ;
                  sockets := sockets σ;
                  adapter := (λ s0 : gset string, s0 ∖ {[s]}) <$> adapter σ;
                  outbox := outbox σ |}).
    set (σ2 := if JS.truthy_opt (sock_documentId props) then _ else σ1).
    assert (Hsock : sockets σ2 = sockets σ)
      by (unfold σ2; by destruct (JS.truthy_opt _)).
    assert (Hpres : userAwareness σ2 = userAwareness σ)
      by (unfold σ2; by destruct (JS.truthy_opt _)).
    assert (Hmem : ∀ room, members σ2 room = members σ room ∖ {[s]}).
    { intros room. unfold σ2. destruct (JS.truthy_opt _); apply members_leave_all. }
    assert (Hrooms : ∀ d0 room, documentRooms σ2 !! d0 = Some room → NoDup room).
    { intros d0 room. unfold σ2. destruct (JS.truthy_opt _); [|apply Hn]. cbn.
      destruct (documentRooms σ !! default "" (sock_documentId props)) as [room0|] eqn:Hr;
        [|apply Hn].
      destruct (length (Set_delete s room0) =? 0)%nat.
      - intros Hl. apply lookup_delete_Some in Hl as [_ Hl]. by apply (Hn d0).
      - intros Hl. apply lookup_insert_Some in Hl as [[_ <-]|[_ Hl]].
        + apply NoDup_Set_delete. by apply (Hn _ _ Hr).
        + by apply (Hn d0). }
    clearbody σ2. split; unfold joined; simpl.
    + intros room r Hr. change (r ∈ members σ2 room) in Hr. rewrite Hmem in Hr.
      rewrite Hsock, lookup_delete_ne by set_solver. apply (Ha room). set_solver.
    + intros r d0 (props0 & Hr & Hdoc). rewrite Hsock in Hr.
      apply lookup_delete_Some in Hr as [Hne Hr].
      change (r ∈ members σ2 d0). rewrite Hmem.
      assert (r ∈ members σ d0) by (apply Hd; unfold joined; eauto). set_solver.
    + intros r. rewrite Hpres, Hsock. destruct (decide (s = r)) as [->|Hne].
      * rewrite !lookup_delete_eq. split; [by intros [? ?]|]. by intros (? & ? & _).
      * rewrite !lookup_delete_ne by done. apply Hp.
    + exact Hrooms.
Qed.

Lemma relay_invariant_reachable (evs : list clientEvent) (σ : relay) :
  relay_invariant σ → relay_invariant (run evs σ).
Proof.
  revert σ. induction evs as [|ev evs IH]; intros σ Hinv; [done|].
  simpl. apply IH. by apply relay_invariant_handle.
Qed.

End RelayMore.

Section RelayExtras.

Import Relay.

Lemma drop_outbox (l new : list emission) : drop (length l) (l ++ new) = new.
Proof. by rewrite drop_app_length. Qed.

Lemma difference_twice (X : gset string) (s : string) :
  X ∖ {[s]} ∖ {[s]} = X ∖ {[s]}.
Proof.
  apply set_eq. intros x. rewrite !elem_of_difference. tauto.
Qed.

(** What each event adds to the outbox. *)
Lemma emitted_by_update (σ : relay) (s d : string) (upd : list N) :
  is_Some (sockets σ !! s) →
  emitted_by (yjs_update_msg s d upd) σ
  = [{| recipients := members σ d ∖ {[s]}; event := yjs_update upd |}].
Proof.
  intros [props Hs]. unfold emitted_by. simpl. rewrite Hs.
  unfold on_yjs_update, socket_to_emit. simpl. apply drop_outbox.
Qed.

Lemma emitted_by_awareness (σ : relay) (s d : string) (aw : jsobject) :
  is_Some (sockets σ !! s) →
  emitted_by (awareness_update_msg s d aw) σ
  = [{| recipients := members σ d ∖ {[s]}; event := awareness_update s aw |}].
Proof.
  intros [props Hs]. unfold emitted_by. simpl. rewrite Hs.
  unfold on_awareness_update, socket_to_emit. simpl. apply drop_outbox.
Qed.

Lemma emitted_by_join (σ : relay) (s d u : string) (info : jsobject) :
  is_Some (sockets σ !! s) →
  ∃ users,
    emitted_by (join_document s d u info) σ
    = [{| recipients := members σ d ∖ {[s]}; event := user_joined s u info |};
       {| recipients := {[s]}; event := current_users users |}]
    ∧ users
      = filter (λ user, JS.truthy_opt (cu_userId user) = true)
          (map (λ id, {| cu_socketId := id;
                         cu_userId := (<[s := info ∪ {["userId" := u]}]> (userAwareness σ)
                                        !! id) ≫= (λ a, a !! "userId");
                         cu_userInfo := <[s := info ∪ {["userId" := u]}]> (userAwareness σ)
                                          !! id |})
               (filter (λ id, id ≠ s)
                  (Set_add s (default [] (documentRooms σ !! d))))).
Proof.
  intros [props Hs]. eexists. split; [|reflexivity].
  unfold emitted_by. simpl. rewrite Hs.
  unfold on_join_document. cbn -[filter].
  rewrite <- app_assoc, drop_outbox. cbn -[filter].
  unfold members at 1. cbn -[filter]. rewrite lookup_insert_eq. cbn -[filter].
  by rewrite others_after_join.
Qed.

Lemma emitted_by_disconnect (σ : relay) (s : string) (props : socketProps) :
  sockets σ !! s = Some props →
  emitted_by (disconnect s) σ
  = if JS.truthy_opt (sock_documentId props)
    then [{| recipients := members σ (default "" (sock_documentId props)) ∖ {[s]};
             event := user_left s (sock_userId props) |}]
    else [].
Proof.
  intros Hs. unfold emitted_by. simpl. rewrite Hs. unfold on_disconnect.
  destruct (JS.truthy_opt (sock_documentId props)); cbn.
  - rewrite drop_outbox. unfold members at 1. cbn.
    by rewrite members_leave_all, difference_twice.
  - by rewrite drop_all.
Qed.

Lemma emitted_by_connection (σ : relay) (s : string) :
  emitted_by (connection s) σ = [].
Proof.
  unfold emitted_by. simpl. destruct (sockets σ !! s); simpl; apply drop_all.
Qed.

Lemma emitted_by_unconnected (σ : relay) (ev : clientEvent) :
  sockets σ !! sender ev = None → emitted_by ev σ = [].
Proof.
  intros Hs. destruct ev; simpl in Hs; unfold emitted_by; simpl; rewrite Hs; apply drop_all.
Qed.

(** Whatever the clients have done so far, a message the relay emits goes
    to sockets that are connected, and only the [current-users] reply
    goes to the socket that caused it: no broadcast is echoed to its
    sender. *)
Theorem relay_emits_to_connected_others (evs : list clientEvent) (ev : clientEvent)
    (e : emission) :
  let σ := run evs initial in
  e ∈ emitted_by ev σ →
  (∀ r, r ∈ recipients e → is_Some (sockets (handle ev σ) !! r))
  ∧ (sender ev ∈ recipients e → ∃ users, event e = current_users users).
Proof.
  intros σ He.
  assert (Hinv : relay_invariant σ)
    by apply relay_invariant_reachable, relay_invariant_initial.
  destruct Hinv as [Ha _ _ _].
  destruct (sockets σ !! sender ev) as [props|] eqn:Hs;
    [|rewrite emitted_by_unconnected in He by done; by apply not_elem_of_nil in He].
  destruct ev as [s|s d u info|s d upd|s d aw|s]; simpl in Hs.
  - rewrite emitted_by_connection in He. by apply not_elem_of_nil in He.
  - destruct (emitted_by_join σ s d u info) as (users & Heq & _); [eauto|].
    rewrite Heq in He. simpl. rewrite Hs. unfold on_join_document. cbn -[filter].
    apply elem_of_cons in He as [->|He]; [|apply list_elem_of_singleton in He as ->]; simpl.
    + split; [|set_solver]. intros r Hr. rewrite lookup_insert_is_Some.
      destruct (decide (s = r)); [by left|right]. split; [done|].
      apply (Ha d). set_solver.
    + split; [|eauto]. intros r Hr. apply elem_of_singleton in Hr as ->.
      rewrite lookup_insert_eq. eauto.
  - rewrite emitted_by_update in He by eauto.
    apply list_elem_of_singleton in He as ->. simpl. rewrite Hs.
    split; [|set_solver]. intros r Hr. apply (Ha d). set_solver.
  - rewrite emitted_by_awareness in He by eauto.
    apply list_elem_of_singleton in He as ->. simpl. rewrite Hs.
    split; [|set_solver]. intros r Hr. apply (Ha d). set_solver.
  - rewrite (emitted_by_disconnect σ s props Hs) in He.
    destruct (JS.truthy_opt (sock_documentId props)) eqn:Ht;
      [|by apply not_elem_of_nil in He].
    apply list_elem_of_singleton in He as ->. simpl. rewrite Hs.
    split; [|set_solver]. intros r Hr.
    assert (Hsock : sockets (on_disconnect s props σ) = delete s (sockets σ)).
    { unfold on_disconnect. rewrite Ht. done. }
    rewrite Hsock, lookup_delete_ne by set_solver.
    apply (Ha (default "" (sock_documentId props))). set_solver.
Qed.

Lemma relay_emits_to_connected_others_witness :
  let e := {| recipients := {["b"]}; event := user_left "a" (Some "alice") |} in
  (∀ r, r ∈ recipients e →
     is_Some (sockets (handle (disconnect "a")
                (run [connection "a"; connection "b";
                      join_document "a" "doc1" "alice" ∅;
                      join_document "b" "doc1" "bob" ∅] initial)) !! r))
  ∧ ("a" ∈ recipients e → ∃ users, event e = current_users users).
Proof.
  apply (relay_emits_to_connected_others
           [connection "a"; connection "b";
            join_document "a" "doc1" "alice" ∅;
            join_document "b" "doc1" "bob" ∅] (disconnect "a")).
  vm_compute. left.
Defined.

(** The [current-users] reply to a join never lists the joining session;
    it lists, in the order in which they joined, exactly the other
    sessions of the room whose stored presence has a non-empty [userId],
    each with its presence entry. *)
Theorem current_users_lists_the_others (σ : relay) (s d u : string) (info : jsobject) :
  is_Some (sockets σ !! s) →
  ∃ users,
    last (emitted_by (join_document s d u info) σ)
    = Some {| recipients := {[s]}; event := current_users users |}
    ∧ (s ∉ map cu_socketId users)
    ∧ map cu_socketId users
      = filter (λ id, id ≠ s
                      ∧ JS.truthy_opt ((userAwareness σ !! id) ≫= (λ a, a !! "userId")) = true)
          (default [] (documentRooms σ !! d))
    ∧ ∀ user, user ∈ users →
        cu_userInfo user = userAwareness σ !! cu_socketId user
        ∧ cu_userId user = (userAwareness σ !! cu_socketId user) ≫= (λ a, a !! "userId").
Proof.
  intros Hs. destruct (emitted_by_join σ s d u info Hs) as (users & Heq & Husers).
  exists users. rewrite Heq. split; [done|].
  set (room := default [] (documentRooms σ !! d)) in *.
  set (ua := <[s := info ∪ {["userId" := u]}]> (userAwareness σ)) in *.
  assert (Hother : ∀ id, id ≠ s → ua !! id = userAwareness σ !! id).
  { intros id Hid. unfold ua. by rewrite lookup_insert_ne. }
  assert (Hfilter : filter (λ id, id ≠ s) (Set_add s room) = filter (λ id, id ≠ s) room).
  { unfold Set_add. case_bool_decide; [done|].
    rewrite filter_app, filter_cons_False by (intros H'; by apply H').
    by rewrite filter_nil, app_nil_r. }
  rewrite Hfilter in Husers. clear Hfilter Heq.
  assert (Hids : map cu_socketId users
                 = filter (λ id, id ≠ s
                                 ∧ JS.truthy_opt ((userAwareness σ !! id)
                                                  ≫= (λ a, a !! "userId")) = true) room).
  { rewrite Husers. clear Husers. induction room as [|id room IH]; [done|].
    destruct (decide (id = s)) as [->|Hid].
    - rewrite !filter_cons_False by (intros H'; by apply H'). apply IH.
    - rewrite (filter_cons_True (λ id, id ≠ s)) by done. cbn [map].
      rewrite (Hother id Hid).
      destruct (JS.truthy_opt ((userAwareness σ !! id) ≫= (λ a, a !! "userId"))) eqn:Ht.
      + rewrite filter_cons_True by done.
        rewrite (filter_cons_True (λ id, _ ∧ _)) by done.
        cbn [map cu_socketId]. by rewrite IH.
      + rewrite filter_cons_False by (simpl; congruence).
        rewrite (filter_cons_False (λ id, _ ∧ _)) by (intros [_ ?]; congruence).
        apply IH. }
  split; [|split; [exact Hids|]].
  - rewrite Hids. intros Hin. apply list_elem_of_filter in Hin as [[Hne _] _]. done.
  - intros user Huser. rewrite Husers in Huser.
    apply list_elem_of_filter in Huser as [_ Huser].
    apply list_elem_of_fmap in Huser as (id & -> & Hid).
    apply list_elem_of_filter in Hid as [Hid _]. simpl.
    by rewrite (Hother id Hid).
Qed.

Lemma current_users_lists_the_others_witness :
  ∃ users,
    last (emitted_by (join_document "b" "doc1" "bob" ∅)
            (run [connection "a"; connection "b";
                  join_document "a" "doc1" "alice" ∅] initial))
    = Some {| recipients := {["b"]}; event := current_users users |}
    ∧ map cu_socketId users = ["a"].
Proof.
  destruct (current_users_lists_the_others
              (run [connection "a"; connection "b";
                    join_document "a" "doc1" "alice" ∅] initial)
              "b" "doc1" "bob" ∅) as (users & H1 & _ & H2 & _).
  - vm_compute. eauto.
  - exists users. split; [exact H1|]. rewrite H2. vm_compute. reflexivity.
Defined.

(** The presence table has an entry for a session exactly when the
    session is connected and has sent a [join-document]; the entry of a
    session that disconnects is removed whatever room it was in. *)
Theorem presence_iff_joined (evs : list clientEvent) (s : string) :
  let σ := run evs initial in
  is_Some (userAwareness σ !! s)
  ↔ ∃ props, sockets σ !! s = Some props ∧ is_Some (sock_documentId props).
Proof.
  intros σ. apply inv_presence.
  apply relay_invariant_reachable, relay_invariant_initial.
Qed.

(** However often sessions join and leave, no room lists a session
    twice. *)
Theorem room_has_no_duplicates (evs : list clientEvent) (d : string) (room : list string) :
  documentRooms (run evs initial) !! d = Some room → NoDup room.
Proof.
  apply inv_nodup. apply relay_invariant_reachable, relay_invariant_initial.
Qed.

Lemma room_has_no_duplicates_witness :
  documentRooms (run [connection "a"; connection "b";
                      join_document "a" "doc1" "alice" ∅;
                      join_document "b" "doc1" "bob" ∅;
                      join_document "a" "doc1" "alice" ∅] initial) !! "doc1"
  = Some ["a"; "b"]
  ∧ NoDup ["a"; "b"].
Proof.
  split; [vm_compute; reflexivity|].
  apply (room_has_no_duplicates
           [connection "a"; connection "b";
            join_document "a" "doc1" "alice" ∅;
            join_document "b" "doc1" "bob" ∅;
            join_document "a" "doc1" "alice" ∅] "doc1").
  vm_compute. reflexivity.
Defined.

(** A document delta or a presence delta sent for a document reaches
    every other session that is joined to that document. *)
Theorem delta_reaches_joined_peers (evs : list clientEvent) (s r d : string)
    (upd : list N) (aw : jsobject) :
  let σ := run evs initial in
  is_Some (sockets σ !! s) → joined σ r d → r ≠ s →
  (∃ e, emitted_by (yjs_update_msg s d upd) σ = [e]
        ∧ event e = yjs_update upd ∧ r ∈ recipients e)
  ∧ (∃ e, emitted_by (awareness_update_msg s d aw) σ = [e]
          ∧ event e = awareness_update s aw ∧ r ∈ recipients e).
Proof.
  intros σ Hs Hj Hne.
  assert (Hr : r ∈ members σ d).
  { apply inv_delivery; [|done].
    apply relay_invariant_reachable, relay_invariant_initial. }
  split; eexists.
  - rewrite emitted_by_update by done. repeat split. simpl. set_solver.
  - rewrite emitted_by_awareness by done. repeat split. simpl. set_solver.
Qed.

Lemma delta_reaches_joined_peers_witness :
  let σ := run [connection "a"; connection "b";
                join_document "a" "doc1" "alice" ∅;
                join_document "b" "doc1" "bob" ∅] initial in
  (∃ e, emitted_by (yjs_update_msg "a" "doc1" [1%N]) σ = [e]
        ∧ event e = yjs_update [1%N] ∧ "b" ∈ recipients e)
  ∧ (∃ e, emitted_by (awareness_update_msg "a" "doc1" ∅) σ = [e]
          ∧ event e = awareness_update "a" ∅ ∧ "b" ∈ recipients e).
Proof.
  apply (delta_reaches_joined_peers
           [connection "a"; connection "b";
            join_document "a" "doc1" "alice" ∅;
            join_document "b" "doc1" "bob" ∅] "a" "b" "doc1" [1%N] ∅).
  - vm_compute. eauto.
  - eexists. split; [vm_compute; reflexivity | reflexivity].
  - discriminate.
Defined.

Lemma join_documentRooms (σ : relay) (s d u : string) (info : jsobject) :
  documentRooms (on_join_document s d u info σ)
  = <[d := Set_add s (default [] (documentRooms σ !! d))]> (documentRooms σ).
Proof. done. Qed.

Lemma join_userAwareness (σ : relay) (s d u : string) (info : jsobject) :
  userAwareness (on_join_document s d u info σ)
  = <[s := info ∪ {["userId" := u]}]> (userAwareness σ).
Proof. done. Qed.

Lemma join_sockets (σ : relay) (s d u : string) (info : jsobject) :
  sockets (on_join_document s d u info σ)
  = <[s := {| sock_documentId := Some d; sock_userId := Some u |}]> (sockets σ).
Proof. done. Qed.

Lemma Set_add_idemp (x : string) (s : list string) :
  Set_add x (Set_add x s) = Set_add x s.
Proof.
  unfold Set_add at 1. rewrite bool_decide_true; [done|].
  apply elem_of_Set_add. by left.
Qed.

(** A session that joins the document it has already joined is not added
    to the room a second time; its presence entry is overwritten by the
    later join. *)
Theorem rejoin_overwrites_presence (σ : relay) (s d u1 u2 : string) (info1 info2 : jsobject) :
  is_Some (sockets σ !! s) →
  let σ1 := handle (join_document s d u1 info1) σ in
  let σ2 := handle (join_document s d u2 info2) σ1 in
  documentRooms σ2 = documentRooms σ1
  ∧ userAwareness σ2 !! s = Some (info2 ∪ {["userId" := u2]})
  ∧ (∀ r, r ≠ s → userAwareness σ2 !! r = userAwareness σ !! r).
Proof.
  intros [props Hs]. cbv zeta. unfold handle. rewrite Hs.
  rewrite join_sockets, lookup_insert_eq.
  rewrite !join_documentRooms, !join_userAwareness, !lookup_insert_eq.
  simpl. repeat split.
  - by rewrite Set_add_idemp, insert_insert_eq.
  - intros r Hr. by rewrite !lookup_insert_ne.
Qed.

Lemma rejoin_overwrites_presence_witness :
  let σ := run [connection "a"] initial in
  let σ1 := handle (join_document "a" "doc1" "alice" ∅) σ in
  let σ2 := handle (join_document "a" "doc1" "alice" {["name" := "Al"]}) σ1 in
  documentRooms σ2 = documentRooms σ1
  ∧ userAwareness σ2 !! "a" = Some ({["name" := "Al"]} ∪ {["userId" := "alice"]}).
Proof.
  destruct (rejoin_overwrites_presence (run [connection "a"] initial)
              "a" "doc1" "alice" "alice" ∅ {["name" := "Al"]}) as (H1 & H2 & _).
  - vm_compute. eauto.
  - exact (conj H1 H2).
Defined.

Lemma disconnect_sockets (σ : relay) (s : string) (props : socketProps) :
  sockets (on_disconnect s props σ) = delete s (sockets σ).
Proof. unfold on_disconnect. by destruct (JS.truthy_opt _). Qed.

Lemma disconnect_userAwareness (σ : relay) (s : string) (props : socketProps) :
  userAwareness (on_disconnect s props σ) = delete s (userAwareness σ).
Proof. unfold on_disconnect. by destruct (JS.truthy_opt _). Qed.

Lemma disconnect_documentRooms (σ : relay) (s d : string) (props : socketProps)
    (room : list string) :
  sock_documentId props = Some d → d ≠ "" →
  documentRooms σ !! d = Some room →
  documentRooms (on_disconnect s props σ)
  = if (length (Set_delete s room) =? 0)%nat then delete d (documentRooms σ)
    else <[d := Set_delete s room]> (documentRooms σ).
Proof.
  intros Hdoc Hd Hroom. unfold on_disconnect.
  rewrite Hdoc, (truthy_opt_Some d Hd). cbn. rewrite Hroom.
  by destruct (length (Set_delete s room) =? 0)%nat.
Qed.

Lemma Set_delete_fresh (x : string) (s : list string) :
  x ∉ s → Set_delete x (Set_add x s) = s.
Proof.
  intros Hx. unfold Set_add. rewrite bool_decide_false by done.
  unfold Set_delete. rewrite filter_app, filter_cons_False by (intros H; by apply H).
  rewrite filter_nil, app_nil_r.
  induction s as [|y s IH]; [done|].
  apply not_elem_of_cons in Hx as [Hne Hx].
  rewrite filter_cons_True by done. by rewrite IH.
Qed.

(** In a disciplined use of the relay, a new session that connects,
    joins a document and disconnects leaves the room map, the presence
    table and the table of sockets exactly as they were. *)
Theorem join_then_leave_restores_registry (evs : list clientEvent) (s d u : string)
    (info : jsobject) :
  let σ := run evs initial in
  disciplined evs initial →
  sockets σ !! s = None → d ≠ "" →
  let σ' := run [connection s; join_document s d u info; disconnect s] σ in
  documentRooms σ' = documentRooms σ
  ∧ userAwareness σ' = userAwareness σ
  ∧ sockets σ' = sockets σ.
Proof.
  intros σ Hdisc Hs Hd.
  assert (Hroom : room_invariant σ)
    by (apply room_invariant_run; [apply room_invariant_initial | done]).
  assert (Hinv : relay_invariant σ)
    by apply relay_invariant_reachable, relay_invariant_initial.
  assert (Hpres : userAwareness σ !! s = None).
  { destruct (userAwareness σ !! s) eqn:Hp; [|done].
    destruct (proj1 (inv_presence σ Hinv s)) as (props & Hp' & _); [eauto|congruence]. }
  assert (Hnotin : s ∉ default [] (documentRooms σ !! d)).
  { destruct (documentRooms σ !! d) as [room|] eqn:Hr; simpl; [|apply not_elem_of_nil].
    intros Hin. destruct (inv_member σ Hroom d room s Hr Hin) as (props & Hp' & _).
    congruence. }
  cbv zeta.
  change (run [connection s; join_document s d u info; disconnect s] σ)
    with (handle (disconnect s) (handle (join_document s d u info)
                                   (handle (connection s) σ))).
  set (σ1 := handle (connection s) σ).
  assert (H1 : documentRooms σ1 = documentRooms σ ∧ userAwareness σ1 = userAwareness σ
               ∧ sockets σ1 = <[s := {| sock_documentId := None; sock_userId := None |}]>
                                (sockets σ)).
  { unfold σ1. simpl. by rewrite Hs. }
  destruct H1 as (Hr1 & Hp1 & Hs1). clearbody σ1.
  assert (Hjoin : handle (join_document s d u info) σ1 = on_join_document s d u info σ1).
  { simpl. by rewrite Hs1, lookup_insert_eq. }
  rewrite Hjoin. set (σ2 := on_join_document s d u info σ1).
  assert (Hleave : handle (disconnect s) σ2
                   = on_disconnect s {| sock_documentId := Some d; sock_userId := Some u |} σ2).
  { assert (Hs2 : sockets σ2 !! s
                   = Some {| sock_documentId := Some d; sock_userId := Some u |})
      by (unfold σ2; by rewrite join_sockets, lookup_insert_eq).
    unfold handle. by rewrite Hs2. }
  rewrite Hleave.
  rewrite disconnect_userAwareness, disconnect_sockets.
  rewrite (disconnect_documentRooms σ2 s d _ (Set_add s (default [] (documentRooms σ !! d))));
    [|done|done|unfold σ2; by rewrite join_documentRooms, lookup_insert_eq, Hr1].
  unfold σ2. rewrite join_documentRooms, join_userAwareness, join_sockets, Hr1, Hp1, Hs1.
  rewrite (Set_delete_fresh _ _ Hnotin).
  repeat split.
  - destruct (documentRooms σ !! d) as [room|] eqn:Hr; simpl.
    + pose proof (inv_nonempty σ Hroom d room Hr) as Hne.
      destruct room as [|x room]; [done|]. simpl.
      rewrite insert_insert_eq. by apply insert_id.
    + rewrite delete_insert_eq. by apply delete_id.
  - rewrite delete_insert_eq. by apply delete_id.
  - rewrite insert_insert_eq, delete_insert_eq. by apply delete_id.
Qed.

Lemma join_then_leave_restores_registry_witness :
  let σ := run sample_session initial in
  let σ' := run [connection "c"; join_document "c" "doc1" "carol" ∅; disconnect "c"] σ in
  documentRooms σ' = documentRooms σ
  ∧ userAwareness σ' = userAwareness σ
  ∧ sockets σ' = sockets σ.
Proof.
  apply (join_then_leave_restores_registry sample_session "c" "doc1" "carol" ∅).
  - simpl. repeat split; try done.
    all: intros props Hp; vm_compute in Hp; simplify_eq; simpl; auto.
  - vm_compute. reflexivity.
  - discriminate.
Defined.

End RelayExtras.

(** ** More about the sync client *)

Section ProviderFacts.

Import SyncClient Provider.

(** Ignoring the clock and the timer, what a step sends and what it
    leaves to be sent come from what was to be sent before. *)
Lemma advance_sends (t : nat) (p : provider) :
  connected (advance t p) = connected p
  ∧ ∃ sent, emitted (advance t p) = emitted p ++ sent
            ∧ sent ++ pending (advance t p) `sublist_of` pending p.
Proof.
  unfold advance, pending. destruct (updateTimeout p) as [tm|] eqn:Htm; simpl.
  all: rewrite ?Htm.
  - destruct (due tm <=? t)%nat; simpl; rewrite ?Htm.
    + split; [done|]. destruct (connected p); simpl.
      * exists [captured tm]. split; [done|]. rewrite app_nil_r. reflexivity.
      * exists []. split; [by rewrite app_nil_r|]. apply sublist_nil_l.
    + split; [done|]. exists []. split; [by rewrite app_nil_r | reflexivity].
  - split; [done|]. exists []. split; [by rewrite app_nil_r | reflexivity].
Qed.

Lemma on_update_sends (u : list N) (p : provider) :
  connected (on_update u p) = connected p
  ∧ emitted (on_update u p) = emitted p
  ∧ pending (on_update u p) `sublist_of` pending p ++ [u].
Proof.
  unfold on_update, pending. destruct (updateTimeout p) as [tm|] eqn:Htm; simpl.
  - rewrite Htm. repeat split. apply sublist_skip, sublist_nil_l.
  - rewrite ?Htm. repeat split. reflexivity.
Qed.

Lemma deltas_send (evs : list (nat * list N)) (p : provider) :
  connected (deltas evs p) = connected p
  ∧ ∃ sent, emitted (deltas evs p) = emitted p ++ sent
            ∧ sent ++ pending (deltas evs p) `sublist_of` pending p ++ map snd evs.
Proof.
  revert p. induction evs as [|[t u] evs IH]; intros p.
  - split; [done|]. exists []. rewrite !app_nil_r. split; [done | reflexivity].
  - change (deltas ((t, u) :: evs) p) with (deltas evs (on_update u (advance t p))).
    destruct (advance_sends t p) as (Hc1 & sent1 & He1 & Hs1).
    destruct (on_update_sends u (advance t p)) as (Hc2 & He2 & Hs2).
    destruct (IH (on_update u (advance t p))) as (Hc3 & sent3 & He3 & Hs3).
    split; [congruence|]. exists (sent1 ++ sent3).
    rewrite He3, He2, He1, <- !app_assoc. split; [done|].
    transitivity (sent1 ++ pending (on_update u (advance t p)) ++ map snd evs).
    { apply sublist_app; [reflexivity | exact Hs3]. }
    transitivity (sent1 ++ (pending (advance t p) ++ [u]) ++ map snd evs).
    { apply sublist_app; [reflexivity|]. apply sublist_app; [exact Hs2 | reflexivity]. }
    rewrite <- !app_assoc, app_assoc. cbn [map snd].
    apply sublist_app; [exact Hs1 | reflexivity].
Qed.

(** The throttle sends nothing of its own: on a provider without a
    pending timer, the payloads sent are local deltas, each at most once
    and in the order in which the replica produced them. *)
Theorem throttle_sends_a_sublist (evs : list (nat * list N)) (t : nat) (p : provider) :
  updateTimeout p = None →
  ∃ sent, emitted (advance t (deltas evs p)) = emitted p ++ sent
          ∧ sent `sublist_of` map snd evs.
Proof.
  intros Hp.
  destruct (deltas_send evs p) as (_ & sent1 & He1 & Hs1).
  destruct (advance_sends t (deltas evs p)) as (_ & sent2 & He2 & Hs2).
  exists (sent1 ++ sent2). rewrite He2, He1, <- app_assoc. split; [done|].
  unfold pending at 2 in Hs1. rewrite Hp in Hs1. simpl in Hs1.
  transitivity (sent1 ++ pending (deltas evs p)); [|exact Hs1].
  apply sublist_app; [reflexivity|].
  transitivity (sent2 ++ pending (advance t (deltas evs p))); [|exact Hs2].
  apply sublist_inserts_r. reflexivity.
Qed.

Lemma throttle_sends_a_sublist_witness :
  ∃ sent,
    emitted (advance 2000 (deltas five_rapid_deltas (on_connect initial))) = [] ++ sent
    ∧ sent `sublist_of` map snd five_rapid_deltas.
Proof.
  apply (throttle_sends_a_sublist five_rapid_deltas 2000 (on_connect initial)).
  reflexivity.
Defined.

(** While the provider is not connected it sends nothing: a join and an
    awareness update are dropped, and so is every local delta, whose
    timer fires and clears without a message. *)
Theorem disconnected_provider_is_silent (p : provider) (documentId userId : string)
    (userInfo awareness : Relay.jsobject) (evs : list (nat * list N)) (t : nat) :
  connected p = false →
  joinDocument p documentId userId userInfo = None
  ∧ updateAwareness p documentId awareness = None
  ∧ emitted (advance t (deltas evs p)) = emitted p.
Proof.
  intros Hc. unfold joinDocument, updateAwareness. rewrite Hc. repeat split.
  assert (Hstep : ∀ t q, connected q = false →
            connected (advance t q) = false ∧ emitted (advance t q) = emitted q).
  { intros t' q Hq. unfold advance. destruct (updateTimeout q) as [tm|]; simpl; [|done].
    destruct (due tm <=? t')%nat; simpl; [|done]. by rewrite Hq. }
  assert (Hall : connected (deltas evs p) = false ∧ emitted (deltas evs p) = emitted p).
  { revert p Hc. induction evs as [|[t' u] evs IH]; intros p Hc; [done|].
    change (deltas ((t', u) :: evs) p) with (deltas evs (on_update u (advance t' p))).
    destruct (Hstep t' p Hc) as [Hc1 He1].
    destruct (on_update_sends u (advance t' p)) as (Hc2 & He2 & _).
    destruct (IH (on_update u (advance t' p))) as [Hc3 He3]; [congruence|].
    split; congruence. }
  destruct Hall as [Hc' He']. destruct (Hstep t _ Hc') as [_ He'']. congruence.
Qed.

(** The editor joins right after constructing the provider, before the
    socket has connected. *)
Lemma disconnected_provider_is_silent_witness :
  joinDocument initial "doc1" "alice" ∅ = None
  ∧ updateAwareness initial "doc1" ∅ = None
  ∧ emitted (advance 1000 (deltas five_rapid_deltas initial)) = emitted initial.
Proof.
  apply (disconnected_provider_is_silent initial "doc1" "alice" ∅ ∅ five_rapid_deltas 1000).
  reflexivity.
Defined.

Lemma color_index_in_range (userId : string) :
  Z.to_nat (Z.abs (hashOf userId) `mod` Z.of_nat (length colors)) < length colors.
Proof.
  change (Z.of_nat (length colors)) with 10%Z. change (length colors) with 10.
  pose proof (Z.mod_pos_bound (Z.abs (hashOf userId)) 10 ltac:(lia)). lia.
Qed.

(** [generateUserColor] never gives [undefined]: for every user id it
    gives one of the ten colours of the palette. *)
Theorem generateUserColor_in_palette (userId : string) :
  ∃ color, generateUserColor userId = Some color ∧ color ∈ colors.
Proof.
  unfold generateUserColor.
  destruct (lookup_lt_is_Some_2 colors _ (color_index_in_range userId)) as [color Hcolor].
  exists color. split; [done|]. by apply list_elem_of_lookup_2 in Hcolor.
Qed.

(** The presence the relay stores for a join sent by [joinDocument]: the
    properties the caller gave are kept as they are, and [name], [color]
    and [userId] are there in any case, with the user id and its palette
    colour as defaults. *)
Theorem client_join_presence (p : provider) (σ : Relay.relay)
    (socket documentId userId : string) (userInfo : Relay.jsobject) :
  connected p = true → is_Some (Relay.sockets σ !! socket) →
  ∃ m a,
    joinDocument p documentId userId userInfo = Some m
    ∧ Relay.userAwareness
        (Relay.handle (Relay.join_document socket (jp_documentId m) (jp_userId m)
                         (jp_userInfo m)) σ) !! socket = Some a
    ∧ (∀ k v, userInfo !! k = Some v → a !! k = Some v)
    ∧ (userInfo !! "name" = None → a !! "name" = Some userId)
    ∧ (userInfo !! "color" = None →
         a !! "color" = generateUserColor userId ∧ is_Some (a !! "color"))
    ∧ (userInfo !! "userId" = None → a !! "userId" = Some userId).
Proof.
  intros Hc [props Hs]. unfold joinDocument. rewrite Hc.
  destruct (lookup_lt_is_Some_2 colors _ (color_index_in_range userId)) as [color Hcolor].
  fold (generateUserColor userId) in Hcolor. rewrite Hcolor. eexists _, _. split; [reflexivity|]. simpl. rewrite Hs.
  unfold Relay.on_join_document. cbn -[filter]. rewrite lookup_insert_eq.
  split; [reflexivity|]. repeat split.
  - intros k v Hk. rewrite <- !(assoc_L (∪)). by apply lookup_union_Some_l.
  - intros Hn. rewrite <- !(assoc_L (∪)), lookup_union_r by done.
    apply lookup_union_Some_l. by rewrite lookup_insert_eq.
  - rewrite <- !(assoc_L (∪)), lookup_union_r by done.
    erewrite lookup_union_Some_l; [done|].
    rewrite lookup_insert_ne by done. by rewrite lookup_singleton_eq.
  - rewrite <- !(assoc_L (∪)), lookup_union_r by done.
    erewrite lookup_union_Some_l; [eauto|].
    rewrite lookup_insert_ne by done. by rewrite lookup_singleton_eq.
  - intros Hu. rewrite <- !(assoc_L (∪)), lookup_union_r by done.
    rewrite lookup_union_r.
    + by rewrite lookup_singleton_eq.
    + rewrite lookup_insert_ne by done. by rewrite lookup_singleton_ne.
Qed.

Lemma client_join_presence_witness :
  ∃ m a,
    joinDocument (on_connect initial) "doc1" "alice" {["cursor" := "12"]} = Some m
    ∧ Relay.userAwareness
        (Relay.handle (Relay.join_document "s1" (jp_documentId m) (jp_userId m)
                         (jp_userInfo m))
           (Relay.run [Relay.connection "s1"] Relay.initial)) !! "s1" = Some a
    ∧ a !! "cursor" = Some "12" ∧ a !! "name" = Some "alice".
Proof.
  destruct (client_join_presence (on_connect initial)
              (Relay.run [Relay.connection "s1"] Relay.initial)
              "s1" "doc1" "alice" {["cursor" := "12"]})
    as (m & a & Hm & Ha & Hk & Hn & _).
  - reflexivity.
  - vm_compute. eauto.
  - exists m, a. repeat split; [exact Hm | exact Ha | | ].
    + apply Hk. reflexivity.
    + apply Hn. reflexivity.
Defined.

End ProviderFacts.

(** ** The page update of the editor view *)

Section PageUpdateFacts.

Import PageUpdate.

Lemma last_cons_default (t t' : nat) (ts : list nat) :
  default t (last (t' :: ts)) = default t' (last ts).
Proof.
  revert t t'. induction ts as [|a ts IH]; intros t t'; [done|].
  rewrite last_cons_cons. by rewrite (IH t a), (IH t' a).
Qed.

Lemma burst_invariant (ts : list nat) (t : nat) (s : scheduler) :
  updateTimeout s = Some (t + 150) → clock s = t → burst t ts →
  updateTimeout (transactions ts s) = Some (default t (last ts) + 150)
  ∧ clock (transactions ts s) = default t (last ts)
  ∧ runs (transactions ts s) = runs s.
Proof.
  revert t s. induction ts as [|t' ts IH]; intros t s Hu Hc Hb; [done|].
  destruct Hb as [Ht Hb].
  change (transactions (t' :: ts) s)
    with (transactions ts (dispatchTransaction (advance t' s))).
  assert (Hadv : advance t' s
                 = {| updateTimeout := Some (t + 150); clock := t'; runs := runs s |}).
  { unfold advance. rewrite Hu, Hc.
    destruct (Nat.leb_spec (t + 150) t'); [lia|]. f_equal. lia. }
  destruct (IH t' (dispatchTransaction (advance t' s))) as (H1 & H2 & H3);
    [by rewrite Hadv | by rewrite Hadv | done |].
  rewrite H1, H2, H3, Hadv, last_cons_default. done.
Qed.

(** While transactions keep coming less than 150 ms apart, the pages are
    not updated; they are updated once, 150 ms after the last one. *)
Theorem page_update_waits_for_quiet (s : scheduler) (t0 : nat) (ts : list nat) :
  updateTimeout s = None → clock s ≤ t0 → burst t0 ts →
  let quiet := default t0 (last ts) + 150 in
  runs (transactions (t0 :: ts) s) = runs s
  ∧ runs (advance quiet (transactions (t0 :: ts) s)) = runs s ++ [quiet].
Proof.
  intros Hu Hc Hb quiet.
  change (transactions (t0 :: ts) s)
    with (transactions ts (dispatchTransaction (advance t0 s))).
  assert (Hadv : advance t0 s = {| updateTimeout := None; clock := t0; runs := runs s |}).
  { unfold advance. rewrite Hu. f_equal. lia. }
  destruct (burst_invariant ts t0 (dispatchTransaction (advance t0 s))) as (H1 & H2 & H3);
    [by rewrite Hadv | by rewrite Hadv | done |].
  assert (H3' : runs (transactions ts (dispatchTransaction (advance t0 s))) = runs s)
    by (by rewrite H3, Hadv).
  split; [done|].
  set (s' := transactions ts (dispatchTransaction (advance t0 s))) in *.
  unfold advance. rewrite H1. fold quiet. rewrite Nat.leb_refl. simpl. by rewrite H3'.
Qed.

Lemma page_update_waits_for_quiet_witness :
  let s := {| updateTimeout := None; clock := 0; runs := [] |} in
  runs (transactions [1000; 1100; 1240; 1380] s) = []
  ∧ runs (advance 1530 (transactions [1000; 1100; 1240; 1380] s)) = [1530].
Proof.
  apply (page_update_waits_for_quiet
           {| updateTimeout := None; clock := 0; runs := [] |} 1000 [1100; 1240; 1380]).
  - reflexivity.
  - simpl. lia.
  - simpl. lia.
Defined.

End PageUpdateFacts.

(** ** The search of the document worker *)

Section SearchFacts.

Import DocumentWorker.

Lemma filter_lookup_inv {A} (P : A → Prop) `{∀ x, Decision (P x)} (l : list A)
    (k : nat) (x : A) :
  filter P l !! k = Some x → ∃ i, k ≤ i ∧ l !! i = Some x ∧ P x.
Proof.
  revert k. induction l as [|y l IH]; intros k Hk; [by rewrite filter_nil in Hk|].
  destruct (decide (P y)) as [Hy|Hy].
  - rewrite filter_cons_True in Hk by done. destruct k as [|k]; simpl in Hk.
    + simplify_eq. exists 0. eauto with lia.
    + destruct (IH k Hk) as (i & Hi & Hl & Hx). exists (S i). eauto with lia.
  - rewrite filter_cons_False in Hk by done.
    destruct (IH k Hk) as (i & Hi & Hl & Hx). exists (S i). eauto with lia.
Qed.

Lemma filter_lookup_intro {A} (P : A → Prop) `{∀ x, Decision (P x)} (l : list A)
    (i : nat) (x : A) :
  l !! i = Some x → P x → ∃ k, k ≤ i ∧ filter P l !! k = Some x.
Proof.
  revert i. induction l as [|y l IH]; intros i Hi Hx; [done|].
  destruct i as [|i]; simpl in Hi.
  - simplify_eq. exists 0. by rewrite filter_cons_True.
  - destruct (IH i Hi Hx) as (k & Hk & Hf).
    destruct (decide (P y)) as [Hy|Hy].
    + exists (S k). rewrite filter_cons_True by done. eauto with lia.
    + exists k. rewrite filter_cons_False by done. eauto with lia.
Qed.

(** Whatever the lower-casing: the [elementIndex] of a search result is
    its rank among the results, not its place in the document; the
    result is an element of the document at that place or a later one,
    with a non-empty content that contains the query. *)
Theorem search_result_is_ranked (toLowerCase : string → string)
    (elements : list docElement) (query : string) (k : nat) (r : searchResult) :
  searchInElements toLowerCase elements query !! k = Some r →
  elementIndex r = k
  ∧ ∃ i, k ≤ i ∧ elements !! i = Some (sr_element r)
         ∧ de_content (sr_element r) ≠ ""
         ∧ includes (toLowerCase (de_content (sr_element r))) (toLowerCase query) = true.
Proof.
  unfold searchInElements. rewrite list_lookup_imap.
  destruct (filter _ elements !! k) as [e|] eqn:He; [|done].
  intros Hr. injection Hr as <-. simpl. split; [done|].
  apply filter_lookup_inv in He as (i & Hi & Hl & Hm).
  exists i. repeat split; [done..| |].
  - unfold matches, JS.truthy in Hm. apply andb_true_iff in Hm as [Hm _].
    apply negb_true_iff, bool_decide_eq_false in Hm. done.
  - unfold matches in Hm. by apply andb_true_iff in Hm as [_ Hm].
Qed.

Lemma search_result_is_ranked_witness :
  ∃ i, 0 ≤ i ∧ sample_script !! i
                = Some {| de_type := "dialogue"; de_content := "Hello, Mary here.";
                          de_dual := false |}.
Proof.
  destruct (search_result_is_ranked lower_ascii sample_script "mary" 0
    {| sr_element := {| de_type := "dialogue"; de_content := "Hello, Mary here.";
                        de_dual := false |};
       elementIndex := 0 |}) as (_ & i & Hi & Hl & _).
  - vm_compute. reflexivity.
  - exists i. split; [exact Hi | exact Hl].
Defined.

(** And every element with a non-empty content that contains the query
    is among the results, ranked no higher than its place. *)
Theorem search_finds_every_match (toLowerCase : string → string)
    (elements : list docElement) (query : string) (i : nat) (e : docElement) :
  elements !! i = Some e →
  de_content e ≠ "" →
  includes (toLowerCase (de_content e)) (toLowerCase query) = true →
  ∃ k, k ≤ i
       ∧ searchInElements toLowerCase elements query !! k
         = Some {| sr_element := e; elementIndex := k |}.
Proof.
  intros Hi Hc Hq.
  destruct (filter_lookup_intro (λ element, matches toLowerCase query element = true)
              elements i e Hi) as (k & Hk & Hf).
  { unfold matches, JS.truthy. rewrite Hq, bool_decide_false by done. done. }
  exists k. split; [done|]. unfold searchInElements.
  by rewrite list_lookup_imap, Hf.
Qed.

Lemma search_finds_every_match_witness :
  ∃ k, k ≤ 2
       ∧ searchInElements lower_ascii sample_script "mary" !! k
         = Some {| sr_element := {| de_type := "dialogue"; de_content := "Hello, Mary here.";
                                    de_dual := false |};
                   elementIndex := k |}.
Proof.
  apply (search_finds_every_match lower_ascii sample_script "mary" 2).
  - reflexivity.
  - discriminate.
  - vm_compute. reflexivity.
Defined.

End SearchFacts.

